(** * PathProof: the graph analysis engine of [src/lib/graphAnalysis.ts]

    A shallow embedding of the analysis pipeline
    (graph building, cycle / smurfing / shell / velocity detection, scoring,
    payroll filtering, ring assembly, report emission) and the properties
    the specification states about it.

    Modelling conventions.
    - A JS [Map<string, V>] keeps its keys in insertion order and the engine
      iterates over its maps, so a map is an association list in insertion
      order ([OMap]); a [Set<string>] is a duplicate-free list in insertion
      order ([OSet]).
    - The node table [Map<string, GraphNode>] always stores a node under its
      own [id], so it is a list of nodes looked up by [id].
    - Account identifiers, transaction ids and ring ids are strings.
    - Timestamps are integer milliseconds ([Z]); counters are [nat].
    - Amounts are JS numbers; they are modelled as exact rationals ([Q]), so
      rounding errors of IEEE doubles are not modelled.  Suspicion scores are
      sums of the integer weights and stay integers ([Z]).
    - Mutable state (the node table, the module-level [ringCounter], the
      detector accumulators) is passed explicitly. *)

From Stdlib Require Import String Ascii DecimalString DecimalNat Bool Arith ZArith QArith Qround Lia.
From Stdlib Require Import List Permutation Sorted.
Import ListNotations.

Local Open Scope string_scope.
Local Open Scope list_scope.
Local Open Scope nat_scope.

(* ================================================================== *)
(** ** Insertion-ordered containers *)
(* ================================================================== *)

(** [Set<string>]: membership, insertion at the end when absent. *)
Module OSet.

Definition has (x : string) (s : list string) : bool :=
  existsb (String.eqb x) s.

Definition add (x : string) (s : list string) : list string :=
  if has x s then s else s ++ [x].

(** [new Set(xs)] *)
Definition of_list (xs : list string) : list string :=
  fold_left (fun s x => add x s) xs [].

End OSet.

(** [Map<string, V>]: [get], [has], [set] (in place when the key exists,
    appended otherwise). *)
Module OMap.
Section WithValue.
Context {V : Type}.

Fixpoint get (k : string) (m : list (string * V)) : option V :=
  match m with
  | [] => None
  | (k', v) :: m' => if String.eqb k k' then Some v else get k m'
  end.

Definition has (k : string) (m : list (string * V)) : bool :=
  match get k m with Some _ => true | None => false end.

Fixpoint set (k : string) (v : V) (m : list (string * V)) : list (string * V) :=
  match m with
  | [] => [(k, v)]
  | (k', v') :: m' =>
      if String.eqb k k' then (k, v) :: m' else (k', v') :: set k v m'
  end.

(** Mutation of the value stored under [k] (a no-op when [k] is absent). *)
Fixpoint alter (f : V -> V) (k : string) (m : list (string * V)) : list (string * V) :=
  match m with
  | [] => []
  | (k', v) :: m' =>
      if String.eqb k k' then (k', f v) :: m' else (k', v) :: alter f k m'
  end.

End WithValue.

(** [if (!m.has(k)) m.set(k, []); m.get(k)!.push(v)] *)
Definition push {V : Type} (k : string) (v : V) (m : list (string * list V))
  : list (string * list V) :=
  if has k m then alter (fun l => l ++ [v]) k m else m ++ [(k, [v])].

End OMap.

(* ================================================================== *)
(** ** Data model ([src/types/index.ts]) *)
(* ================================================================== *)

Record Transaction := mkTransaction {
  transaction_id : string;
  sender_id : string;
  receiver_id : string;
  amount : Q;
  timestampMs : Z
}.

(** The seven pattern tags; [cycle_length k] is the template string
    [cycle_length_${k}]. *)
Inductive PatternType :=
| cycle_length (k : nat)
| fan_in
| fan_out
| shell_chain
| high_velocity.

Definition PatternType_eqb (p q : PatternType) : bool :=
  match p, q with
  | cycle_length a, cycle_length b => Nat.eqb a b
  | fan_in, fan_in | fan_out, fan_out
  | shell_chain, shell_chain | high_velocity, high_velocity => true
  | _, _ => false
  end.

(** [p.startsWith('cycle')] *)
Definition startsWith_cycle (p : PatternType) : bool :=
  match p with cycle_length _ => true | _ => false end.

Record GraphNode := mkNode {
  id : string;
  totalTransactions : nat;
  totalSent : Q;
  totalReceived : Q;
  uniqueSenders : list string;
  uniqueReceivers : list string;
  isSuspicious : bool;
  suspicionScore : Z;
  detectedPatterns : list PatternType;
  ringId : option string
}.

(** [e_amount] is the field [amount] of an edge (the name [amount] is taken
    by [Transaction]). *)
Record GraphEdge := mkEdge {
  source : string;
  target : string;
  e_amount : Q;
  timestamp : Z;
  transactionId : string
}.

Inductive RingPattern := ring_cycle | ring_fan_in | ring_fan_out | ring_shell_chain.

Record FraudRing := mkRing {
  ring_id : string;
  member_accounts : list string;
  pattern_type : RingPattern;
  risk_score : Q
}.

(** [sa_ring_id] is the optional field [ring_id] of a report entry (the
    name [ring_id] is taken by [FraudRing]). *)
Record SuspiciousAccount := mkSuspicious {
  account_id : string;
  suspicion_score : Q;
  detected_patterns : list PatternType;
  sa_ring_id : option string
}.

Record AnalysisSummary := mkSummary {
  total_accounts_analyzed : nat;
  suspicious_accounts_flagged : nat;
  fraud_rings_detected : nat;
  processing_time_seconds : Q
}.

Record AnalysisResult := mkResult {
  suspicious_accounts : list SuspiciousAccount;
  fraud_rings : list FraudRing;
  summary : AnalysisSummary;
  res_nodes : list GraphNode;
  res_edges : list GraphEdge
}.

(* ------------------------------------------------------------------ *)
(** *** The node table *)

Definition NodeTable := list GraphNode.

Fixpoint node_get (k : string) (t : NodeTable) : option GraphNode :=
  match t with
  | [] => None
  | n :: t' => if String.eqb k (id n) then Some n else node_get k t'
  end.

Definition node_has (k : string) (t : NodeTable) : bool :=
  match node_get k t with Some _ => true | None => false end.

(** In-place mutation of the node stored under [k]. *)
Fixpoint node_update (f : GraphNode -> GraphNode) (k : string) (t : NodeTable)
  : NodeTable :=
  match t with
  | [] => []
  | n :: t' =>
      if String.eqb k (id n) then f n :: t' else n :: node_update f k t'
  end.

Definition set_ringId (r : option string) (n : GraphNode) : GraphNode :=
  mkNode (id n) (totalTransactions n) (totalSent n) (totalReceived n)
         (uniqueSenders n) (uniqueReceivers n)
         (isSuspicious n) (suspicionScore n) (detectedPatterns n) r.

Definition set_flags (sus : bool) (score : Z) (pats : list PatternType)
  (n : GraphNode) : GraphNode :=
  mkNode (id n) (totalTransactions n) (totalSent n) (totalReceived n)
         (uniqueSenders n) (uniqueReceivers n) sus score pats (ringId n).

(* ================================================================== *)
(** ** Graph building *)
(* ================================================================== *)

Record Graph := mkGraph {
  nodes : NodeTable;
  edges : list GraphEdge;
  adjacency : list (string * list string);
  reverseAdj : list (string * list string);
  edgesByTime : list GraphEdge
}.

Definition ensureNode (k : string) (t : NodeTable) : NodeTable :=
  if node_has k t then t
  else t ++ [mkNode k 0 0 0 [] [] false 0%Z [] None].

Definition record_sent (tx : Transaction) (n : GraphNode) : GraphNode :=
  mkNode (id n) (S (totalTransactions n)) (totalSent n + amount tx) (totalReceived n)
         (uniqueSenders n) (OSet.add (receiver_id tx) (uniqueReceivers n))
         (isSuspicious n) (suspicionScore n) (detectedPatterns n) (ringId n).

Definition record_received (tx : Transaction) (n : GraphNode) : GraphNode :=
  mkNode (id n) (S (totalTransactions n)) (totalSent n) (totalReceived n + amount tx)
         (OSet.add (sender_id tx) (uniqueSenders n)) (uniqueReceivers n)
         (isSuspicious n) (suspicionScore n) (detectedPatterns n) (ringId n).

(** [adj.has(a) || adj.set(a, new Set()); adj.get(a).add(b)] *)
Definition adj_add (a b : string) (adj : list (string * list string))
  : list (string * list string) :=
  if OMap.has a adj then OMap.alter (OSet.add b) a adj
  else adj ++ [(a, [b])].

Definition edge_of (tx : Transaction) : GraphEdge :=
  mkEdge (sender_id tx) (receiver_id tx) (amount tx) (timestampMs tx)
         (transaction_id tx).

(** Stable sort by ascending timestamp
    ([arr.sort((a, b) => a.timestamp - b.timestamp)]). *)
Fixpoint insert_by_time (e : GraphEdge) (l : list GraphEdge) : list GraphEdge :=
  match l with
  | [] => [e]
  | x :: l' =>
      if (timestamp e <=? timestamp x)%Z then e :: l
      else x :: insert_by_time e l'
  end.

Definition sort_by_time (l : list GraphEdge) : list GraphEdge :=
  fold_right insert_by_time [] l.

(** One iteration of the loop over the transactions. *)
Definition add_transaction (g : Graph) (tx : Transaction) : Graph :=
  let t1 := ensureNode (sender_id tx) (nodes g) in
  let t2 := ensureNode (receiver_id tx) t1 in
  let t3 := node_update (record_sent tx) (sender_id tx) t2 in
  let t4 := node_update (record_received tx) (receiver_id tx) t3 in
  mkGraph t4
          (edges g ++ [edge_of tx])
          (adj_add (sender_id tx) (receiver_id tx) (adjacency g))
          (adj_add (receiver_id tx) (sender_id tx) (reverseAdj g))
          [].

Definition buildGraph (transactions : list Transaction) : Graph :=
  let g := fold_left add_transaction transactions (mkGraph [] [] [] [] []) in
  mkGraph (nodes g) (edges g) (adjacency g) (reverseAdj g)
          (sort_by_time (edges g)).

(* ================================================================== *)
(** ** Cycle detection (DFS, length 3 to 5) *)
(* ================================================================== *)

(** [Array.prototype.sort()] without comparator: ascending by code unit,
    here by character code ([String.leb]). *)
Fixpoint insert_string (x : string) (l : list string) : list string :=
  match l with
  | [] => [x]
  | y :: l' => if String.leb x y then x :: l else y :: insert_string x l'
  end.

Definition sort_strings (l : list string) : list string :=
  fold_right insert_string [] l.

(** [[...cycle].sort().join('|')] *)
Definition cycle_key (cycle : list string) : string :=
  String.concat "|" (sort_strings cycle).

Record CycleState := mkCycleState {
  cycles : list (list string);
  seenCycles : list string
}.

Definition neighbors_of (adj : list (string * list string)) (k : string)
  : list string :=
  match OMap.get k adj with Some s => s | None => [] end.

Definition emit_cycle (path : list string) (st : CycleState) : CycleState :=
  let key := cycle_key path in
  if OSet.has key (seenCycles st) then st
  else mkCycleState (cycles st ++ [path]) (OSet.add key (seenCycles st)).

(** The recursive closure [dfs(current, depth)] of one seed.  [path] and
    [visited] are restored after each recursive call in the source
    ([path.pop()], [visited.delete(neighbor)]), so they are passed by value;
    the accumulators [cycles] and [seenCycles] are threaded.  [fuel] bounds
    the recursion depth; [dfs_fuel_enough] shows that 5 is enough. *)
Fixpoint dfs (fuel : nat) (adj : list (string * list string)) (start : string)
  (current : string) (depth : nat) (path visited : list string)
  (st : CycleState) : CycleState :=
  match fuel with
  | 0 => st
  | S fuel' =>
      if 5 <? depth then st
      else
        fold_left
          (fun st neighbor =>
             if String.eqb neighbor start && (3 <=? depth) then
               emit_cycle path st
             else if negb (OSet.has neighbor visited) && (depth <? 5) then
               dfs fuel' adj start neighbor (S depth)
                   (path ++ [neighbor]) (OSet.add neighbor visited) st
             else st)
          (neighbors_of adj current) st
  end.

Definition dfs_from (adj : list (string * list string)) (st : CycleState)
  (start : string) : CycleState :=
  dfs 5 adj start start 1 [start] [start] st.

Definition detectCycles (adj : list (string * list string))
  (nodeIds : list string) : list (list string) :=
  cycles (fold_left (dfs_from adj) nodeIds (mkCycleState [] [])).

(* ================================================================== *)
(** ** Smurfing detection (fan-in / fan-out) *)
(* ================================================================== *)

Definition SMURF_THRESHOLD : nat := 10.
Definition SMURF_WINDOW_MS : Z := (72 * 60 * 60 * 1000)%Z.

Record SmurfResult := mkSmurf {
  fanInAccounts : list string;
  fanOutAccounts : list string
}.

(** [arr.slice(i, j)] *)
Definition slice {A : Type} (i j : nat) (l : list A) : list A :=
  firstn (j - i) (skipn i l).

(** [sorted[i].timestamp]; the scans below only read indices in range. *)
Definition ts_at (sorted : list GraphEdge) (i : nat) : Z :=
  match nth_error sorted i with Some e => timestamp e | None => 0%Z end.

(** [while (ts[right] - ts[left] > window) left++].  The loop stops at
    [left = right] at the latest (the difference is then 0), so
    [right - left] iterations are enough. *)
Fixpoint shrink_left (fuel : nat) (ts : nat -> Z) (window : Z)
  (right left : nat) : nat :=
  match fuel with
  | 0 => left
  | S fuel' =>
      if (window <? ts right - ts left)%Z
      then shrink_left fuel' ts window right (S left)
      else left
  end.

(** The [for (right = 0; right < sorted.length; right++)] loop of one
    account; [cp] selects the counterparty ([e.source] for fan-in,
    [e.target] for fan-out).  Returns whether the account was flagged
    (the loop breaks at the first window that reaches the threshold). *)
Fixpoint smurf_scan (cp : GraphEdge -> string) (sorted : list GraphEdge)
  (todo right left : nat) : bool :=
  match todo with
  | 0 => false
  | S todo' =>
      let left' := shrink_left (right - left) (ts_at sorted) SMURF_WINDOW_MS right left in
      let window := slice left' (S right) sorted in
      let unique := OSet.of_list (map cp window) in
      if SMURF_THRESHOLD <=? length unique then true
      else smurf_scan cp sorted todo' (S right) left'
  end.

Definition smurf_flagged (cp : GraphEdge -> string) (es : list GraphEdge) : bool :=
  let sorted := sort_by_time es in
  smurf_scan cp sorted (length sorted) 0 0.

Definition group_edges (key : GraphEdge -> string) (es : list GraphEdge)
  : list (string * list GraphEdge) :=
  fold_left (fun m e => OMap.push (key e) e m) es [].

Definition smurf_accounts (cp : GraphEdge -> string)
  (groups : list (string * list GraphEdge)) : list string :=
  fold_left
    (fun acc entry =>
       if smurf_flagged cp (snd entry) then OSet.add (fst entry) acc else acc)
    groups [].

Definition detectSmurfing (es : list GraphEdge) : SmurfResult :=
  let byReceiver := group_edges target es in
  let bySender := group_edges source es in
  mkSmurf (smurf_accounts source byReceiver) (smurf_accounts target bySender).

(* ================================================================== *)
(** ** Layered shell network detection *)
(* ================================================================== *)

Definition SHELL_MIN_HOPS : nat := 3.
Definition SHELL_MAX_TX : nat := 3.

Record QueueItem := mkItem {
  q_id : string;
  q_depth : nat;
  q_chain : list string
}.

Record ShellState := mkShell {
  sh_visited : list string;
  sh_queue : list QueueItem;
  shellAccounts : list string
}.

(** Body of [for (const neighbor of neighbors)] for the dequeued [item]. *)
Definition shell_visit (t : NodeTable) (item : QueueItem) (st : ShellState)
  (neighbor : string) : ShellState :=
  if OSet.has neighbor (sh_visited st) then st
  else
    match node_get neighbor t with
    | None => st
    | Some nNode =>
        let isShellIntermediate :=
          (2 <=? totalTransactions nNode)
          && (totalTransactions nNode <=? SHELL_MAX_TX) in
        let accounts :=
          if (SHELL_MIN_HOPS - 1 <=? q_depth item)
             && (SHELL_MIN_HOPS <=? length (q_chain item))
          then OSet.add neighbor
                 (fold_left (fun s acc => OSet.add acc s) (q_chain item)
                            (shellAccounts st))
          else shellAccounts st in
        if isShellIntermediate && (q_depth item <? 6) then
          mkShell (OSet.add neighbor (sh_visited st))
                  (sh_queue st ++
                   [mkItem neighbor (S (q_depth item)) (q_chain item ++ [neighbor])])
                  accounts
        else mkShell (sh_visited st) (sh_queue st) accounts
    end.

(** [while (queue.length > 0)]: one dequeue per unit of fuel. *)
Fixpoint shell_bfs (fuel : nat) (t : NodeTable)
  (adj : list (string * list string)) (st : ShellState) : ShellState :=
  match fuel with
  | 0 => st
  | S fuel' =>
      match sh_queue st with
      | [] => st
      | item :: rest =>
          shell_bfs fuel' t adj
            (fold_left (shell_visit t item) (neighbors_of adj (q_id item))
                       (mkShell (sh_visited st) rest (shellAccounts st)))
      end
  end.

(** Every node enters the queue at most once, so [length t + 1] dequeues
    empty the queue ([shell_bfs_fuel_enough]). *)
Definition shell_from (t : NodeTable) (adj : list (string * list string))
  (accounts : list string) (startNode : GraphNode) : list string :=
  shellAccounts
    (shell_bfs (S (length t)) t adj
       (mkShell [id startNode] [mkItem (id startNode) 0 [id startNode]] accounts)).

Definition detectShellChains (t : NodeTable)
  (adj : list (string * list string)) : list string :=
  fold_left (shell_from t adj) t [].

(* ================================================================== *)
(** ** High velocity detection *)
(* ================================================================== *)

Definition VELOCITY_WINDOW_MS : Z := (24 * 60 * 60 * 1000)%Z.
Definition VELOCITY_MIN_TX : nat := 20.

(** [timestamps.sort((a, b) => a - b)] *)
Fixpoint insert_Z (x : Z) (l : list Z) : list Z :=
  match l with
  | [] => [x]
  | y :: l' => if (x <=? y)%Z then x :: l else y :: insert_Z x l'
  end.

Definition sort_Z (l : list Z) : list Z := fold_right insert_Z [] l.

Fixpoint velocity_scan (sorted : list Z) (todo right left : nat) : bool :=
  match todo with
  | 0 => false
  | S todo' =>
      let left' :=
        shrink_left (right - left) (fun i => nth i sorted 0%Z)
                    VELOCITY_WINDOW_MS right left in
      if VELOCITY_MIN_TX <=? right - left' + 1 then true
      else velocity_scan sorted todo' (S right) left'
  end.

Definition velocity_flagged (timestamps : list Z) : bool :=
  let sorted := sort_Z timestamps in
  velocity_scan sorted (length sorted) 0 0.

Definition detectHighVelocity (es : list GraphEdge) : list string :=
  let bySender :=
    fold_left (fun m e => OMap.push (source e) (timestamp e) m) es [] in
  fold_left
    (fun acc entry =>
       if velocity_flagged (snd entry) then OSet.add (fst entry) acc else acc)
    bySender [].

(* ================================================================== *)
(** ** Suspicion scoring *)
(* ================================================================== *)

Module SCORES.
Definition cycle : Z := 40.
Definition fanIn : Z := 25.
Definition fanOut : Z := 25.
Definition shell : Z := 20.
Definition velocity : Z := 10.
End SCORES.

(** [if (flag) { score += pts; patterns.push(tag) }] *)
Definition contribute (flag : bool) (pts : Z) (tag : PatternType)
  (acc : Z * list PatternType) : Z * list PatternType :=
  if flag then ((fst acc + pts)%Z, snd acc ++ [tag]) else acc.

Definition score_node (cycleNodes : list (string * (nat * string)))
  (fanIn fanOut shell highVelocity : list string) (node : GraphNode) : GraphNode :=
  let c := OMap.get (id node) cycleNodes in
  let acc0 := (0%Z, @nil PatternType) in
  let acc1 :=
    match c with
    | Some info => contribute true SCORES.cycle (cycle_length (fst info)) acc0
    | None => acc0
    end in
  let ring :=
    match c with Some info => Some (snd info) | None => ringId node end in
  let acc2 := contribute (OSet.has (id node) fanIn) SCORES.fanIn fan_in acc1 in
  let acc3 := contribute (OSet.has (id node) fanOut) SCORES.fanOut fan_out acc2 in
  let acc4 := contribute (OSet.has (id node) shell) SCORES.shell shell_chain acc3 in
  let acc5 :=
    contribute (OSet.has (id node) highVelocity) SCORES.velocity high_velocity acc4 in
  let score := fst acc5 in
  set_flags (0 <? score)%Z (Z.min 100 score) (snd acc5) (set_ringId ring node).

Definition scoreAccounts (t : NodeTable)
  (cycleNodes : list (string * (nat * string)))
  (fanIn fanOut shell highVelocity : list string) : NodeTable :=
  map (score_node cycleNodes fanIn fanOut shell highVelocity) t.

(* ================================================================== *)
(** ** False positive filtering *)
(* ================================================================== *)

Definition Qsum (xs : list Q) : Q := fold_left Qplus xs 0%Q.

Definition Qmean (xs : list Q) : Q :=
  (Qsum xs / inject_Z (Z.of_nat (length xs)))%Q.

(** Population variance, [std ** 2]. *)
Definition Qvariance (xs : list Q) : Q :=
  let m := Qmean xs in
  (Qsum (map (fun x => (x - m) * (x - m)) xs)
   / inject_Z (Z.of_nat (length xs)))%Q.

(** [cv < 0.05] with [cv = mean > 0 ? std / mean : 0].  For [mean > 0] the
    test [sqrt(variance) / mean < 1/20] is [variance < mean^2 / 400]; for
    [mean <= 0] it is [0 < 0.05]. *)
Definition cv_below_cap (amounts : list Q) : bool :=
  let m := Qmean amounts in
  if Qle_bool m 0 then true
  else negb (Qle_bool (m * m / 400) (Qvariance amounts)).

Definition includes (p : PatternType) (l : list PatternType) : bool :=
  existsb (PatternType_eqb p) l.

(** The mutation of a payroll sender that carries [fan_out] and no cycle tag. *)
Definition drop_fan_out (node : GraphNode) : GraphNode :=
  let patterns :=
    filter (fun p => negb (PatternType_eqb p fan_out)) (detectedPatterns node) in
  let score := Z.max 0 (suspicionScore node - SCORES.fanOut) in
  if length patterns =? 0 then set_flags false 0%Z patterns node
  else set_flags (isSuspicious node) score patterns node.

Definition is_payroll (amounts : list Q) : bool :=
  (10 <=? length amounts) && cv_below_cap amounts.

(** Body of [for (const [sender, amounts] of bySender)]. *)
Definition filter_sender (t : NodeTable) (entry : string * list Q) : NodeTable :=
  match node_get (fst entry) t with
  | None => t
  | Some node =>
      if is_payroll (snd entry) then
        if negb (includes fan_out (detectedPatterns node))
           || existsb startsWith_cycle (detectedPatterns node)
        then t
        else node_update drop_fan_out (fst entry) t
      else t
  end.

Definition amounts_by_sender (es : list GraphEdge) : list (string * list Q) :=
  fold_left (fun m e => OMap.push (source e) (e_amount e) m) es [].

(** The function mutates the node table and only reads the edge list; both
    objects are returned so that their state after the call can be named. *)
Definition filterFalsePositives (t : NodeTable) (es : list GraphEdge)
  : NodeTable * list GraphEdge :=
  (fold_left filter_sender (amounts_by_sender es) t, es).

(* ================================================================== *)
(** ** Fraud ring assembly *)
(* ================================================================== *)

(** [String(n)] for a counter value. *)
Definition String_of_nat (n : nat) : string :=
  NilEmpty.string_of_uint (Nat.to_uint n).

Fixpoint zeros (n : nat) : string :=
  match n with
  | 0 => EmptyString
  | S k => String "0"%char (zeros k)
  end.

(** [s.padStart(3, '0')] *)
Definition padStart3 (s : string) : string :=
  String.append (zeros (3 - String.length s)) s.

(** [`RING_${String(n).padStart(3, '0')}`] *)
Definition ring_name (n : nat) : string :=
  String.append "RING_" (padStart3 (String_of_nat n)).

(** [Math.round(x * 10) / 10], with [Math.round(y) = floor(y + 1/2)]. *)
Definition round1 (x : Q) : Q :=
  Qred (inject_Z (Qfloor (x * 10 + (1 # 2))) / 10)%Q.

(** [Math.round(x * 100) / 100] *)
Definition round2 (x : Q) : Q :=
  Qred (inject_Z (Qfloor (x * 100 + (1 # 2))) / 100)%Q.

(** [nodes.get(acc)?.suspicionScore ?? 0] *)
Definition score_of (t : NodeTable) (acc : string) : Z :=
  match node_get acc t with Some n => suspicionScore n | None => 0%Z end.

(** [arr.reduce((sum, acc) => sum + score(acc), 0) / arr.length] *)
Definition avgScore (t : NodeTable) (arr : list string) : Q :=
  (inject_Z (fold_left (fun sum acc => (sum + score_of t acc)%Z) arr 0%Z)
   / inject_Z (Z.of_nat (length arr)))%Q.

(** JS truthiness of a [string | null | undefined] value. *)
Definition truthy (r : option string) : bool :=
  match r with
  | Some s => negb (String.eqb s "")
  | None => false
  end.

Record CycleMerge := mkMerge {
  ringCounter : nat;
  cycleGroups : list (string * list string);
  ringIdMap : list (string * string)
}.

(** The inner search loop: the ring of the first member already mapped. *)
Fixpoint first_assigned (m : list (string * string)) (cycle : list string)
  : option string :=
  match cycle with
  | [] => None
  | acc :: rest =>
      match OMap.get acc m with
      | Some r => Some r
      | None => first_assigned m rest
      end
  end.

(** Body of [for (const cycle of cycles)].  [cycleGroups.get(id)!] is always
    defined because a ring id is stored in [ringIdMap] only after its group
    was created ([merge_cycles_groups_defined]). *)
Definition merge_cycle (st : CycleMerge) (cycle : list string) : CycleMerge :=
  let found := first_assigned (ringIdMap st) cycle in
  let fresh := ring_name (S (ringCounter st)) in
  let counter := if truthy found then ringCounter st else S (ringCounter st) in
  let mergedRingId :=
    match found with
    | Some r => if truthy found then r else fresh
    | None => fresh
    end in
  let groups :=
    if truthy found then cycleGroups st
    else OMap.set fresh [] (cycleGroups st) in
  mkMerge counter
          (OMap.alter
             (fun group => fold_left (fun g acc => OSet.add acc g) cycle group)
             mergedRingId groups)
          (fold_left (fun m acc => OMap.set acc mergedRingId m) cycle
                     (ringIdMap st)).

Record Assembly := mkAssembly {
  as_counter : nat;
  as_rings : list FraudRing;
  as_nodes : NodeTable
}.

(** Body of [for (const [ringId, members] of cycleGroups)]. *)
Definition emit_cycle_ring (st : Assembly) (entry : string * list string)
  : Assembly :=
  let ringId := fst entry in
  let memberArr := snd entry in
  mkAssembly (as_counter st)
    (as_rings st ++
     [mkRing ringId memberArr ring_cycle (round1 (avgScore (as_nodes st) memberArr))])
    (fold_left (fun t acc => node_update (set_ringId (Some ringId)) acc t)
               memberArr (as_nodes st)).

(** [if (node && !node.ringId) node.ringId = ringId] *)
Definition set_ringId_if_unset (r : string) (n : GraphNode) : GraphNode :=
  if truthy (ringId n) then n else set_ringId (Some r) n.

(** One of the three blocks "fan-in rings", "fan-out rings", "shell chain
    rings" for the already filtered candidate array [arr]. *)
Definition emit_candidate_ring (pt : RingPattern) (arr : list string)
  (st : Assembly) : Assembly :=
  if 0 <? length arr then
    let ringId := ring_name (S (as_counter st)) in
    mkAssembly (S (as_counter st))
      (as_rings st ++
       [mkRing ringId arr pt (round1 (avgScore (as_nodes st) arr))])
      (fold_left (fun t acc => node_update (set_ringId_if_unset ringId) acc t)
                 arr (as_nodes st))
  else st.

(** [previous] is the value of the module-level [ringCounter] when the
    function is entered; the first statement resets it. *)
Definition assembleFraudRings (previous : nat) (cycles : list (list string))
  (fanIn fanOut shell : list string) (t : NodeTable) : Assembly :=
  let merged := fold_left merge_cycle cycles (mkMerge 0 [] []) in
  let st1 :=
    fold_left emit_cycle_ring (cycleGroups merged)
              (mkAssembly (ringCounter merged) [] t) in
  let assigned acc := OMap.has acc (ringIdMap merged) in
  let fanInArr := filter (fun acc => negb (assigned acc)) fanIn in
  let st2 := emit_candidate_ring ring_fan_in fanInArr st1 in
  let fanOutArr :=
    filter (fun acc => negb (assigned acc) && negb (OSet.has acc fanIn)) fanOut in
  let st3 := emit_candidate_ring ring_fan_out fanOutArr st2 in
  let shellArr :=
    filter (fun acc => negb (assigned acc) && negb (OSet.has acc fanIn)
                       && negb (OSet.has acc fanOut)) shell in
  emit_candidate_ring ring_shell_chain shellArr st3.

(* ================================================================== *)
(** ** Main analysis entry point *)
(* ================================================================== *)

(** Body of the loops that build [cycleNodes]: the shortest cycle length
    seen for each account. *)
Definition note_member (len : nat) (cn : list (string * (nat * string)))
  (acc : string) : list (string * (nat * string)) :=
  match OMap.get acc cn with
  | None => OMap.set acc (len, "") cn
  | Some info => if len <? fst info then OMap.set acc (len, "") cn else cn
  end.

Definition build_cycleNodes (cycles : list (list string))
  : list (string * (nat * string)) :=
  fold_left (fun cn cycle => fold_left (note_member (length cycle)) cycle cn)
            cycles [].

(** Stable sort by descending score
    ([.sort((a, b) => b.suspicionScore - a.suspicionScore)]). *)
Fixpoint insert_by_score (n : GraphNode) (l : list GraphNode) : list GraphNode :=
  match l with
  | [] => [n]
  | x :: l' =>
      if (suspicionScore x <=? suspicionScore n)%Z then n :: l
      else x :: insert_by_score n l'
  end.

Definition sort_by_score (l : list GraphNode) : list GraphNode :=
  fold_right insert_by_score [] l.

Definition report_account (n : GraphNode) : SuspiciousAccount :=
  mkSuspicious (id n) (round1 (inject_Z (suspicionScore n)))
               (detectedPatterns n) (ringId n).

(** What the engine reads from its environment: the value left in the
    module-level [ringCounter] by earlier runs and the two readings of
    [performance.now()]. *)
Record Env := mkEnv {
  env_ringCounter : nat;
  now_start : Q;
  now_end : Q
}.

(** Outputs of steps 2 to 5. *)
Record Detections := mkDetections {
  d_cycles : list (list string);
  d_cycleNodes : list (string * (nat * string));
  d_smurf : SmurfResult;
  d_shell : list string;
  d_velocity : list string
}.

Definition detect (g : Graph) : Detections :=
  let cs := detectCycles (adjacency g) (map id (nodes g)) in
  mkDetections cs (build_cycleNodes cs) (detectSmurfing (edges g))
               (detectShellChains (nodes g) (adjacency g))
               (detectHighVelocity (edges g)).

(** Node table after step 6. *)
Definition scored_nodes (transactions : list Transaction) : NodeTable :=
  let g := buildGraph transactions in
  let d := detect g in
  scoreAccounts (nodes g) (d_cycleNodes d)
                (fanInAccounts (d_smurf d)) (fanOutAccounts (d_smurf d))
                (d_shell d) (d_velocity d).

(** Node table after step 7. *)
Definition filtered_nodes (transactions : list Transaction) : NodeTable :=
  fst (filterFalsePositives (scored_nodes transactions)
                            (edges (buildGraph transactions))).

(** Returns the report and the value left in [ringCounter]. *)
Definition analyzeTransactions (env : Env) (transactions : list Transaction)
  : AnalysisResult * nat :=
  let g := buildGraph transactions in
  let d := detect g in
  let a :=
    assembleFraudRings (env_ringCounter env) (d_cycles d)
      (fanInAccounts (d_smurf d)) (fanOutAccounts (d_smurf d)) (d_shell d)
      (filtered_nodes transactions) in
  let suspiciousAccounts :=
    map report_account
      (sort_by_score
         (filter (fun n => isSuspicious n && (0 <? suspicionScore n)%Z)
                 (as_nodes a))) in
  let processingTime := ((now_end env - now_start env) / 1000)%Q in
  (mkResult suspiciousAccounts (as_rings a)
     (mkSummary (length (as_nodes a)) (length suspiciousAccounts)
                (length (as_rings a)) (round2 processingTime))
     (as_nodes a) (edges g),
   as_counter a).

(* ================================================================== *)
(** ** JSON export ([src/lib/exportJson.ts]) *)
(* ================================================================== *)

(** An exported account; [x_ring_id = None] when the object has no
    [ring_id] key. *)
Record ExportAccount := mkExportAccount {
  x_account_id : string;
  x_suspicion_score : Q;
  x_detected_patterns : list PatternType;
  x_ring_id : option string
}.

Record ExportPayload := mkPayload {
  p_suspicious_accounts : list ExportAccount;
  p_fraud_rings : list FraudRing;
  p_summary : AnalysisSummary
}.

(** [...(acc.ring_id ? { ring_id: acc.ring_id } : {})] *)
Definition export_account (acc : SuspiciousAccount) : ExportAccount :=
  mkExportAccount (account_id acc) (suspicion_score acc) (detected_patterns acc)
                  (if truthy (sa_ring_id acc) then sa_ring_id acc else None).

Definition export_ring (ring : FraudRing) : FraudRing :=
  mkRing (ring_id ring) (member_accounts ring) (pattern_type ring)
         (risk_score ring).

Definition buildExportPayload (result : AnalysisResult) : ExportPayload :=
  mkPayload (map export_account (suspicious_accounts result))
            (map export_ring (fraud_rings result))
            (summary result).

(* ================================================================== *)
(** * Specification-level definitions *)
(* ================================================================== *)

(** The order of [sort()] as a relation. *)
Definition string_le (a b : string) : Prop := String.leb a b = true.

(** A path of the forward adjacency: every node is followed by one of its
    neighbours. *)
Fixpoint chain (adj : list (string * list string)) (p : list string) : Prop :=
  match p with
  | x :: (y :: _) as rest => In y (neighbors_of adj x) /\ chain adj rest
  | _ => True
  end.

(** What a reported cycle is: 3 to 5 pairwise distinct nodes along a path
    of the adjacency whose last node has the first one as a neighbour. *)
Definition cycle_ok (adj : list (string * list string)) (c : list string) : Prop :=
  3 <= length c <= 5 /\ NoDup c /\ chain adj c
  /\ In (hd "" c) (neighbors_of adj (last c "")).

(** The deduplication state is consistent: the keys seen are the keys of
    the cycles kept, and no key occurs twice. *)
Definition seen_inv (st : CycleState) : Prop :=
  seenCycles st = map cycle_key (cycles st) /\ NoDup (seenCycles st).

(** [c] lists the nodes of the directed cycle [l] starting from another
    node. *)
Definition rotation (c l : list string) : Prop :=
  exists k, c = skipn k l ++ firstn k l.

(** The cycle list has two separate entries that traverse the same triangle
    in opposite directions. *)
Definition reports_both_directions (cs : list (list string)) : Prop :=
  exists a b c i j c1 c2,
    i <> j /\ nth_error cs i = Some c1 /\ nth_error cs j = Some c2
    /\ rotation c1 [a; b; c] /\ rotation c2 [a; c; b].

Definition tx (tid s r : string) (amt : Q) (ts : Z) : Transaction :=
  mkTransaction tid s r amt ts.

(** A triangle traversed in both directions: A->B->C->A and A->C->B->A. *)
Definition two_way_triangle : list Transaction :=
  [ tx "T1" "A" "B" 100 0; tx "T2" "B" "C" 100 1000; tx "T3" "C" "A" 100 2000;
    tx "T4" "A" "C" 100 3000; tx "T5" "C" "B" 100 4000; tx "T6" "B" "A" 100 5000 ].

(** The cycles the engine finds in a batch of transactions (step 2). *)
Definition cycles_of (transactions : list Transaction) : list (list string) :=
  d_cycles (detect (buildGraph transactions)).

(** The pattern list and the raw score that the scorer builds from the five
    detector verdicts ([c] is the shortest cycle length, if any). *)
Definition tags (c : option nat) (fi fo sh hv : bool) : list PatternType :=
  (match c with Some k => [cycle_length k] | None => [] end)
  ++ (if fi then [fan_in] else [])
  ++ (if fo then [fan_out] else [])
  ++ (if sh then [shell_chain] else [])
  ++ (if hv then [high_velocity] else []).

Definition points (c : option nat) (fi fo sh hv : bool) : Z :=
  ((match c with Some _ => SCORES.cycle | None => 0 end)
   + (if fi then SCORES.fanIn else 0)
   + (if fo then SCORES.fanOut else 0)
   + (if sh then SCORES.shell else 0)
   + (if hv then SCORES.velocity else 0))%Z.

(** The three analysis fields of a node agree with some combination of
    verdicts. *)
Definition scored_shape (n : GraphNode) : Prop :=
  exists c fi fo sh hv,
    detectedPatterns n = tags c fi fo sh hv
    /\ suspicionScore n = Z.min 100 (points c fi fo sh hv)
    /\ isSuspicious n = (0 <? points c fi fo sh hv)%Z.

(** Invariants 2 and 3 of the data model. *)
Definition node_invariant (n : GraphNode) : Prop :=
  (isSuspicious n = true <-> (0 < suspicionScore n)%Z)
  /\ ((0 < suspicionScore n)%Z <-> detectedPatterns n <> [])
  /\ (0 <= suspicionScore n <= 100)%Z.

(** The two nodes differ at most in [ringId]. *)
Definition same_but_ring (n n' : GraphNode) : Prop :=
  exists r, n' = set_ringId r n.

(** The fields the payroll filter must leave alone. *)
Definition frame_eq (n n' : GraphNode) : Prop :=
  id n' = id n
  /\ totalTransactions n' = totalTransactions n
  /\ totalSent n' = totalSent n
  /\ totalReceived n' = totalReceived n
  /\ uniqueSenders n' = uniqueSenders n
  /\ uniqueReceivers n' = uniqueReceivers n
  /\ ringId n' = ringId n.

(** The outbound amounts of account [k], in transaction order. *)
Definition amounts_of (k : string) (es : list GraphEdge) : list Q :=
  map e_amount (filter (fun e => String.eqb (source e) k) es).

(** The payroll predicate of the filter for sender [k]. *)
Definition payroll_sender (es : list GraphEdge) (k : string) : Prop :=
  is_payroll (amounts_of k es) = true.

(** The shape of the [bySender] / [byReceiver] maps: elements grouped by
    [key], each group holding [val] of its elements. *)
Definition grouped {Elt V : Type} (key : Elt -> string) (val : Elt -> V)
  (es : list Elt) : list (string * list V) :=
  fold_left (fun m e => OMap.push (key e) (val e) m) es [].

(** The values of the elements whose key is [k], in their original order. *)
Definition members {Elt V : Type} (key : Elt -> string) (val : Elt -> V)
  (k : string) (es : list Elt) : list V :=
  map val (filter (fun e => String.eqb (key e) k) es).



(** The regular expression [^RING_\d{3}$]. *)
Definition is_digit (c : ascii) : bool :=
  let n := nat_of_ascii c in (48 <=? n) && (n <=? 57).

Definition matches_RING_ddd (s : string) : bool :=
  match s with
  | String "R" (String "I" (String "N" (String "G" (String "_"
      (String d1 (String d2 (String d3 EmptyString))))))) =>
      is_digit d1 && is_digit d2 && is_digit d3
  | _ => false
  end.

(** Reading the counter back from a ring id. *)
Definition ring_number (s : string) : option nat :=
  match s with
  | String "R" (String "I" (String "N" (String "G" (String "_" rest)))) =>
      option_map Nat.of_uint (NilEmpty.uint_of_string rest)
  | _ => None
  end.

(** The ids are those of the counter values 1, 2, ..., in list order. *)
Definition ring_ids_contiguous (rings : list FraudRing) : Prop :=
  map ring_id rings = map ring_name (seq 1 (length rings)).

Definition optional_ring (present : bool) (pt : RingPattern) : list RingPattern :=
  if present then [pt] else [].

(** Cycle rings first, then at most one fan-in ring, one fan-out ring and
    one shell ring, in this order. *)
Definition ring_order (rings : list FraudRing) : Prop :=
  exists k fi fo sh,
    map pattern_type rings
    = repeat ring_cycle k ++ optional_ring fi ring_fan_in
      ++ optional_ring fo ring_fan_out ++ optional_ring sh ring_shell_chain.

(** Account names made of a letter and a number. *)
Definition acct (letter : ascii) (i : nat) : string :=
  String letter (String_of_nat i).

(** [n] disjoint triangles a_i -> b_i -> c_i -> a_i. *)
Definition triangle (i : nat) : list Transaction :=
  [ tx "T" (acct "a" i) (acct "b" i) 100 0;
    tx "T" (acct "b" i) (acct "c" i) 100 1000;
    tx "T" (acct "c" i) (acct "a" i) 100 2000 ].

Definition triangles (n : nat) : list Transaction :=
  flat_map triangle (seq 1 n).

(** The cycle, and the adjacency entries, of the i-th triangle. *)
Definition triangle_cycle (i : nat) : list string :=
  [acct "a" i; acct "b" i; acct "c" i].

Definition triangle_adj (i : nat) : list (string * list string) :=
  [ (acct "a" i, [acct "b" i]); (acct "b" i, [acct "c" i]);
    (acct "c" i, [acct "a" i]) ].

Fixpoint all_digits (s : string) : bool :=
  match s with
  | EmptyString => true
  | String c s' => is_digit c && all_digits s'
  end.

Definition env0 : Env := mkEnv 0 0 0.

(** Loop invariants of the assembler: the groups created so far, and the
    rings emitted so far, carry the ids of the counter values 1 to the
    current counter. *)
Definition merge_inv (st : CycleMerge) : Prop :=
  map fst (cycleGroups st) = map ring_name (seq 1 (ringCounter st)).

Definition assembly_inv (st : Assembly) : Prop :=
  map ring_id (as_rings st) = map ring_name (seq 1 (as_counter st)).





Definition time_le (x y : GraphEdge) : Prop := (timestamp x <= timestamp y)%Z.


(** Sender P pays [n] distinct receivers exactly 1000.00 each, one payment
    every 30 minutes. *)
Definition payroll_batch (n : nat) : list Transaction :=
  map (fun i => tx (String.append "T" (String_of_nat i)) "P"
                   (String.append "R" (String_of_nat i)) 1000
                   (Z.of_nat i * 1800000)%Z)
      (seq 1 n).

(** Two triangles C->A->B->C and F->D->E->F found first, then the triangle
    B->E->X->B that touches both. *)
Definition bridged_triangles : list Transaction :=
  [ tx "T1" "C" "A" 100 0; tx "T2" "F" "D" 100 1000; tx "T3" "A" "B" 100 2000;
    tx "T4" "B" "C" 100 3000; tx "T5" "D" "E" 100 4000; tx "T6" "E" "F" 100 5000;
    tx "T7" "B" "E" 100 6000; tx "T8" "E" "X" 100 7000; tx "T9" "X" "B" 100 8000 ].

(** The rings of the report that list account [a] as a member. *)
Definition rings_with (a : string) (r : AnalysisResult) : list string :=
  map ring_id (filter (fun ring => OSet.has a (member_accounts ring)) (fraud_rings r)).

(** The entry of account [a] in [suspicious_accounts], if any. *)
Definition suspicious_entry (a : string) (r : AnalysisResult)
  : option SuspiciousAccount :=
  find (fun s => String.eqb (account_id s) a) (suspicious_accounts r).

(** Number of nodes of the table that the traversal has not visited. *)
Definition unvisited (t : NodeTable) (visited : list string) : nat :=
  length (filter (fun n => negb (OSet.has (id n) visited)) t).

(** Termination measure of the shell traversal. *)
Definition shell_measure (t : NodeTable) (st : ShellState) : nat :=
  length (sh_queue st) + unvisited t (sh_visited st).

(** Every ring id recorded for an account names an existing group. *)
Definition groups_defined (st : CycleMerge) : Prop :=
  forall acc r, OMap.get acc (ringIdMap st) = Some r ->
                In r (map fst (cycleGroups st)).

(* ------------------------------------------------------------------ *)
(** ** What the graph builder computes *)

(** The accounts named by a batch, sender before receiver, in transaction
    order. *)
Definition endpoints (txs : list Transaction) : list string :=
  flat_map (fun t => [sender_id t; receiver_id t]) txs.

Definition sent_by (a : string) (txs : list Transaction) : list Transaction :=
  filter (fun t => String.eqb (sender_id t) a) txs.

Definition received_by (a : string) (txs : list Transaction) : list Transaction :=
  filter (fun t => String.eqb (receiver_id t) a) txs.

(** The record the builder holds for account [a] after the batch [txs]. *)
Definition node_of (a : string) (txs : list Transaction) : GraphNode :=
  mkNode a
         (length (sent_by a txs) + length (received_by a txs))
         (Qsum (map amount (sent_by a txs)))
         (Qsum (map amount (received_by a txs)))
         (OSet.of_list (map sender_id (received_by a txs)))
         (OSet.of_list (map receiver_id (sent_by a txs)))
         false 0%Z [] None.

(** The graph before the final sort, after the loop over [txs]. *)
Definition graph_loop (txs : list Transaction) : Graph :=
  fold_left add_transaction txs (mkGraph [] [] [] [] []).


(** [s] does not contain the separator used by the deduplication key. *)
Fixpoint bar_free (s : string) : bool :=
  match s with
  | EmptyString => true
  | String c s' => negb (Ascii.eqb c "|") && bar_free s'
  end.

(** [k] is the length of a shortest cycle of [cs] through account [a]. *)
Definition shortest_cycle_length (cs : list (list string)) (a : string)
  (k : nat) : Prop :=
  (exists c, In c cs /\ In a c /\ length c = k)
  /\ (forall c, In c cs -> In a c -> k <= length c).

(** What the map [cycleNodes] must say about account [a] for the cycles
    [cs]. *)
Definition cycleNodes_entry_ok (cs : list (list string)) (a : string)
  (entry : option (nat * string)) : Prop :=
  match entry with
  | None => forall c, In c cs -> ~ In a c
  | Some info => snd info = "" /\ shortest_cycle_length cs a (fst info)
  end.




(** The node is one the payroll filter rewrites: its id is a payroll
    sender, it carries [fan_out] and no cycle tag. *)
Definition payroll_exempt (es : list GraphEdge) (n : GraphNode) : bool :=
  is_payroll (amounts_of (id n) es)
  && includes fan_out (detectedPatterns n)
  && negb (existsb startsWith_cycle (detectedPatterns n)).

Definition apply_exemption (es : list GraphEdge) (n : GraphNode) : GraphNode :=
  if payroll_exempt es n then drop_fan_out n else n.


(* ------------------------------------------------------------------ *)
(** ** What the ring assembler computes *)

(** Account [a] lies on one of the cycles [cs]. *)
Definition on_cycle (cs : list (list string)) (a : string) : Prop :=
  exists c, In c cs /\ In a c.

(** The state of the merging loop after the cycles [cs]. *)
Definition merged (cs : list (list string)) : CycleMerge :=
  fold_left merge_cycle cs (mkMerge 0 [] []).

(** Which accounts a ring of each type may hold, given the detector
    outputs. *)
Definition ring_member_ok (cs : list (list string)) (fi fo sh : list string)
  (r : FraudRing) (a : string) : Prop :=
  match pattern_type r with
  | ring_cycle => on_cycle cs a
  | ring_fan_in => In a fi /\ ~ on_cycle cs a
  | ring_fan_out => In a fo /\ ~ In a fi /\ ~ on_cycle cs a
  | ring_shell_chain => In a sh /\ ~ In a fi /\ ~ In a fo /\ ~ on_cycle cs a
  end.

(** The three candidate arrays of the assembler. *)
Definition fanInArr (cs : list (list string)) (fi : list string) : list string :=
  filter (fun acc => negb (OMap.has acc (ringIdMap (merged cs)))) fi.

Definition fanOutArr (cs : list (list string)) (fi fo : list string)
  : list string :=
  filter (fun acc => negb (OMap.has acc (ringIdMap (merged cs)))
                     && negb (OSet.has acc fi)) fo.

Definition shellArr (cs : list (list string)) (fi fo sh : list string)
  : list string :=
  filter (fun acc => negb (OMap.has acc (ringIdMap (merged cs)))
                     && negb (OSet.has acc fi) && negb (OSet.has acc fo)) sh.

(** How a node refers to the rings emitted so far, while the assembler
    runs: either its [ringId] is still unset (absent, or the placeholder of
    an account on a cycle) and it is in no ring yet, or it names one of the
    rings that list the account. *)
Definition ring_link_pending (cs : list (list string)) (rings : list FraudRing)
  (n : GraphNode) : Prop :=
  (truthy (ringId n) = false
   /\ (ringId n = None \/ on_cycle cs (id n))
   /\ forall r, In r rings -> ~ In (id n) (member_accounts r))
  \/ (exists r, In r rings /\ ringId n = Some (ring_id r)
                /\ truthy (ringId n) = true
                /\ In (id n) (member_accounts r)).

(** The same at the end: the ring id is absent and the account is in no
    ring, or the ring id names a ring that lists the account. *)
Definition ring_link (rings : list FraudRing) (a : string)
  (rid : option string) : Prop :=
  (rid = None /\ forall r, In r rings -> ~ In a (member_accounts r))
  \/ (exists r, In r rings /\ rid = Some (ring_id r)
                /\ In a (member_accounts r)).

(** While the assembler runs, every ring emitted so far carries the rounded
    mean of the scores its members had in the table the assembler was
    given. *)
Definition risk_inv (t0 : NodeTable) (st : Assembly) : Prop :=
  Forall2 same_but_ring t0 (as_nodes st)
  /\ Forall (fun r => risk_score r = round1 (avgScore t0 (member_accounts r)))
            (as_rings st).

(** Account [x] has a node with 2 or 3 transactions. *)
Definition shell_intermediate (t : NodeTable) (x : string) : Prop :=
  exists n, node_get x t = Some n /\ 2 <= totalTransactions n <= 3.

(** A layered chain: a simple path of the adjacency with 4 to 8 accounts,
    all of them in the node table, whose inner accounts (all but the first
    and the last) have 2 or 3 transactions. *)
Definition shell_path (t : NodeTable) (adj : list (string * list string))
  (p : list string) : Prop :=
  4 <= length p <= 8 /\ NoDup p /\ chain adj p
  /\ Forall (fun x => node_has x t = true) p
  /\ Forall (shell_intermediate t) (removelast (tl p)).

Definition on_shell_path (t : NodeTable) (adj : list (string * list string))
  (a : string) : Prop :=
  exists p, shell_path t adj p /\ In a p.

(** What the traversal knows about a queue item, given the visited set. *)
Definition item_ok (t : NodeTable) (adj : list (string * list string))
  (visited : list string) (item : QueueItem) : Prop :=
  last (q_chain item) "" = q_id item
  /\ length (q_chain item) = S (q_depth item)
  /\ q_depth item <= 6
  /\ NoDup (q_chain item)
  /\ chain adj (q_chain item)
  /\ Forall (fun x => In x visited) (q_chain item)
  /\ Forall (fun x => node_has x t = true) (q_chain item)
  /\ Forall (shell_intermediate t) (tl (q_chain item)).

Definition shell_inv (t : NodeTable) (adj : list (string * list string))
  (st : ShellState) : Prop :=
  Forall (item_ok t adj (sh_visited st)) (sh_queue st)
  /\ Forall (on_shell_path t adj) (shellAccounts st).

(* ================================================================== *)
(** * Properties *)
(* ================================================================== *)

(** ** Loops and containers *)

Section FoldInvariant.
Context {A B : Type} (P : A -> Prop) (f : A -> B -> A).

Lemma fold_left_invariant (l : list B) (a : A) :
  P a -> (forall a b, P a -> In b l -> P (f a b)) -> P (fold_left f l a).
Proof.
  revert a. induction l as [|b l IH]; simpl; intros a Ha Hstep; [exact Ha|].
  apply IH.
  - apply Hstep; auto.
  - intros a' b' Ha' Hb'. apply Hstep; auto.
Qed.

End FoldInvariant.

Lemma OSet_has_In (x : string) (s : list string) :
  OSet.has x s = true <-> In x s.
Proof.
  unfold OSet.has. rewrite existsb_exists. split.
  - intros [y [Hy Heq]]. apply String.eqb_eq in Heq. now subst.
  - intros H. exists x. split; auto. apply String.eqb_refl.
Qed.

Lemma OSet_has_false (x : string) (s : list string) :
  OSet.has x s = false <-> ~ In x s.
Proof.
  rewrite <- OSet_has_In. destruct (OSet.has x s); split; intros; congruence.
Qed.

Lemma OSet_add_In (x y : string) (s : list string) :
  In y (OSet.add x s) <-> y = x \/ In y s.
Proof.
  unfold OSet.add. destruct (OSet.has x s) eqn:E.
  - apply OSet_has_In in E. split; [auto|]. intros [->|H]; auto.
  - rewrite in_app_iff. simpl. intuition.
Qed.

Lemma OSet_add_NoDup (x : string) (s : list string) :
  NoDup s -> NoDup (OSet.add x s).
Proof.
  intros H. unfold OSet.add. destruct (OSet.has x s) eqn:E; auto.
  apply OSet_has_false in E.
  apply NoDup_rev in H. rewrite <- (rev_involutive (s ++ [x])).
  apply NoDup_rev. rewrite rev_app_distr. simpl. constructor; auto.
  now rewrite <- in_rev.
Qed.

(** ** The order used by [sort()] *)

Lemma string_compare_trans (a b c : string) :
  String.compare a b <> Gt -> String.compare b c <> Gt ->
  String.compare a c <> Gt.
Proof.
  revert b c. induction a as [|x a IH]; intros [|y b] [|z c]; simpl;
    try congruence.
  unfold Ascii.compare.
  destruct (N.compare_spec (N_of_ascii x) (N_of_ascii y)) as [Hxy|Hxy|Hxy];
    destruct (N.compare_spec (N_of_ascii y) (N_of_ascii z)) as [Hyz|Hyz|Hyz];
    destruct (N.compare_spec (N_of_ascii x) (N_of_ascii z)) as [Hxz|Hxz|Hxz];
    try congruence; try lia; try apply IH.
Qed.

Lemma string_leb_trans (a b c : string) :
  String.leb a b = true -> String.leb b c = true -> String.leb a c = true.
Proof.
  unfold String.leb. intros Hab Hbc.
  assert (H := string_compare_trans a b c).
  destruct (String.compare a b), (String.compare b c), (String.compare a c);
    try reflexivity; try discriminate; exfalso; apply H; congruence.
Qed.

Lemma insert_string_perm (x : string) (l : list string) :
  Permutation (x :: l) (insert_string x l).
Proof.
  induction l as [|y l IH]; simpl; auto.
  destruct (String.leb x y); auto.
  rewrite perm_swap. now apply perm_skip.
Qed.

Lemma sort_strings_perm (l : list string) : Permutation l (sort_strings l).
Proof.
  induction l as [|x l IH]; simpl; auto.
  rewrite <- insert_string_perm. now apply perm_skip.
Qed.

Lemma insert_string_sorted (x : string) (l : list string) :
  StronglySorted string_le l -> StronglySorted string_le (insert_string x l).
Proof.
  induction 1 as [|y l Hl IH Hy]; simpl.
  - repeat constructor.
  - destruct (String.leb x y) eqn:E.
    + constructor; [constructor; auto|].
      constructor; [exact E|].
      rewrite Forall_forall in *. intros z Hz.
      eapply string_leb_trans; [exact E|]. now apply Hy.
    + constructor; auto.
      rewrite Forall_forall in *. intros z Hz.
      apply (Permutation_in _ (Permutation_sym (insert_string_perm x l))) in Hz.
      destruct Hz as [<-|Hz]; [|now apply Hy].
      destruct (String.leb_total x y) as [H|H]; [congruence|exact H].
Qed.

Lemma sort_strings_sorted (l : list string) :
  StronglySorted string_le (sort_strings l).
Proof.
  induction l; simpl; [constructor|now apply insert_string_sorted].
Qed.

Lemma sorted_perm_unique (l1 l2 : list string) :
  StronglySorted string_le l1 -> StronglySorted string_le l2 ->
  Permutation l1 l2 -> l1 = l2.
Proof.
  intros H1. revert l2. induction H1 as [|x l1 Hs1 IH Hx]; intros l2 H2 Hp.
  - apply Permutation_nil in Hp. now subst.
  - destruct H2 as [|y l2 Hs2 Hy].
    + apply Permutation_sym, Permutation_nil in Hp. discriminate.
    + assert (x = y) as ->.
      { rewrite Forall_forall in Hx, Hy.
        assert (Hin1 : In x (y :: l2))
          by (eapply Permutation_in; [exact Hp|now left]).
        assert (Hin2 : In y (x :: l1))
          by (eapply Permutation_in; [exact (Permutation_sym Hp)|now left]).
        destruct Hin1 as [->|Hin1]; auto.
        destruct Hin2 as [->|Hin2]; auto.
        apply String.leb_antisym; [now apply Hx|now apply Hy]. }
      f_equal. apply IH; auto. eapply Permutation_cons_inv; eauto.
Qed.

(** Two cycles over the same members, in whatever order, have the same
    deduplication key. *)
Lemma sort_strings_canonical (l1 l2 : list string) :
  Permutation l1 l2 -> sort_strings l1 = sort_strings l2.
Proof.
  intros H. apply sorted_perm_unique; try apply sort_strings_sorted.
  rewrite <- (sort_strings_perm l1), <- (sort_strings_perm l2). exact H.
Qed.

(** ** Cycle detection *)

Lemma fold_left_ext {A B : Type} (f g : A -> B -> A) (l : list B) (a : A) :
  (forall a b, f a b = g a b) -> fold_left f l a = fold_left g l a.
Proof.
  intros H. revert a. induction l as [|b l IH]; simpl; intros a; auto.
  now rewrite H, IH.
Qed.

(** The depth guard makes the recursion stop by itself: once
    [fuel + depth >= 6], more fuel changes nothing. *)
Lemma dfs_fuel_enough (adj : list (string * list string)) (start : string) :
  forall fuel current depth path visited st,
    6 <= fuel + depth ->
    dfs (S fuel) adj start current depth path visited st
    = dfs fuel adj start current depth path visited st.
Proof.
  induction fuel as [|fuel IH]; intros current depth path visited st H.
  - simpl. destruct (5 <? depth) eqn:E; auto.
    apply Nat.ltb_ge in E. lia.
  - cbn [dfs]. destruct (5 <? depth); auto.
    apply fold_left_ext. intros a b.
    destruct (String.eqb b start && (3 <=? depth)); auto.
    destruct (negb (OSet.has b visited) && (depth <? 5)); auto.
    apply IH. lia.
Qed.

Lemma dfs_from_total (adj : list (string * list string)) (st : CycleState)
  (start : string) (extra : nat) :
  dfs (extra + 5) adj start start 1 [start] [start] st = dfs_from adj st start.
Proof.
  unfold dfs_from. induction extra as [|k IH]; auto.
  cbn [Nat.add]. rewrite dfs_fuel_enough; [exact IH|lia].
Qed.

Lemma chain_snoc (adj : list (string * list string)) (p : list string)
  (current y : string) :
  p <> [] -> chain adj p -> last p "" = current ->
  In y (neighbors_of adj current) -> chain adj (p ++ [y]).
Proof.
  induction p as [|x p IH]; [congruence|].
  intros _ Hc Hl Hy. destruct p as [|x' p].
  - simpl in *. subst. auto.
  - destruct Hc as [Hxx' Hc]. change ((x :: x' :: p) ++ [y]) with (x :: (x' :: p) ++ [y]).
    cbn [chain app]. split; [exact Hxx'|].
    apply IH; auto. discriminate.
Qed.

Lemma emit_cycle_ok (adj : list (string * list string)) (path : list string)
  (st : CycleState) :
  cycle_ok adj path -> Forall (cycle_ok adj) (cycles st) ->
  Forall (cycle_ok adj) (cycles (emit_cycle path st)).
Proof.
  intros Hp Hst. unfold emit_cycle.
  destruct (OSet.has (cycle_key path) (seenCycles st)); simpl; auto.
  apply Forall_app. split; auto.
Qed.

Lemma dfs_cycles_ok (adj : list (string * list string)) (start : string) :
  forall fuel current depth path visited st,
    length path = depth -> path <> [] -> NoDup path ->
    (forall x, In x path -> In x visited) ->
    chain adj path -> hd "" path = start -> last path "" = current ->
    Forall (cycle_ok adj) (cycles st) ->
    Forall (cycle_ok adj)
           (cycles (dfs fuel adj start current depth path visited st)).
Proof.
  induction fuel as [|fuel IH];
    intros current depth path visited st Hlen Hne Hnd Hvis Hch Hhd Hlast Hst;
    cbn [dfs]; auto.
  destruct (5 <? depth) eqn:Hcap; auto.
  apply Nat.ltb_ge in Hcap.
  apply fold_left_invariant; auto.
  intros st' neighbor Hst' Hin.
  destruct (String.eqb neighbor start && (3 <=? depth)) eqn:Hfound.
  - apply andb_true_iff in Hfound. destruct Hfound as [Heq Hd].
    apply String.eqb_eq in Heq. apply Nat.leb_le in Hd. subst neighbor.
    apply emit_cycle_ok; auto.
    repeat split; auto; try lia.
    rewrite Hhd, Hlast. exact Hin.
  - destruct (negb (OSet.has neighbor visited) && (depth <? 5)) eqn:Hgo; auto.
    apply andb_true_iff in Hgo. destruct Hgo as [Hnv Hd].
    apply negb_true_iff, OSet_has_false in Hnv.
    apply IH; auto.
    + rewrite length_app. simpl. lia.
    + destruct path; discriminate.
    + apply NoDup_rev in Hnd. rewrite <- (rev_involutive (path ++ [neighbor])).
      apply NoDup_rev. rewrite rev_app_distr. simpl. constructor; auto.
      rewrite <- in_rev. intros Hp. apply Hnv, Hvis, Hp.
    + intros x Hx. apply OSet_add_In. apply in_app_iff in Hx.
      destruct Hx as [Hx|[<-|[]]]; auto.
    + eapply chain_snoc; eauto.
    + destruct path; [congruence|exact Hhd].
    + apply last_last.
Qed.

Lemma emit_cycle_seen_inv (path : list string) (st : CycleState) :
  seen_inv st -> seen_inv (emit_cycle path st).
Proof.
  intros [Heq Hnd]. unfold emit_cycle.
  destruct (OSet.has (cycle_key path) (seenCycles st)) eqn:E; [now split|].
  split; simpl.
  - unfold OSet.add. rewrite E, map_app, Heq. reflexivity.
  - now apply OSet_add_NoDup.
Qed.

Lemma dfs_seen_inv (adj : list (string * list string)) (start : string) :
  forall fuel current depth path visited st,
    seen_inv st -> seen_inv (dfs fuel adj start current depth path visited st).
Proof.
  induction fuel as [|fuel IH]; intros current depth path visited st Hst;
    cbn [dfs]; auto.
  destruct (5 <? depth); auto.
  apply fold_left_invariant; auto.
  intros st' neighbor Hst' _.
  destruct (String.eqb neighbor start && (3 <=? depth)).
  - now apply emit_cycle_seen_inv.
  - destruct (negb (OSet.has neighbor visited) && (depth <? 5)); auto.
Qed.

Lemma detectCycles_keys_NoDup (adj : list (string * list string))
  (nodeIds : list string) :
  NoDup (map cycle_key (detectCycles adj nodeIds)).
Proof.
  unfold detectCycles.
  assert (H : seen_inv (fold_left (dfs_from adj) nodeIds (mkCycleState [] []))).
  { apply fold_left_invariant.
    - split; simpl; [reflexivity|constructor].
    - intros st s Hst _. now apply dfs_seen_inv. }
  destruct H as [Heq Hnd]. now rewrite <- Heq.
Qed.

Lemma detectCycles_members_NoDup (adj : list (string * list string))
  (nodeIds : list string) :
  NoDup (map sort_strings (detectCycles adj nodeIds)).
Proof.
  apply (NoDup_map_inv (String.concat "|")).
  rewrite map_map. apply detectCycles_keys_NoDup.
Qed.

Lemma detectCycles_all_ok (adj : list (string * list string))
  (nodeIds : list string) :
  Forall (cycle_ok adj) (detectCycles adj nodeIds).
Proof.
  unfold detectCycles. apply fold_left_invariant; [constructor|].
  intros st s Hst _. unfold dfs_from.
  apply dfs_cycles_ok; simpl; auto.
  - discriminate.
  - repeat constructor. simpl. tauto.
Qed.

Lemma rotation_perm (c l : list string) : rotation c l -> Permutation c l.
Proof.
  intros [k ->]. rewrite Permutation_app_comm. now rewrite firstn_skipn.
Qed.

(** C7 (confirmed): every cycle the detector reports has between 3 and 5
    pairwise distinct members along a path of the adjacency that closes on
    its first node; so no cycle of length 2, none of length 6 or more, and no
    self-loop (length 1) is ever reported. *)
Theorem detectCycles_length_3_to_5 (adj : list (string * list string))
  (nodeIds : list string) :
  Forall (cycle_ok adj) (detectCycles adj nodeIds)
  /\ Forall (fun c => length c <> 1 /\ length c <> 2 /\ ~ 6 <= length c /\ NoDup c)
            (detectCycles adj nodeIds).
Proof.
  split; [apply detectCycles_all_ok|].
  eapply Forall_impl; [|apply detectCycles_all_ok].
  intros c [Hlen [Hnd _]]. repeat split; auto; lia.
Qed.

(** C3 (refuted as stated): no input makes the detector report the two
    directions of a triangle as separate entries. *)
Lemma detectCycles_never_both_directions :
  ~ exists adj nodeIds, reports_both_directions (detectCycles adj nodeIds).
Proof.
  intros [adj [nodeIds [a [b [c [i [j [c1 [c2 [Hij [Hi [Hj [H1 H2]]]]]]]]]]]]].
  apply Hij.
  assert (Hnd := detectCycles_members_NoDup adj nodeIds).
  rewrite NoDup_nth_error in Hnd. apply Hnd.
  - rewrite length_map. apply nth_error_Some. congruence.
  - rewrite !nth_error_map, Hi, Hj. simpl. f_equal.
    apply sort_strings_canonical.
    rewrite (rotation_perm _ _ H1), (rotation_perm _ _ H2).
    apply perm_skip, perm_swap.
Qed.

(** C3 (amended): cycles are deduplicated by their sorted member list, so
    no two reported cycles have the same members, whatever the direction or
    the starting node; for the triangle traversed in both directions only
    the first cycle found, A->B->C->A, is reported. *)
Theorem detectCycles_dedup_by_members :
  (forall adj nodeIds, NoDup (map sort_strings (detectCycles adj nodeIds)))
  /\ cycles_of two_way_triangle = [["A"; "B"; "C"]].
Proof.
  split; [apply detectCycles_members_NoDup|reflexivity].
Qed.

(** ** Grouping by key ([bySender], [byReceiver]) *)

Section Grouping.
Context {Elt V : Type} (key : Elt -> string) (val : Elt -> V).

Local Abbreviation grouped := (grouped key val).
Local Abbreviation members := (members key val).

Lemma get_app_None (k : string) (m m' : list (string * list V)) :
  OMap.get k m = None -> OMap.get k (m ++ m') = OMap.get k m'.
Proof.
  induction m as [|[k' v'] m IH]; simpl; auto.
  destruct (String.eqb k k'); [discriminate|auto].
Qed.

Lemma get_app_Some (k : string) (m m' : list (string * list V)) (l : list V) :
  OMap.get k m = Some l -> OMap.get k (m ++ m') = Some l.
Proof.
  induction m as [|[k' v'] m IH]; simpl; [discriminate|].
  destruct (String.eqb k k'); auto.
Qed.

Lemma get_alter (f : list V -> list V) (k k0 : string)
  (m : list (string * list V)) :
  OMap.get k (OMap.alter f k0 m)
  = if String.eqb k k0 then option_map f (OMap.get k m) else OMap.get k m.
Proof.
  induction m as [|[k' v'] m IH]; simpl.
  - now destruct (String.eqb k k0).
  - destruct (String.eqb k0 k') eqn:E0; simpl.
    + apply String.eqb_eq in E0. subst k'.
      destruct (String.eqb k k0) eqn:E; auto.
    + destruct (String.eqb k k') eqn:E1.
      * apply String.eqb_eq in E1. subst k'.
        rewrite String.eqb_sym, E0. reflexivity.
      * exact IH.
Qed.

Lemma keys_alter (f : list V -> list V) (k0 : string)
  (m : list (string * list V)) :
  map fst (OMap.alter f k0 m) = map fst m.
Proof.
  induction m as [|[k' v'] m IH]; simpl; auto.
  destruct (String.eqb k0 k'); simpl; congruence.
Qed.

Lemma get_None_keys (k : string) (m : list (string * list V)) :
  OMap.get k m = None <-> ~ In k (map fst m).
Proof.
  induction m as [|[k' v'] m IH]; simpl; [tauto|].
  destruct (String.eqb k k') eqn:E.
  - apply String.eqb_eq in E. subst. split; [discriminate|tauto].
  - apply String.eqb_neq in E. rewrite IH. split; [|tauto].
    intros H [H'|H']; [congruence|tauto].
Qed.

Lemma get_push (k k0 : string) (v : V) (m : list (string * list V)) :
  OMap.get k (OMap.push k0 v m)
  = if String.eqb k k0
    then Some (match OMap.get k m with Some l => l ++ [v] | None => [v] end)
    else OMap.get k m.
Proof.
  unfold OMap.push, OMap.has.
  destruct (OMap.get k0 m) as [l0|] eqn:E0.
  - rewrite get_alter. destruct (String.eqb k k0) eqn:E; auto.
    apply String.eqb_eq in E. subst. now rewrite E0.
  - destruct (String.eqb k k0) eqn:E.
    + apply String.eqb_eq in E. subst. rewrite get_app_None, E0; auto.
      simpl. now rewrite String.eqb_refl.
    + destruct (OMap.get k m) as [l|] eqn:Ek.
      * erewrite get_app_Some; eauto.
      * rewrite get_app_None; auto. simpl. now rewrite E.
Qed.

Lemma keys_push_NoDup (k0 : string) (v : V) (m : list (string * list V)) :
  NoDup (map fst m) -> NoDup (map fst (OMap.push k0 v m)).
Proof.
  intros H. unfold OMap.push, OMap.has.
  destruct (OMap.get k0 m) eqn:E0.
  - now rewrite keys_alter.
  - rewrite map_app. simpl. apply get_None_keys in E0.
    apply NoDup_rev in H. rewrite <- (rev_involutive (map fst m ++ [k0])).
    apply NoDup_rev. rewrite rev_app_distr. simpl. constructor; auto.
    now rewrite <- in_rev.
Qed.

Lemma grouped_snoc (es : list Elt) (e : Elt) :
  grouped (es ++ [e]) = OMap.push (key e) (val e) (grouped es).
Proof. unfold grouped. now rewrite fold_left_app. Qed.

Lemma members_snoc (k : string) (es : list Elt) (e : Elt) :
  members k (es ++ [e])
  = members k es ++ (if String.eqb (key e) k then [val e] else []).
Proof.
  unfold members. rewrite filter_app, map_app. simpl.
  now destruct (String.eqb (key e) k).
Qed.

(** The group stored under [k] holds the values of the elements with key
    [k], in their original order; keys without elements are absent. *)
Lemma grouped_get (es : list Elt) (k : string) :
  OMap.get k (grouped es)
  = match members k es with [] => None | l => Some l end.
Proof.
  induction es as [|e es IH] using rev_ind; [reflexivity|].
  rewrite grouped_snoc, get_push, members_snoc, IH.
  rewrite (String.eqb_sym (key e) k).
  destruct (String.eqb k (key e)).
  - destruct (members k es); reflexivity.
  - rewrite app_nil_r. reflexivity.
Qed.

Lemma grouped_keys_NoDup (es : list Elt) : NoDup (map fst (grouped es)).
Proof.
  induction es as [|e es IH] using rev_ind; [constructor|].
  rewrite grouped_snoc. now apply keys_push_NoDup.
Qed.

Lemma In_get (k : string) (l : list V) (m : list (string * list V)) :
  NoDup (map fst m) -> In (k, l) m -> OMap.get k m = Some l.
Proof.
  induction m as [|[k' v'] m IH]; simpl; [tauto|].
  intros Hnd [Heq|Hin].
  - inversion Heq; subst. now rewrite String.eqb_refl.
  - inversion Hnd as [|? ? Hk' Hnd']; subst.
    destruct (String.eqb k k') eqn:E; auto.
    apply String.eqb_eq in E. subst. exfalso. apply Hk'.
    change k' with (fst (k', l)). now apply in_map.
Qed.

Lemma get_In (k : string) (l : list V) (m : list (string * list V)) :
  OMap.get k m = Some l -> In (k, l) m.
Proof.
  induction m as [|[k' v'] m IH]; simpl; [discriminate|].
  destruct (String.eqb k k') eqn:E; auto.
  apply String.eqb_eq in E. intros H. inversion H; subst. now left.
Qed.

Lemma grouped_In (es : list Elt) (k : string) (l : list V) :
  In (k, l) (grouped es) <-> l = members k es /\ l <> [].
Proof.
  split.
  - intros H. apply In_get in H; [|apply grouped_keys_NoDup].
    rewrite grouped_get in H. destruct (members k es); [discriminate|].
    inversion H; subst. split; [reflexivity|discriminate].
  - intros [-> Hne]. apply get_In. rewrite grouped_get.
    destruct (members k es); congruence.
Qed.

End Grouping.

(** ** Scoring and the payroll filter *)

Lemma score_node_shape (cn : list (string * (nat * string)))
  (fi fo sh hv : list string) (n : GraphNode) :
  scored_shape (score_node cn fi fo sh hv n).
Proof.
  unfold score_node, scored_shape.
  exists (option_map fst (OMap.get (id n) cn)),
         (OSet.has (id n) fi), (OSet.has (id n) fo),
         (OSet.has (id n) sh), (OSet.has (id n) hv).
  destruct (OMap.get (id n) cn) as [info|];
    destruct (OSet.has (id n) fi), (OSet.has (id n) fo),
             (OSet.has (id n) sh), (OSet.has (id n) hv);
    repeat split; reflexivity.
Qed.

Lemma scored_shape_invariant (n : GraphNode) :
  scored_shape n -> node_invariant n.
Proof.
  intros [c [fi [fo [sh [hv [Hp [Hs Hb]]]]]]]. unfold node_invariant.
  rewrite Hp, Hs, Hb.
  destruct c, fi, fo, sh, hv; cbv;
    repeat split; intros; try reflexivity; try discriminate; try congruence.
Qed.

Lemma tags_includes_fan_out (c : option nat) (fi fo sh hv : bool) :
  includes fan_out (tags c fi fo sh hv) = fo.
Proof. destruct c, fi, fo, sh, hv; reflexivity. Qed.

Lemma tags_has_cycle (c : option nat) (fi fo sh hv : bool) :
  existsb startsWith_cycle (tags c fi fo sh hv)
  = match c with Some _ => true | None => false end.
Proof. destruct c, fi, fo, sh, hv; reflexivity. Qed.

(** Removing [fan_out] from a scored node without cycle tag gives the node
    that would have been scored without the fan-out verdict. *)
Lemma drop_fan_out_shape (n : GraphNode) :
  scored_shape n ->
  includes fan_out (detectedPatterns n) = true ->
  existsb startsWith_cycle (detectedPatterns n) = false ->
  scored_shape (drop_fan_out n).
Proof.
  intros [c [fi [fo [sh [hv [Hp [Hs Hb]]]]]]] Hfo Hc.
  rewrite Hp, tags_includes_fan_out in Hfo.
  rewrite Hp, tags_has_cycle in Hc.
  destruct c; [discriminate|]. subst fo.
  exists None, fi, false, sh, hv.
  unfold drop_fan_out. rewrite Hp, Hs, Hb.
  destruct fi, sh, hv; repeat split; reflexivity.
Qed.

Lemma node_update_Forall (P : GraphNode -> Prop) (f : GraphNode -> GraphNode)
  (k : string) (t : NodeTable) :
  Forall P t -> (forall n, node_get k t = Some n -> P (f n)) ->
  Forall P (node_update f k t).
Proof.
  induction 1 as [|n t Hn Ht IH]; simpl; intros Hf; [constructor|].
  destruct (String.eqb k (id n)); constructor; auto.
Qed.

Lemma node_get_In (k : string) (t : NodeTable) (n : GraphNode) :
  node_get k t = Some n -> In n t /\ id n = k.
Proof.
  induction t as [|m t IH]; simpl; [discriminate|].
  destruct (String.eqb k (id m)) eqn:Ek.
  - intros H. inversion H; subst. apply String.eqb_eq in Ek. auto.
  - intros H. destruct (IH H). auto.
Qed.

Lemma filter_sender_shape (t : NodeTable) (entry : string * list Q) :
  Forall scored_shape t -> Forall scored_shape (filter_sender t entry).
Proof.
  intros Ht. unfold filter_sender.
  destruct (node_get (fst entry) t) as [node|] eqn:Hget; auto.
  destruct (is_payroll (snd entry)); auto.
  destruct (negb (includes fan_out (detectedPatterns node))
            || existsb startsWith_cycle (detectedPatterns node)) eqn:Hskip; auto.
  apply orb_false_iff in Hskip. destruct Hskip as [Hfo Hc].
  apply negb_false_iff in Hfo.
  apply node_update_Forall; auto.
  intros n Hn. rewrite Hget in Hn. inversion Hn; subst n.
  apply drop_fan_out_shape; auto.
  rewrite Forall_forall in Ht. apply Ht. now apply node_get_In in Hget.
Qed.

Lemma scored_nodes_shape (transactions : list Transaction) :
  Forall scored_shape (scored_nodes transactions).
Proof.
  unfold scored_nodes, scoreAccounts. rewrite Forall_map.
  apply Forall_forall. intros n _. apply score_node_shape.
Qed.

Lemma filtered_nodes_shape (transactions : list Transaction) :
  Forall scored_shape (filtered_nodes transactions).
Proof.
  unfold filtered_nodes, filterFalsePositives. simpl.
  apply fold_left_invariant; [apply scored_nodes_shape|].
  intros t entry Ht _. now apply filter_sender_shape.
Qed.

(** *** The assembler writes [ringId] only *)

Lemma same_but_ring_refl (n : GraphNode) : same_but_ring n n.
Proof. exists (ringId n). now destruct n. Qed.

Lemma same_but_ring_trans (a b c : GraphNode) :
  same_but_ring a b -> same_but_ring b c -> same_but_ring a c.
Proof. intros [r ->] [r' ->]. now exists r'. Qed.

Lemma Forall2_same_refl (t : NodeTable) : Forall2 same_but_ring t t.
Proof. induction t; constructor; auto using same_but_ring_refl. Qed.

Lemma Forall2_same_trans (t1 t2 t3 : NodeTable) :
  Forall2 same_but_ring t1 t2 -> Forall2 same_but_ring t2 t3 ->
  Forall2 same_but_ring t1 t3.
Proof.
  intros H. revert t3. induction H; intros t3 H3; inversion H3; subst;
    constructor; eauto using same_but_ring_trans.
Qed.

Lemma node_update_same (f : GraphNode -> GraphNode) (k : string) (t : NodeTable) :
  (forall n, same_but_ring n (f n)) ->
  Forall2 same_but_ring t (node_update f k t).
Proof.
  intros Hf. induction t as [|n t IH]; simpl; [constructor|].
  destruct (String.eqb k (id n)); constructor;
    auto using same_but_ring_refl, Forall2_same_refl.
Qed.

Lemma fold_update_same (f : GraphNode -> GraphNode) (arr : list string)
  (t : NodeTable) :
  (forall n, same_but_ring n (f n)) ->
  Forall2 same_but_ring t
          (fold_left (fun t acc => node_update f acc t) arr t).
Proof.
  intros Hf. revert t. induction arr as [|a arr IH]; simpl; intros t.
  - apply Forall2_same_refl.
  - eapply Forall2_same_trans; [apply node_update_same; exact Hf|apply IH].
Qed.

Lemma set_ringId_if_unset_same (r : string) (n : GraphNode) :
  same_but_ring n (set_ringId_if_unset r n).
Proof.
  unfold set_ringId_if_unset. destruct (truthy (ringId n)).
  - apply same_but_ring_refl.
  - now exists (Some r).
Qed.

Lemma emit_candidate_ring_same (pt : RingPattern) (arr : list string)
  (st : Assembly) :
  Forall2 same_but_ring (as_nodes st) (as_nodes (emit_candidate_ring pt arr st)).
Proof.
  unfold emit_candidate_ring. destruct (0 <? length arr); simpl.
  - apply fold_update_same. apply set_ringId_if_unset_same.
  - apply Forall2_same_refl.
Qed.

Lemma emit_cycle_rings_same (groups : list (string * list string))
  (st : Assembly) :
  Forall2 same_but_ring (as_nodes st)
          (as_nodes (fold_left emit_cycle_ring groups st)).
Proof.
  revert st. induction groups as [|g groups IH]; simpl; intros st.
  - apply Forall2_same_refl.
  - eapply Forall2_same_trans; [|apply IH]. simpl.
    apply fold_update_same. intros n. now exists (Some (fst g)).
Qed.

Lemma assembleFraudRings_same (previous : nat) (cs : list (list string))
  (fi fo sh : list string) (t : NodeTable) :
  Forall2 same_but_ring t (as_nodes (assembleFraudRings previous cs fi fo sh t)).
Proof.
  unfold assembleFraudRings.
  eapply Forall2_same_trans; [|apply emit_candidate_ring_same].
  eapply Forall2_same_trans; [|apply emit_candidate_ring_same].
  eapply Forall2_same_trans; [|apply emit_candidate_ring_same].
  apply (emit_cycle_rings_same _ (mkAssembly _ [] t)).
Qed.

Lemma same_but_ring_shape (n n' : GraphNode) :
  same_but_ring n n' -> scored_shape n -> scored_shape n'.
Proof. intros [r ->] H. exact H. Qed.

Lemma Forall2_Forall_transfer (P : GraphNode -> Prop) (t t' : NodeTable) :
  (forall n n', same_but_ring n n' -> P n -> P n') ->
  Forall2 same_but_ring t t' -> Forall P t -> Forall P t'.
Proof.
  intros HP H. induction H; intros Ht; inversion Ht; subst; constructor; eauto.
Qed.

(** C4 (confirmed): after scoring, after the payroll filter, and in the
    node table of the emitted report, every node satisfies
    [is_suspicious <-> suspicion_score > 0 <-> detected_patterns <> []] and
    has its score in [0, 100]. *)
Theorem node_invariant_at_every_stage (env : Env)
  (transactions : list Transaction) :
  Forall node_invariant (scored_nodes transactions)
  /\ Forall node_invariant (filtered_nodes transactions)
  /\ Forall node_invariant (res_nodes (fst (analyzeTransactions env transactions))).
Proof.
  repeat split.
  - eapply Forall_impl; [apply scored_shape_invariant|apply scored_nodes_shape].
  - eapply Forall_impl; [apply scored_shape_invariant|apply filtered_nodes_shape].
  - eapply Forall_impl; [apply scored_shape_invariant|].
    unfold analyzeTransactions. cbn [fst res_nodes].
    eapply Forall2_Forall_transfer;
      [apply same_but_ring_shape|apply assembleFraudRings_same
      |apply filtered_nodes_shape].
Qed.

(** *** Frame of the payroll filter *)



Lemma drop_fan_out_frame (n : GraphNode) : frame_eq n (drop_fan_out n).
Proof.
  unfold drop_fan_out, frame_eq.
  destruct (length _ =? 0); simpl; repeat split; reflexivity.
Qed.


Lemma amounts_by_sender_In (es : list GraphEdge) (k : string) (l : list Q) :
  In (k, l) (amounts_by_sender es) -> l = amounts_of k es.
Proof.
  intros H. apply (grouped_In source e_amount es k l) in H. tauto.
Qed.




(** ** Ring identifiers *)

Lemma uint_of_string_zeros (k : nat) (s : string) (d : Decimal.uint) :
  NilEmpty.uint_of_string s = Some d ->
  exists d', NilEmpty.uint_of_string (String.append (zeros k) s) = Some d'
             /\ Nat.of_uint d' = Nat.of_uint d.
Proof.
  intros H. induction k as [|k [d' [Hd' Heq]]]; simpl.
  - now exists d.
  - exists (Decimal.D0 d'). rewrite Hd'. split; [reflexivity|exact Heq].
Qed.

Lemma ring_number_name (n : nat) : ring_number (ring_name n) = Some n.
Proof.
  unfold ring_name. cbn [String.append]. unfold ring_number.
  unfold padStart3, String_of_nat.
  destruct (uint_of_string_zeros
              (3 - String.length (NilEmpty.string_of_uint (Nat.to_uint n)))
              _ _ (NilEmpty.usu (Nat.to_uint n))) as [d' [Hd' Heq]].
  rewrite Hd'. simpl. now rewrite Heq, DecimalNat.Unsigned.of_to.
Qed.

Lemma ring_name_inj (n m : nat) : ring_name n = ring_name m -> n = m.
Proof.
  intros H. apply (f_equal ring_number) in H.
  rewrite !ring_number_name in H. congruence.
Qed.

Lemma ring_name_fresh (c : nat) :
  ~ In (ring_name (S c)) (map ring_name (seq 1 c)).
Proof.
  intros H. apply in_map_iff in H. destruct H as [m [Hm Hin]].
  apply ring_name_inj in Hm. apply in_seq in Hin. lia.
Qed.

Lemma set_fresh_keys (k : string) (v : list string)
  (m : list (string * list string)) :
  ~ In k (map fst m) -> map fst (OMap.set k v m) = map fst m ++ [k].
Proof.
  induction m as [|[k' v'] m IH]; simpl; intros H; auto.
  destruct (String.eqb k k') eqn:Ek.
  - apply String.eqb_eq in Ek. subst. tauto.
  - simpl. f_equal. apply IH. tauto.
Qed.

Lemma merge_cycle_inv (st : CycleMerge) (cycle : list string) :
  merge_inv st -> merge_inv (merge_cycle st cycle).
Proof.
  unfold merge_inv, merge_cycle. intros H.
  destruct (truthy (first_assigned (ringIdMap st) cycle)); cbn [cycleGroups ringCounter];
    rewrite keys_alter; auto.
  rewrite set_fresh_keys, H.
  - rewrite seq_S, map_app. reflexivity.
  - rewrite H. apply ring_name_fresh.
Qed.

Lemma merge_cycles_inv (cs : list (list string)) :
  merge_inv (fold_left merge_cycle cs (mkMerge 0 [] [])).
Proof.
  apply fold_left_invariant; [reflexivity|].
  intros st c Hst _. now apply merge_cycle_inv.
Qed.

Lemma emit_cycle_rings_ids (groups : list (string * list string)) (st : Assembly) :
  let st' := fold_left emit_cycle_ring groups st in
  map ring_id (as_rings st') = map ring_id (as_rings st) ++ map fst groups
  /\ map pattern_type (as_rings st')
     = map pattern_type (as_rings st) ++ repeat ring_cycle (length groups)
  /\ as_counter st' = as_counter st.
Proof.
  revert st. induction groups as [|g groups IH]; intros st; simpl.
  - now rewrite !app_nil_r.
  - destruct (IH (emit_cycle_ring st g)) as [H1 [H2 H3]].
    simpl in H1, H2, H3. rewrite H1, H2, H3.
    rewrite !map_app, <- !app_assoc. simpl. auto.
Qed.

Lemma emit_candidate_ring_inv (pt : RingPattern) (arr : list string)
  (st : Assembly) :
  assembly_inv st -> assembly_inv (emit_candidate_ring pt arr st).
Proof.
  unfold assembly_inv, emit_candidate_ring. intros H.
  destruct (0 <? length arr); auto. cbn [as_rings as_counter].
  rewrite map_app, H, seq_S, map_app. reflexivity.
Qed.

Lemma emit_candidate_ring_types (pt : RingPattern) (arr : list string)
  (st : Assembly) :
  map pattern_type (as_rings (emit_candidate_ring pt arr st))
  = map pattern_type (as_rings st) ++ optional_ring (0 <? length arr) pt.
Proof.
  unfold emit_candidate_ring. destruct (0 <? length arr); simpl.
  - now rewrite map_app.
  - now rewrite app_nil_r.
Qed.

Lemma assembleFraudRings_inv (previous : nat) (cs : list (list string))
  (fi fo sh : list string) (t : NodeTable) :
  assembly_inv (assembleFraudRings previous cs fi fo sh t).
Proof.
  unfold assembleFraudRings.
  do 3 apply emit_candidate_ring_inv.
  unfold assembly_inv.
  destruct (emit_cycle_rings_ids
              (cycleGroups (fold_left merge_cycle cs (mkMerge 0 [] [])))
              (mkAssembly (ringCounter (fold_left merge_cycle cs (mkMerge 0 [] [])))
                          [] t)) as [H1 [_ H3]].
  rewrite H1, H3. simpl. apply merge_cycles_inv.
Qed.

Lemma assembleFraudRings_contiguous (previous : nat) (cs : list (list string))
  (fi fo sh : list string) (t : NodeTable) :
  let a := assembleFraudRings previous cs fi fo sh t in
  ring_ids_contiguous (as_rings a) /\ as_counter a = length (as_rings a).
Proof.
  intros a. assert (H := assembleFraudRings_inv previous cs fi fo sh t).
  fold a in H. unfold assembly_inv in H.
  assert (Hlen : as_counter a = length (as_rings a)).
  { apply (f_equal (@length string)) in H.
    rewrite !length_map, length_seq in H. auto. }
  split; auto. unfold ring_ids_contiguous. now rewrite <- Hlen.
Qed.

Lemma assembleFraudRings_order (previous : nat) (cs : list (list string))
  (fi fo sh : list string) (t : NodeTable) :
  ring_order (as_rings (assembleFraudRings previous cs fi fo sh t)).
Proof.
  unfold assembleFraudRings, ring_order.
  set (merged := fold_left merge_cycle cs (mkMerge 0 [] [])).
  destruct (emit_cycle_rings_ids (cycleGroups merged)
              (mkAssembly (ringCounter merged) [] t)) as [_ [H2 _]].
  simpl in H2.
  eexists _, _, _, _.
  rewrite !emit_candidate_ring_types, H2, <- !app_assoc. reflexivity.
Qed.

Lemma ring_names_up_to_999 :
  forallb (fun n => matches_RING_ddd (ring_name n)) (seq 1 999) = true.
Proof. vm_compute. reflexivity. Qed.

Lemma In_firstn_seq (k a n x : nat) :
  In x (firstn k (seq a n)) -> a <= x < a + k.
Proof.
  revert a n. induction k as [|k IH]; intros a [|n]; simpl; try tauto.
  intros [<-|H]; [lia|]. apply IH in H. lia.
Qed.

Lemma contiguous_first_999_match (rings : list FraudRing) :
  ring_ids_contiguous rings ->
  Forall (fun r => matches_RING_ddd (ring_id r) = true) (firstn 999 rings).
Proof.
  intros H. apply Forall_map with (f := ring_id) (P := fun s => matches_RING_ddd s = true).
  rewrite <- firstn_map, H, firstn_map.
  apply Forall_map, Forall_forall. intros n Hn.
  assert (H999 := ring_names_up_to_999). rewrite forallb_forall in H999.
  apply H999. apply In_firstn_seq in Hn. apply in_seq. lia.
Qed.

(** C6 (amended): the ids of the emitted rings are the counter values 1, 2,
    ... in list order, each printed as RING_ followed by the decimal number
    zero-padded to at least three digits; cycle rings come first, then the
    fan-in, the fan-out and the shell ring; the first 999 ids match
    [^RING_\d{3}$]; the counter left by earlier runs has no influence. *)
Theorem ring_ids_contiguous_in_order (env env' : Env)
  (transactions : list Transaction) :
  let result := analyzeTransactions env transactions in
  ring_ids_contiguous (fraud_rings (fst result))
  /\ ring_order (fraud_rings (fst result))
  /\ Forall (fun r => matches_RING_ddd (ring_id r) = true)
            (firstn 999 (fraud_rings (fst result)))
  /\ snd result = length (fraud_rings (fst result))
  /\ fraud_rings (fst (analyzeTransactions env' transactions))
     = fraud_rings (fst result).
Proof.
  intros result. unfold result, analyzeTransactions. cbn [fst snd fraud_rings].
  match goal with
  | |- context [assembleFraudRings ?p ?c ?a ?b ?s ?t] =>
      destruct (assembleFraudRings_contiguous p c a b s t) as [Hc Hn];
      assert (Ho := assembleFraudRings_order p c a b s t)
  end.
  cbv zeta in Hc, Hn.
  repeat split; auto.
  now apply contiguous_first_999_match.
Qed.

(** ** Smurfing detection *)

Lemma insert_by_time_Forall (P : GraphEdge -> Prop) (e : GraphEdge)
  (l : list GraphEdge) :
  P e -> Forall P l -> Forall P (insert_by_time e l).
Proof.
  intros He. induction 1 as [|x l Hx Hl IH]; simpl.
  - now constructor.
  - destruct (timestamp e <=? timestamp x)%Z; repeat constructor; auto.
Qed.

Lemma insert_by_time_sorted (e : GraphEdge) (l : list GraphEdge) :
  StronglySorted time_le l -> StronglySorted time_le (insert_by_time e l).
Proof.
  induction 1 as [|x l Hl IH Hx]; simpl.
  - repeat constructor.
  - destruct (timestamp e <=? timestamp x)%Z eqn:Ecmp.
    + apply Z.leb_le in Ecmp. constructor; [constructor; auto|].
      constructor; [exact Ecmp|].
      eapply Forall_impl; [|exact Hx]. unfold time_le. intros; lia.
    + apply Z.leb_gt in Ecmp. constructor; auto.
      apply insert_by_time_Forall; auto. unfold time_le. lia.
Qed.

Lemma sort_by_time_sorted (l : list GraphEdge) :
  StronglySorted time_le (sort_by_time l).
Proof.
  induction l; simpl; [constructor|now apply insert_by_time_sorted].
Qed.

Lemma insert_by_time_length (e : GraphEdge) (l : list GraphEdge) :
  length (insert_by_time e l) = S (length l).
Proof.
  induction l as [|x l IH]; simpl; auto.
  destruct (timestamp e <=? timestamp x)%Z; simpl; auto.
Qed.

Lemma sort_by_time_length (l : list GraphEdge) :
  length (sort_by_time l) = length l.
Proof.
  induction l; simpl; auto. now rewrite insert_by_time_length, IHl.
Qed.




Lemma of_list_fold_In (xs s0 : list string) (x : string) :
  In x (fold_left (fun s y => OSet.add y s) xs s0) <-> In x xs \/ In x s0.
Proof.
  revert s0. induction xs as [|y xs IH]; simpl; intros s0; [tauto|].
  rewrite IH, OSet_add_In. intuition congruence.
Qed.

Lemma of_list_fold_NoDup (xs s0 : list string) :
  NoDup s0 -> NoDup (fold_left (fun s y => OSet.add y s) xs s0).
Proof.
  revert s0. induction xs as [|y xs IH]; simpl; intros s0 H; auto.
  apply IH. now apply OSet_add_NoDup.
Qed.










(** C8 (confirmed): the report depends on the environment (the counter left
    by earlier runs, the clock) only through [processing_time_seconds]; two
    runs on the same transactions give the same [suspicious_accounts], the
    same [fraud_rings] and the same counts, and leave the same counter. *)
Theorem analyzeTransactions_deterministic (env env' : Env)
  (transactions : list Transaction) :
  let r := fst (analyzeTransactions env transactions) in
  let r' := fst (analyzeTransactions env' transactions) in
  suspicious_accounts r' = suspicious_accounts r
  /\ fraud_rings r' = fraud_rings r
  /\ total_accounts_analyzed (summary r') = total_accounts_analyzed (summary r)
  /\ suspicious_accounts_flagged (summary r') = suspicious_accounts_flagged (summary r)
  /\ fraud_rings_detected (summary r') = fraud_rings_detected (summary r)
  /\ snd (analyzeTransactions env' transactions)
     = snd (analyzeTransactions env transactions).
Proof. repeat split; reflexivity. Qed.

(** C1 (code defect): for the payroll batch of 15 payments of 1000.00 the
    sender P is in no cycle, is flagged fan-out by the detector, has
    amounts of variance 0 and satisfies the payroll predicate; the filter
    clears it, so it is absent from [suspicious_accounts]; but the assembler
    still builds the fan-out ring from the unfiltered detector output, and
    the report has the ring RING_001 with P as its only member. *)
Theorem payroll_sender_still_in_ring :
  let r := fst (analyzeTransactions env0 (payroll_batch 15)) in
  cycles_of (payroll_batch 15) = []
  /\ fanOutAccounts (detectSmurfing (edges (buildGraph (payroll_batch 15)))) = ["P"]
  /\ Qvariance (amounts_of "P" (edges (buildGraph (payroll_batch 15)))) == 0
  /\ payroll_sender (edges (buildGraph (payroll_batch 15))) "P"
  /\ suspicious_entry "P" r = None
  /\ fraud_rings r = [mkRing "RING_001" ["P"] ring_fan_out 0]
  /\ rings_with "P" r = ["RING_001"].
Proof. vm_compute. repeat split; reflexivity. Qed.

(** C2 (code defect): when a cycle touches two rings that already exist,
    its members are added to the ring of its first mapped member only by
    name: account E, already a member of RING_002, also becomes a member of
    RING_001. *)
Theorem overlapping_cycles_share_member :
  let r := fst (analyzeTransactions env0 bridged_triangles) in
  cycles_of bridged_triangles
  = [["C"; "A"; "B"]; ["F"; "D"; "E"]; ["B"; "E"; "X"]]
  /\ map (fun ring => (ring_id ring, member_accounts ring)) (fraud_rings r)
     = [("RING_001", ["C"; "A"; "B"; "E"; "X"]); ("RING_002", ["F"; "D"; "E"])]
  /\ rings_with "E" r = ["RING_001"; "RING_002"].
Proof. vm_compute. repeat split; reflexivity. Qed.

(** C9 (code defect): with 20 payroll payments in ten hours the sender P
    ends with [high_velocity] as its only pattern and score 10, yet it is
    the member of the fan-out ring RING_001 and carries that ring id. *)
Theorem velocity_only_account_in_ring :
  let r := fst (analyzeTransactions env0 (payroll_batch 20)) in
  suspicious_entry "P" r
  = Some (mkSuspicious "P" 10 [high_velocity] (Some "RING_001"))
  /\ fraud_rings r = [mkRing "RING_001" ["P"] ring_fan_out 10]
  /\ rings_with "P" r = ["RING_001"].
Proof. vm_compute. repeat split; reflexivity. Qed.

(** ** Termination of the shell traversal *)

Lemma unvisited_add_le (t : NodeTable) (visited : list string) (x : string) :
  unvisited t (OSet.add x visited) <= unvisited t visited.
Proof.
  unfold unvisited. induction t as [|n t IH]; simpl; auto.
  destruct (OSet.has (id n) visited) eqn:Ev.
  - assert (OSet.has (id n) (OSet.add x visited) = true) as ->.
    { apply OSet_has_In, OSet_add_In. right. now apply OSet_has_In. }
    exact IH.
  - simpl. destruct (OSet.has (id n) (OSet.add x visited)); simpl; lia.
Qed.

Lemma unvisited_add_lt (t : NodeTable) (visited : list string) (x : string)
  (n : GraphNode) :
  node_get x t = Some n -> OSet.has x visited = false ->
  unvisited t (OSet.add x visited) < unvisited t visited.
Proof.
  unfold unvisited. induction t as [|m t IH]; simpl; [discriminate|].
  intros Hget Hx. destruct (String.eqb x (id m)) eqn:Ex.
  - apply String.eqb_eq in Ex. subst x. rewrite Hx. simpl.
    assert (OSet.has (id m) (OSet.add (id m) visited) = true) as ->.
    { apply OSet_has_In, OSet_add_In. now left. }
    simpl. apply Nat.lt_succ_r. apply (unvisited_add_le t visited (id m)).
  - specialize (IH Hget Hx).
    destruct (OSet.has (id m) visited) eqn:Ev.
    + assert (OSet.has (id m) (OSet.add x visited) = true) as ->.
      { apply OSet_has_In, OSet_add_In. right. now apply OSet_has_In. }
      exact IH.
    + assert (OSet.has (id m) (OSet.add x visited) = false) as ->.
      { apply OSet_has_false. rewrite OSet_add_In. intros [H|H].
        - apply String.eqb_neq in Ex. congruence.
        - apply OSet_has_false in Ev. tauto. }
      simpl. lia.
Qed.

Lemma shell_visit_measure (t : NodeTable) (item : QueueItem) (st : ShellState)
  (neighbor : string) :
  shell_measure t (shell_visit t item st neighbor) <= shell_measure t st.
Proof.
  unfold shell_visit, shell_measure.
  destruct (OSet.has neighbor (sh_visited st)) eqn:Ev; auto.
  destruct (node_get neighbor t) as [nNode|] eqn:Hget; auto.
  destruct ((2 <=? totalTransactions nNode)
            && (totalTransactions nNode <=? SHELL_MAX_TX)
            && (q_depth item <? 6)); cbn [sh_queue sh_visited]; auto.
  rewrite length_app. simpl.
  assert (H := unvisited_add_lt t (sh_visited st) neighbor nNode Hget Ev). lia.
Qed.

Lemma shell_visits_measure (t : NodeTable) (item : QueueItem)
  (neighbors : list string) (st : ShellState) :
  shell_measure t (fold_left (shell_visit t item) neighbors st)
  <= shell_measure t st.
Proof.
  revert st. induction neighbors as [|x xs IH]; simpl; intros st; auto.
  etransitivity; [apply IH|apply shell_visit_measure].
Qed.

Lemma shell_bfs_step_enough (t : NodeTable) (adj : list (string * list string)) :
  forall fuel st,
    shell_measure t st <= fuel ->
    shell_bfs (S fuel) t adj st = shell_bfs fuel t adj st.
Proof.
  induction fuel as [|fuel IH]; intros st Hm.
  - unfold shell_measure in Hm. simpl.
    destruct (sh_queue st); [reflexivity|simpl in Hm; lia].
  - cbn [shell_bfs]. destruct (sh_queue st) as [|item rest] eqn:Eq; auto.
    apply IH.
    etransitivity; [apply shell_visits_measure|].
    unfold shell_measure in *. rewrite Eq in Hm. simpl in *. lia.
Qed.

(** More fuel than [length t + 1] never changes the result of a traversal:
    the queue is empty by then. *)
Lemma shell_bfs_fuel_enough (t : NodeTable) (adj : list (string * list string))
  (accounts : list string) (startNode : GraphNode) (extra : nat) :
  shellAccounts
    (shell_bfs (extra + S (length t)) t adj
       (mkShell [id startNode] [mkItem (id startNode) 0 [id startNode]] accounts))
  = shell_from t adj accounts startNode.
Proof.
  unfold shell_from. f_equal.
  induction extra as [|k IH]; auto.
  cbn [Nat.add]. rewrite shell_bfs_step_enough; [exact IH|].
  unfold shell_measure, unvisited. cbn [sh_queue sh_visited length].
  assert (H := filter_length_le (fun n => negb (OSet.has (id n) [id startNode])) t).
  lia.
Qed.

(** ** The group of a merged cycle exists *)

Lemma OMap_get_set {V : Type} (k k0 : string) (v : V) (m : list (string * V)) :
  OMap.get k (OMap.set k0 v m)
  = if String.eqb k k0 then Some v else OMap.get k m.
Proof.
  induction m as [|[k' v'] m IH]; simpl.
  - reflexivity.
  - destruct (String.eqb k0 k') eqn:E0; simpl.
    + apply String.eqb_eq in E0. subst k'. now destruct (String.eqb k k0).
    + destruct (String.eqb k k') eqn:E1.
      * apply String.eqb_eq in E1. subst k'.
        now rewrite String.eqb_sym, E0.
      * exact IH.
Qed.

Lemma OMap_set_keys {V : Type} (k k0 : string) (v : V) (m : list (string * V)) :
  In k (map fst (OMap.set k0 v m)) <-> k = k0 \/ In k (map fst m).
Proof.
  induction m as [|[k' v'] m IH]; simpl.
  - intuition.
  - destruct (String.eqb k0 k') eqn:E0; simpl.
    + apply String.eqb_eq in E0. subst k'. intuition.
    + rewrite IH. intuition.
Qed.

Lemma get_fold_set (r : string) (cycle : list string)
  (m : list (string * string)) (acc r' : string) :
  OMap.get acc (fold_left (fun m a => OMap.set a r m) cycle m) = Some r' ->
  r' = r \/ OMap.get acc m = Some r'.
Proof.
  revert m. induction cycle as [|a cycle IH]; simpl; intros m H; auto.
  apply IH in H. destruct H as [H|H]; auto.
  rewrite OMap_get_set in H. destruct (String.eqb acc a); auto.
  inversion H; auto.
Qed.

Lemma first_assigned_get (m : list (string * string)) (cycle : list string)
  (r : string) :
  first_assigned m cycle = Some r -> exists acc, OMap.get acc m = Some r.
Proof.
  induction cycle as [|a cycle IH]; simpl; [discriminate|].
  destruct (OMap.get a m) as [r0|] eqn:Ea; auto.
  intros H. inversion H; subst. eauto.
Qed.

(** The ring id chosen for a cycle names a group, so the lookup
    [cycleGroups.get(mergedRingId)!] of the source never fails. *)
Lemma merge_cycle_groups_defined (st : CycleMerge) (cycle : list string) :
  groups_defined st -> groups_defined (merge_cycle st cycle).
Proof.
  unfold groups_defined, merge_cycle. intros Hst acc r.
  cbn [ringIdMap cycleGroups]. rewrite keys_alter. intros H.
  apply get_fold_set in H.
  destruct (first_assigned (ringIdMap st) cycle) as [r0|] eqn:Ef; simpl in *.
  - destruct (negb (String.eqb r0 "")).
    + destruct H as [->|H]; eauto.
      apply first_assigned_get in Ef. destruct Ef as [a Ha]. eauto.
    + apply OMap_set_keys. destruct H as [->|H]; eauto.
  - apply OMap_set_keys. destruct H as [->|H]; eauto.
Qed.

Lemma merge_cycles_groups_defined (cs : list (list string)) :
  groups_defined (fold_left merge_cycle cs (mkMerge 0 [] [])).
Proof.
  apply fold_left_invariant.
  - intros acc r H. discriminate.
  - intros st c Hst _. now apply merge_cycle_groups_defined.
Qed.

(** ** A batch with a thousand rings *)

(** *** Account names *)

Lemma String_of_nat_inj (i j : nat) : String_of_nat i = String_of_nat j -> i = j.
Proof.
  unfold String_of_nat. intros H.
  apply DecimalNat.Unsigned.to_uint_inj.
  apply (f_equal NilEmpty.uint_of_string) in H.
  rewrite !NilEmpty.usu in H. congruence.
Qed.

Lemma acct_inj (c c' : ascii) (i j : nat) :
  acct c i = acct c' j -> c = c' /\ i = j.
Proof.
  unfold acct. intros H. inversion H. split; auto using String_of_nat_inj.
Qed.

Lemma acct_eqb (c c' : ascii) (i j : nat) :
  String.eqb (acct c i) (acct c' j) = Ascii.eqb c c' && Nat.eqb i j.
Proof.
  destruct (String.eqb (acct c i) (acct c' j)) eqn:E.
  - apply String.eqb_eq, acct_inj in E. destruct E as [-> ->].
    now rewrite Ascii.eqb_refl, Nat.eqb_refl.
  - symmetry. apply andb_false_iff.
    destruct (Ascii.eqb c c') eqn:Ec; auto. right.
    apply Ascii.eqb_eq in Ec. subst c'.
    apply Nat.eqb_neq. intros ->. rewrite String.eqb_refl in E. discriminate.
Qed.

Lemma string_of_uint_digits (d : Decimal.uint) :
  all_digits (NilEmpty.string_of_uint d) = true.
Proof. induction d; simpl; auto. Qed.

Lemma append_bar_inj (s s' r r' : string) :
  all_digits s = true -> all_digits s' = true ->
  String.append s (String "|" r) = String.append s' (String "|" r') -> s = s'.
Proof.
  revert s'. induction s as [|c s IH]; intros [|c' s'] Hs Hs' H; simpl in *; auto.
  - inversion H; subst. discriminate.
  - inversion H; subst. discriminate.
  - inversion H; subst. f_equal.
    apply andb_true_iff in Hs, Hs'. apply IH; tauto.
Qed.

Lemma triangle_key (i : nat) :
  cycle_key (triangle_cycle i)
  = String "a" (String.append (String_of_nat i)
      (String "|" (String "b" (String.append (String_of_nat i)
         (String "|" (String "c" (String_of_nat i))))))).
Proof.
  unfold cycle_key, triangle_cycle, acct.
  generalize (String_of_nat i). intros s. reflexivity.
Qed.

Lemma triangle_key_inj (i j : nat) :
  cycle_key (triangle_cycle i) = cycle_key (triangle_cycle j) -> i = j.
Proof.
  rewrite !triangle_key. intros H. inversion H as [H'].
  apply String_of_nat_inj.
  eapply append_bar_inj; [| |exact H']; apply string_of_uint_digits.
Qed.

Lemma acct_fresh (c : ascii) (n : nat) (idx : list nat) :
  ~ In n idx -> ~ In (acct c n) (flat_map triangle_cycle idx).
Proof.
  intros Hn H. apply in_flat_map in H. destruct H as [i [Hi H]].
  simpl in H. destruct H as [H|[H|[H|[]]]];
    apply acct_inj in H; destruct H; subst; auto.
Qed.

(** *** The graph of the triangles *)

Lemma node_has_ids (k : string) (t : NodeTable) :
  node_has k t = OSet.has k (map id t).
Proof.
  unfold node_has, OSet.has. induction t as [|n t IH]; simpl; auto.
  destruct (String.eqb k (id n)); auto.
Qed.

Lemma ensureNode_fresh (k : string) (t : NodeTable) :
  ~ In k (map id t) -> map id (ensureNode k t) = map id t ++ [k].
Proof.
  intros H. unfold ensureNode. rewrite node_has_ids.
  apply OSet_has_false in H. rewrite H, map_app. reflexivity.
Qed.

Lemma ensureNode_present (k : string) (t : NodeTable) :
  In k (map id t) -> ensureNode k t = t.
Proof.
  intros H. unfold ensureNode. rewrite node_has_ids.
  apply OSet_has_In in H. now rewrite H.
Qed.

Lemma node_update_ids (f : GraphNode -> GraphNode) (k : string) (t : NodeTable) :
  (forall n, id (f n) = id n) -> map id (node_update f k t) = map id t.
Proof.
  intros Hf. induction t as [|n t IH]; simpl; auto.
  destruct (String.eqb k (id n)); simpl; congruence.
Qed.

Lemma OMap_has_keys {V : Type} (k : string) (m : list (string * V)) :
  OMap.has k m = OSet.has k (map fst m).
Proof.
  unfold OMap.has, OSet.has. induction m as [|[k' v] m IH]; simpl; auto.
  destruct (String.eqb k k'); auto.
Qed.

Lemma adj_add_fresh (a b : string) (adj : list (string * list string)) :
  ~ In a (map fst adj) -> adj_add a b adj = adj ++ [(a, [b])].
Proof.
  intros H. unfold adj_add. rewrite OMap_has_keys.
  apply OSet_has_false in H. now rewrite H.
Qed.

Lemma triangle_adj_keys (idx : list nat) :
  map fst (flat_map triangle_adj idx) = flat_map triangle_cycle idx.
Proof.
  induction idx as [|i idx IH]; simpl; auto. now rewrite IH.
Qed.

Lemma add_transaction_ids (g : Graph) (t : Transaction) :
  map id (nodes (add_transaction g t))
  = map id (ensureNode (receiver_id t) (ensureNode (sender_id t) (nodes g))).
Proof.
  unfold add_transaction. cbn [nodes].
  now rewrite !node_update_ids by (intros n; reflexivity).
Qed.

Lemma add_triangle (g : Graph) (n : nat) (idx : list nat) :
  ~ In n idx ->
  adjacency g = flat_map triangle_adj idx ->
  map id (nodes g) = flat_map triangle_cycle idx ->
  let g' := fold_left add_transaction (triangle n) g in
  adjacency g' = flat_map triangle_adj (idx ++ [n])
  /\ map id (nodes g') = flat_map triangle_cycle (idx ++ [n]).
Proof.
  intros Hn Hadj Hids.
  assert (Hfresh : forall c, ~ In (acct c n) (flat_map triangle_cycle idx))
    by (intros c; now apply acct_fresh).
  assert (Hne : forall c c' l, c <> c' ->
            ~ In (acct c n) l -> ~ In (acct c n) (l ++ [acct c' n])).
  { intros c c' l Hc Hl H. apply in_app_iff in H.
    destruct H as [H|[H|[]]]; auto. apply acct_inj in H. destruct H; auto. }
  rewrite !flat_map_app. cbn [flat_map triangle fold_left]. rewrite !app_nil_r.
  split.
  - cbn [adjacency add_transaction tx sender_id receiver_id].
    rewrite Hadj.
    rewrite (adj_add_fresh (acct "a" n));
      [|rewrite triangle_adj_keys; apply Hfresh].
    rewrite (adj_add_fresh (acct "b" n)).
    2:{ rewrite map_app, triangle_adj_keys. apply Hne; [discriminate|apply Hfresh]. }
    rewrite (adj_add_fresh (acct "c" n)).
    2:{ rewrite !map_app, triangle_adj_keys.
        apply Hne; [discriminate|]. apply Hne; [discriminate|apply Hfresh]. }
    unfold triangle_adj. rewrite <- !app_assoc. reflexivity.
  - rewrite !add_transaction_ids. cbn [tx sender_id receiver_id].
    assert (H1 : map id (ensureNode (acct "b" n) (ensureNode (acct "a" n) (nodes g)))
                 = flat_map triangle_cycle idx ++ [acct "a" n; acct "b" n]).
    { rewrite ensureNode_fresh.
      - rewrite ensureNode_fresh; [|rewrite Hids; apply Hfresh].
        rewrite Hids, <- app_assoc. reflexivity.
      - rewrite ensureNode_fresh; [|rewrite Hids; apply Hfresh].
        rewrite Hids. apply Hne; [discriminate|apply Hfresh]. }
    set (g1 := add_transaction g _) in *.
    assert (Hg1 : map id (nodes g1)
                  = flat_map triangle_cycle idx ++ [acct "a" n; acct "b" n]).
    { unfold g1. rewrite add_transaction_ids. exact H1. }
    set (g2 := add_transaction g1 _) in *.
    assert (Hg2 : map id (nodes g2)
                  = flat_map triangle_cycle idx
                    ++ [acct "a" n; acct "b" n; acct "c" n]).
    { unfold g2. rewrite add_transaction_ids. cbn [tx sender_id receiver_id].
      rewrite (ensureNode_present (acct "b" n)).
      2:{ rewrite Hg1. apply in_app_iff. right. simpl. auto. }
      rewrite ensureNode_fresh.
      - rewrite Hg1, <- app_assoc. reflexivity.
      - rewrite Hg1. intros H. apply in_app_iff in H.
        destruct H as [H|[H|[H|[]]]].
        + exact (Hfresh _ H).
        + apply acct_inj in H. destruct H; discriminate.
        + apply acct_inj in H. destruct H; discriminate. }
    rewrite (ensureNode_present (acct "c" n)).
    2:{ rewrite Hg2. apply in_app_iff. right. simpl. auto. }
    rewrite (ensureNode_present (acct "a" n)).
    2:{ rewrite Hg2. apply in_app_iff. right. simpl. auto. }
    exact Hg2.
Qed.

Lemma build_triangles (n : nat) :
  let g := fold_left add_transaction (triangles n) (mkGraph [] [] [] [] []) in
  adjacency g = flat_map triangle_adj (seq 1 n)
  /\ map id (nodes g) = flat_map triangle_cycle (seq 1 n).
Proof.
  induction n as [|n [IH1 IH2]]; [split; reflexivity|].
  unfold triangles in *. rewrite seq_S, flat_map_app, fold_left_app.
  cbn [flat_map]. rewrite app_nil_r.
  apply add_triangle; auto.
  rewrite in_seq. lia.
Qed.

(** *** The cycles of the triangles *)

Lemma triangle_neighbors (idx : list nat) (i : nat) :
  In i idx ->
  neighbors_of (flat_map triangle_adj idx) (acct "a" i) = [acct "b" i]
  /\ neighbors_of (flat_map triangle_adj idx) (acct "b" i) = [acct "c" i]
  /\ neighbors_of (flat_map triangle_adj idx) (acct "c" i) = [acct "a" i].
Proof.
  unfold neighbors_of. induction idx as [|j idx IH]; [intros []|].
  intros Hi. cbn [flat_map triangle_adj app OMap.get].
  rewrite !acct_eqb. cbn [Ascii.eqb Bool.eqb andb].
  destruct (Nat.eqb i j) eqn:Eij.
  - apply Nat.eqb_eq in Eij. subst j. auto.
  - apply Nat.eqb_neq in Eij. destruct Hi as [->|Hi]; [congruence|].
    apply IH, Hi.
Qed.

(** The three seeds of a triangle all find the same cycle, up to
    rotation. *)
Lemma dfs_from_triangle (adj : list (string * list string)) (st : CycleState)
  (x y z : string) :
  neighbors_of adj x = [y] -> neighbors_of adj y = [z] ->
  neighbors_of adj z = [x] ->
  String.eqb y x = false -> String.eqb z x = false -> String.eqb z y = false ->
  dfs_from adj st x = emit_cycle [x; y; z] st.
Proof.
  intros Hx Hy Hz Hyx Hzx Hzy. unfold dfs_from.
  cbn [dfs Nat.ltb Nat.leb]. rewrite Hx. cbn [fold_left].
  rewrite andb_false_r.
  cbn [OSet.has existsb app]. rewrite Hyx. cbn [negb orb andb Nat.ltb Nat.leb].
  rewrite Hy. cbn [fold_left]. rewrite andb_false_r.
  unfold OSet.add at 1. cbn [OSet.has existsb]. rewrite Hyx. cbn [orb app existsb].
  rewrite Hzx, Hzy. cbn [negb orb andb Nat.ltb Nat.leb].
  rewrite Hz. cbn [fold_left]. rewrite String.eqb_refl. reflexivity.
Qed.

Lemma emit_cycle_new (path : list string) (st : CycleState) :
  ~ In (cycle_key path) (seenCycles st) ->
  emit_cycle path st
  = mkCycleState (cycles st ++ [path]) (seenCycles st ++ [cycle_key path]).
Proof.
  intros H. unfold emit_cycle, OSet.add.
  apply OSet_has_false in H. now rewrite H.
Qed.

Lemma emit_cycle_seen (path : list string) (st : CycleState) :
  In (cycle_key path) (seenCycles st) -> emit_cycle path st = st.
Proof.
  intros H. unfold emit_cycle. apply OSet_has_In in H. now rewrite H.
Qed.

Lemma cycle_key_perm (p q : list string) :
  Permutation p q -> cycle_key p = cycle_key q.
Proof.
  intros H. unfold cycle_key. f_equal. now apply sort_strings_canonical.
Qed.

Lemma dfs_triangle_seeds (adj : list (string * list string)) (st : CycleState)
  (i : nat) :
  neighbors_of adj (acct "a" i) = [acct "b" i] ->
  neighbors_of adj (acct "b" i) = [acct "c" i] ->
  neighbors_of adj (acct "c" i) = [acct "a" i] ->
  ~ In (cycle_key (triangle_cycle i)) (seenCycles st) ->
  fold_left (dfs_from adj) (triangle_cycle i) st
  = mkCycleState (cycles st ++ [triangle_cycle i])
                 (seenCycles st ++ [cycle_key (triangle_cycle i)]).
Proof.
  intros Ha Hb Hc Hnew. unfold triangle_cycle. cbn [fold_left].
  rewrite (dfs_from_triangle adj st _ _ _ Ha Hb Hc)
    by (rewrite acct_eqb; reflexivity).
  rewrite emit_cycle_new by exact Hnew.
  rewrite (dfs_from_triangle adj _ _ _ _ Hb Hc Ha)
    by (rewrite acct_eqb; reflexivity).
  rewrite emit_cycle_seen.
  2:{ cbn [seenCycles]. apply in_app_iff. right. left.
      apply cycle_key_perm.
      change [acct "a" i; acct "b" i; acct "c" i]
        with ([acct "a" i] ++ [acct "b" i; acct "c" i]).
      apply Permutation_app_comm. }
  rewrite (dfs_from_triangle adj _ _ _ _ Hc Ha Hb)
    by (rewrite acct_eqb; reflexivity).
  rewrite emit_cycle_seen; [reflexivity|].
  cbn [seenCycles]. apply in_app_iff. right. left.
  apply cycle_key_perm.
  change [acct "c" i; acct "a" i; acct "b" i]
    with ([acct "c" i] ++ [acct "a" i; acct "b" i]).
  etransitivity; [|apply Permutation_app_comm]. simpl.
  apply perm_skip, perm_skip. reflexivity.
Qed.

Lemma detect_triangles (adj : list (string * list string)) :
  forall (idx : list nat) (st : CycleState),
    NoDup idx ->
    (forall i, In i idx ->
       neighbors_of adj (acct "a" i) = [acct "b" i]
       /\ neighbors_of adj (acct "b" i) = [acct "c" i]
       /\ neighbors_of adj (acct "c" i) = [acct "a" i]) ->
    (forall i, In i idx -> ~ In (cycle_key (triangle_cycle i)) (seenCycles st)) ->
    cycles (fold_left (dfs_from adj) (flat_map triangle_cycle idx) st)
    = cycles st ++ map triangle_cycle idx.
Proof.
  induction idx as [|i idx IH]; intros st Hnd Hadj Hnew.
  - simpl. now rewrite app_nil_r.
  - cbn [flat_map map]. rewrite fold_left_app.
    destruct (Hadj i (or_introl eq_refl)) as [Ha [Hb Hc]].
    rewrite (dfs_triangle_seeds adj st i Ha Hb Hc)
      by (apply Hnew; now left).
    inversion Hnd as [|? ? Hi Hnd']; subst.
    rewrite IH; auto.
    + cbn [cycles]. now rewrite <- app_assoc.
    + intros j Hj. apply Hadj. now right.
    + intros j Hj. cbn [seenCycles]. intros H. apply in_app_iff in H.
      destruct H as [H|[H|[]]].
      * apply (Hnew j); [now right|exact H].
      * apply triangle_key_inj in H. subst. contradiction.
Qed.

Lemma cycles_of_triangles (n : nat) :
  cycles_of (triangles n) = map triangle_cycle (seq 1 n).
Proof.
  unfold cycles_of, detect, buildGraph. cbn [d_cycles adjacency nodes].
  destruct (build_triangles n) as [Hadj Hids]. cbv zeta in Hadj, Hids.
  rewrite Hadj, Hids. unfold detectCycles.
  rewrite detect_triangles; auto.
  - apply seq_NoDup.
  - intros i Hi. now apply triangle_neighbors.
Qed.

(** *** One ring per triangle *)

Lemma first_assigned_None (m : list (string * string)) (cycle : list string) :
  (forall a, In a cycle -> OMap.get a m = None) -> first_assigned m cycle = None.
Proof.
  induction cycle as [|a cycle IH]; simpl; intros H; auto.
  rewrite (H a) by auto. apply IH. intros b Hb. apply H. auto.
Qed.

Lemma get_fold_set_other (r : string) (cycle : list string)
  (m : list (string * string)) (x : string) :
  ~ In x cycle ->
  OMap.get x (fold_left (fun m a => OMap.set a r m) cycle m) = OMap.get x m.
Proof.
  revert m. induction cycle as [|a cycle IH]; simpl; intros m H; auto.
  rewrite IH by tauto. rewrite OMap_get_set.
  destruct (String.eqb x a) eqn:E; auto.
  apply String.eqb_eq in E. subst. tauto.
Qed.

Lemma merge_disjoint_triangles :
  forall (idx : list nat) (st : CycleMerge),
    NoDup idx ->
    (forall i x, In i idx -> In x (triangle_cycle i) ->
                 OMap.get x (ringIdMap st) = None) ->
    ringCounter (fold_left merge_cycle (map triangle_cycle idx) st)
    = ringCounter st + length idx.
Proof.
  induction idx as [|i idx IH]; intros st Hnd Hfree;
    cbn [map fold_left length]; [lia|].
  inversion Hnd as [|? ? Hi Hnd']; subst.
  rewrite IH; auto.
  - unfold merge_cycle.
    rewrite first_assigned_None; [cbn [truthy ringCounter]; lia|].
    intros a Ha. apply (Hfree i); auto. now left.
  - intros j x Hj Hx. unfold merge_cycle. cbn [ringIdMap].
    rewrite get_fold_set_other.
    + apply (Hfree j); auto. now right.
    + intros H. apply Hi.
      simpl in H, Hx.
      destruct H as [H|[H|[H|[]]]]; destruct Hx as [Hx|[Hx|[Hx|[]]]];
        rewrite <- H in Hx; apply acct_inj in Hx; destruct Hx as [Hc Hji];
        try discriminate; subst; exact Hj.
Qed.

Lemma emit_candidate_ring_counter (pt : RingPattern) (arr : list string)
  (st : Assembly) :
  as_counter st <= as_counter (emit_candidate_ring pt arr st).
Proof.
  unfold emit_candidate_ring. destruct (0 <? length arr); simpl; lia.
Qed.

Lemma rings_at_least_groups (previous : nat) (cs : list (list string))
  (fi fo sh : list string) (t : NodeTable) :
  ringCounter (fold_left merge_cycle cs (mkMerge 0 [] []))
  <= length (as_rings (assembleFraudRings previous cs fi fo sh t)).
Proof.
  destruct (assembleFraudRings_contiguous previous cs fi fo sh t) as [_ Hlen].
  cbv zeta in Hlen. rewrite <- Hlen. unfold assembleFraudRings.
  etransitivity; [|apply emit_candidate_ring_counter].
  etransitivity; [|apply emit_candidate_ring_counter].
  etransitivity; [|apply emit_candidate_ring_counter].
  destruct (emit_cycle_rings_ids
              (cycleGroups (fold_left merge_cycle cs (mkMerge 0 [] [])))
              (mkAssembly (ringCounter (fold_left merge_cycle cs (mkMerge 0 [] [])))
                          [] t)) as [_ [_ H3]].
  rewrite H3. simpl. lia.
Qed.

(** [n] disjoint triangles give at least [n] rings. *)
Lemma triangles_rings (env : Env) (n : nat) :
  n <= length (fraud_rings (fst (analyzeTransactions env (triangles n)))).
Proof.
  unfold analyzeTransactions. cbn [fst fraud_rings].
  etransitivity; [|apply rings_at_least_groups].
  fold (cycles_of (triangles n)). rewrite cycles_of_triangles.
  rewrite merge_disjoint_triangles.
  - rewrite length_seq. simpl. lia.
  - apply seq_NoDup.
  - reflexivity.
Qed.

Lemma contiguous_nth (rings : list FraudRing) (k : nat) :
  ring_ids_contiguous rings -> k < length rings ->
  exists r, nth_error rings k = Some r /\ ring_id r = ring_name (S k).
Proof.
  intros Hc Hk. destruct (nth_error rings k) as [r|] eqn:E.
  - exists r. split; auto.
    assert (H : nth_error (map ring_id rings) k = Some (ring_id r))
      by (rewrite nth_error_map, E; reflexivity).
    rewrite Hc, nth_error_map in H.
    rewrite (nth_error_nth' _ 0) in H by (rewrite length_seq; exact Hk).
    rewrite seq_nth in H by exact Hk. simpl in H. congruence.
  - apply nth_error_None in E. lia.
Qed.

(** C6 (refuted as stated): for the batch of 1000 disjoint triangles the
    thousandth ring of the report is named RING_1000, which does not match
    [^RING_\d{3}$]. *)
Lemma ring_id_with_four_digits :
  exists r,
    nth_error (fraud_rings (fst (analyzeTransactions env0 (triangles 1000)))) 999
    = Some r
    /\ ring_id r = "RING_1000"
    /\ matches_RING_ddd (ring_id r) = false.
Proof.
  destruct (contiguous_nth
              (fraud_rings (fst (analyzeTransactions env0 (triangles 1000)))) 999)
    as [r [Hr Hid]].
  - unfold analyzeTransactions. cbn [fst fraud_rings].
    apply assembleFraudRings_contiguous.
  - apply (triangles_rings env0 1000).
  - exists r. split; [exact Hr|]. rewrite Hid. split; vm_compute; reflexivity.
Qed.

(** ** Where ring members come from *)

Lemma In_alter {V : Type} (f : V -> V) (k0 k : string) (v : V)
  (m : list (string * V)) :
  In (k, v) (OMap.alter f k0 m) ->
  In (k, v) m \/ exists v0, In (k, v0) m /\ v = f v0.
Proof.
  induction m as [|[k' v'] m IH]; simpl; [tauto|].
  destruct (String.eqb k0 k'); simpl.
  - intros [H|H]; [inversion H; subst; eauto|auto].
  - intros [H|H]; auto. destruct (IH H) as [H'|[v0 [H1 H2]]]; eauto.
Qed.

Lemma In_set {V : Type} (k0 k : string) (v0 v : V) (m : list (string * V)) :
  In (k, v) (OMap.set k0 v0 m) -> In (k, v) m \/ v = v0.
Proof.
  induction m as [|[k' v'] m IH]; simpl.
  - intros [H|[]]. inversion H. auto.
  - destruct (String.eqb k0 k'); simpl.
    + intros [H|H]; [inversion H|]; auto.
    + intros [H|H]; auto. destruct (IH H); auto.
Qed.

Lemma merge_cycle_members (cs : list (list string)) (st : CycleMerge)
  (cycle : list string) :
  In cycle cs ->
  (forall k g a, In (k, g) (cycleGroups st) -> In a g -> In a (concat cs)) ->
  forall k g a, In (k, g) (cycleGroups (merge_cycle st cycle)) -> In a g ->
                In a (concat cs).
Proof.
  intros Hc Hst k g a Hin Ha. unfold merge_cycle in Hin. cbn [cycleGroups] in Hin.
  assert (Hbase : forall g0,
            In (k, g0)
               (if truthy (first_assigned (ringIdMap st) cycle)
                then cycleGroups st
                else OMap.set (ring_name (S (ringCounter st))) [] (cycleGroups st)) ->
            In a g0 -> In a (concat cs)).
  { intros g0 H0 Ha0. destruct (truthy _); [eauto|].
    apply In_set in H0. destruct H0 as [H0| ->]; [eauto|destruct Ha0]. }
  apply In_alter in Hin. destruct Hin as [Hin|[g0 [Hin ->]]]; [eauto|].
  apply of_list_fold_In in Ha. destruct Ha as [Ha|Ha]; [|eauto].
  apply in_concat. eauto.
Qed.

Lemma emit_cycle_rings_members (groups : list (string * list string))
  (st : Assembly) :
  map member_accounts (as_rings (fold_left emit_cycle_ring groups st))
  = map member_accounts (as_rings st) ++ map snd groups.
Proof.
  revert st. induction groups as [|g groups IH]; intros st; simpl.
  - now rewrite app_nil_r.
  - rewrite IH. simpl. rewrite map_app, <- app_assoc. reflexivity.
Qed.

Lemma emit_candidate_ring_members (pt : RingPattern) (arr : list string)
  (st : Assembly) (l : list string) :
  In l (map member_accounts (as_rings (emit_candidate_ring pt arr st))) ->
  In l (map member_accounts (as_rings st)) \/ l = arr.
Proof.
  unfold emit_candidate_ring. destruct (0 <? length arr); auto.
  simpl. rewrite map_app, in_app_iff. simpl. intuition.
Qed.

(** The assembler builds rings from the detector outputs it is given and
    from nothing else: a member of a ring is a member of a cycle or one of
    the fan-in, fan-out or shell candidates. *)
Lemma ring_members_are_candidates (previous : nat) (cs : list (list string))
  (fi fo sh : list string) (t : NodeTable) (r : FraudRing) (a : string) :
  In r (as_rings (assembleFraudRings previous cs fi fo sh t)) ->
  In a (member_accounts r) ->
  In a (concat cs) \/ In a fi \/ In a fo \/ In a sh.
Proof.
  intros Hr Ha. apply (in_map member_accounts) in Hr.
  unfold assembleFraudRings in Hr.
  apply emit_candidate_ring_members in Hr. destruct Hr as [Hr|Hr].
  2:{ rewrite Hr in Ha. apply filter_In in Ha. tauto. }
  apply emit_candidate_ring_members in Hr. destruct Hr as [Hr|Hr].
  2:{ rewrite Hr in Ha. apply filter_In in Ha. tauto. }
  apply emit_candidate_ring_members in Hr. destruct Hr as [Hr|Hr].
  2:{ rewrite Hr in Ha. apply filter_In in Ha. tauto. }
  rewrite emit_cycle_rings_members in Hr. simpl in Hr.
  apply in_map_iff in Hr. destruct Hr as [[k g] [Hg Hin]]. simpl in Hg. subst g.
  left. revert k Hin Ha.
  generalize (member_accounts r). intros g k Hin Ha.
  revert k g a Hin Ha.
  apply (fold_left_invariant
           (fun st => forall k g a, In (k, g) (cycleGroups st) -> In a g ->
                                    In a (concat cs))).
  - simpl. intros k g a [].
  - intros st c Hst Hc. now apply merge_cycle_members.
Qed.

(* ================================================================== *)
(** * Further properties of the engine *)
(* ================================================================== *)

(** ** The graph builder *)

Lemma graph_loop_snoc (txs : list Transaction) (t : Transaction) :
  graph_loop (txs ++ [t]) = add_transaction (graph_loop txs) t.
Proof. unfold graph_loop. now rewrite fold_left_app. Qed.

Lemma of_list_snoc (xs : list string) (x : string) :
  OSet.of_list (xs ++ [x]) = OSet.add x (OSet.of_list xs).
Proof. unfold OSet.of_list. now rewrite fold_left_app. Qed.

Lemma of_list_app (xs ys : list string) :
  OSet.of_list (xs ++ ys)
  = fold_left (fun s x => OSet.add x s) ys (OSet.of_list xs).
Proof. unfold OSet.of_list. now rewrite fold_left_app. Qed.

Lemma Qsum_snoc (xs : list Q) (x : Q) : Qsum (xs ++ [x]) = (Qsum xs + x)%Q.
Proof. unfold Qsum. now rewrite fold_left_app. Qed.

Lemma ensureNode_ids (k : string) (t : NodeTable) :
  map id (ensureNode k t) = OSet.add k (map id t).
Proof.
  unfold ensureNode, OSet.add. rewrite node_has_ids.
  destruct (OSet.has k (map id t)); [reflexivity|].
  now rewrite map_app.
Qed.

Lemma node_get_app (a : string) (t t' : NodeTable) :
  node_get a (t ++ t')
  = match node_get a t with Some n => Some n | None => node_get a t' end.
Proof.
  induction t as [|n t IH]; simpl; auto.
  destruct (String.eqb a (id n)); auto.
Qed.

Lemma node_get_update (f : GraphNode -> GraphNode) (k a : string) (t : NodeTable) :
  (forall n, id (f n) = id n) ->
  node_get a (node_update f k t)
  = if String.eqb a k then option_map f (node_get a t) else node_get a t.
Proof.
  intros Hf. induction t as [|n t IH]; simpl.
  - now destruct (String.eqb a k).
  - destruct (String.eqb k (id n)) eqn:Ek; simpl.
    + apply String.eqb_eq in Ek. subst k. rewrite Hf.
      destruct (String.eqb a (id n)); reflexivity.
    + destruct (String.eqb a (id n)) eqn:Ea; [|exact IH].
      apply String.eqb_eq in Ea. subst a.
      rewrite String.eqb_sym, Ek. reflexivity.
Qed.

Lemma node_get_ensure (k a : string) (t : NodeTable) :
  node_get a (ensureNode k t)
  = match node_get a t with
    | Some n => Some n
    | None => if String.eqb a k
              then Some (mkNode k 0 0 0 [] [] false 0%Z [] None)
              else None
    end.
Proof.
  unfold ensureNode, node_has.
  destruct (node_get k t) as [m|] eqn:Ek.
  - destruct (node_get a t) as [n|] eqn:Ea; auto.
    destruct (String.eqb a k) eqn:E; auto.
    apply String.eqb_eq in E. subst. congruence.
  - rewrite node_get_app. simpl. destruct (node_get a t); reflexivity.
Qed.

Lemma endpoints_snoc (txs : list Transaction) (t : Transaction) :
  endpoints (txs ++ [t]) = endpoints txs ++ [sender_id t; receiver_id t].
Proof. unfold endpoints. rewrite flat_map_app. simpl. reflexivity. Qed.

Lemma not_endpoint (a : string) (txs : list Transaction) :
  ~ In a (endpoints txs) -> sent_by a txs = [] /\ received_by a txs = [].
Proof.
  unfold endpoints, sent_by, received_by.
  induction txs as [|t txs IH]; simpl; [auto|].
  intros H.
  destruct (String.eqb (sender_id t) a) eqn:Es.
  { apply String.eqb_eq in Es. tauto. }
  destruct (String.eqb (receiver_id t) a) eqn:Er.
  { apply String.eqb_eq in Er. tauto. }
  apply IH. tauto.
Qed.

Lemma node_of_fresh (a : string) (txs : list Transaction) :
  ~ In a (endpoints txs) ->
  node_of a txs = mkNode a 0 0 0 [] [] false 0%Z [] None.
Proof.
  intros H. unfold node_of. destruct (not_endpoint a txs H) as [-> ->].
  reflexivity.
Qed.

Lemma node_of_snoc (a : string) (txs : list Transaction) (t : Transaction) :
  node_of a (txs ++ [t])
  = (if String.eqb a (receiver_id t) then record_received t else fun n => n)
      ((if String.eqb a (sender_id t) then record_sent t else fun n => n)
         (node_of a txs)).
Proof.
  unfold node_of, sent_by, received_by. rewrite !filter_app. cbn [filter].
  rewrite (String.eqb_sym (sender_id t) a), (String.eqb_sym (receiver_id t) a).
  destruct (String.eqb a (sender_id t)), (String.eqb a (receiver_id t));
    unfold record_sent, record_received;
    cbn [id totalTransactions totalSent totalReceived uniqueSenders
         uniqueReceivers isSuspicious suspicionScore detectedPatterns ringId];
    rewrite ?app_nil_r, ?map_app, ?length_app; cbn [map length];
    rewrite ?Qsum_snoc, ?of_list_snoc; f_equal; lia.
Qed.

(** The table holds, under each account named by the batch, exactly the
    record [node_of]; other keys are missing. *)
Lemma graph_loop_node_get (txs : list Transaction) (a : string) :
  node_get a (nodes (graph_loop txs))
  = if OSet.has a (endpoints txs) then Some (node_of a txs) else None.
Proof.
  induction txs as [|t txs IH] using rev_ind; [reflexivity|].
  rewrite graph_loop_snoc. unfold add_transaction. cbn [nodes].
  rewrite !node_get_update by (intros n; reflexivity).
  rewrite !node_get_ensure, IH, node_of_snoc, endpoints_snoc.
  assert (Hhas : OSet.has a (endpoints txs ++ [sender_id t; receiver_id t])
                 = OSet.has a (endpoints txs)
                   || String.eqb a (sender_id t) || String.eqb a (receiver_id t)).
  { unfold OSet.has. rewrite existsb_app. simpl.
    now rewrite orb_false_r, orb_assoc. }
  rewrite Hhas.
  destruct (OSet.has a (endpoints txs)) eqn:Ea.
  - simpl. destruct (String.eqb a (sender_id t)), (String.eqb a (receiver_id t));
      reflexivity.
  - apply OSet_has_false in Ea. rewrite (node_of_fresh a txs Ea).
    destruct (String.eqb a (sender_id t)) eqn:Es;
      destruct (String.eqb a (receiver_id t)) eqn:Er; simpl;
      try (apply String.eqb_eq in Es; subst a);
      try (apply String.eqb_eq in Er; try subst a); reflexivity.
Qed.

Lemma graph_loop_edges (txs : list Transaction) :
  edges (graph_loop txs) = map edge_of txs.
Proof.
  induction txs as [|t txs IH] using rev_ind; [reflexivity|].
  rewrite graph_loop_snoc, map_app. simpl. now rewrite IH.
Qed.

Lemma insert_by_time_perm (e : GraphEdge) (l : list GraphEdge) :
  Permutation (e :: l) (insert_by_time e l).
Proof.
  induction l as [|x l IH]; simpl; auto.
  destruct (timestamp e <=? timestamp x)%Z; auto.
  rewrite perm_swap. now apply perm_skip.
Qed.

Lemma sort_by_time_perm (l : list GraphEdge) : Permutation l (sort_by_time l).
Proof.
  induction l as [|x l IH]; simpl; auto.
  rewrite <- insert_by_time_perm. now apply perm_skip.
Qed.

(** X1: the builder emits one edge per transaction, in transaction order
    and without deduplication; [edgesByTime] holds the same edges in
    ascending timestamp order. *)
Theorem buildGraph_edges (txs : list Transaction) :
  edges (buildGraph txs) = map edge_of txs
  /\ Permutation (edges (buildGraph txs)) (edgesByTime (buildGraph txs))
  /\ StronglySorted time_le (edgesByTime (buildGraph txs)).
Proof.
  unfold buildGraph. cbn [edges edgesByTime]. fold (graph_loop txs).
  split; [apply graph_loop_edges|].
  split; [apply sort_by_time_perm|apply sort_by_time_sorted].
Qed.

Lemma graph_loop_ids (txs : list Transaction) :
  map id (nodes (graph_loop txs)) = OSet.of_list (endpoints txs).
Proof.
  induction txs as [|t txs IH] using rev_ind; [reflexivity|].
  rewrite graph_loop_snoc, add_transaction_ids, !ensureNode_ids, IH.
  rewrite endpoints_snoc, of_list_app. reflexivity.
Qed.

Lemma of_list_NoDup (xs : list string) : NoDup (OSet.of_list xs).
Proof. apply of_list_fold_NoDup. constructor. Qed.

Lemma of_list_In (xs : list string) (x : string) :
  In x (OSet.of_list xs) <-> In x xs.
Proof.
  unfold OSet.of_list. rewrite of_list_fold_In. simpl. tauto.
Qed.

(** X2: the node table has one node per account named by the batch, in the
    order of first appearance (sender before receiver), without
    duplicates. *)
Theorem buildGraph_node_ids (txs : list Transaction) :
  map id (nodes (buildGraph txs)) = OSet.of_list (endpoints txs)
  /\ NoDup (map id (nodes (buildGraph txs)))
  /\ (forall a, In a (map id (nodes (buildGraph txs)))
                <-> exists t, In t txs /\ (sender_id t = a \/ receiver_id t = a)).
Proof.
  unfold buildGraph. cbn [nodes]. fold (graph_loop txs).
  rewrite graph_loop_ids. split; [reflexivity|].
  split; [apply of_list_NoDup|].
  intros a. rewrite of_list_In. unfold endpoints. rewrite in_flat_map.
  split; intros [t [Ht H]]; exists t; split; auto; simpl in *; tauto.
Qed.


Lemma neighbors_adj_add (a b x : string) (adj : list (string * list string)) :
  neighbors_of (adj_add a b adj) x
  = if String.eqb x a then OSet.add b (neighbors_of adj x) else neighbors_of adj x.
Proof.
  unfold neighbors_of, adj_add, OMap.has.
  destruct (OMap.get a adj) as [s|] eqn:Ea.
  - rewrite get_alter. destruct (String.eqb x a) eqn:E; auto.
    apply String.eqb_eq in E. subst. now rewrite Ea.
  - destruct (String.eqb x a) eqn:E.
    + apply String.eqb_eq in E. subst. rewrite get_app_None, Ea by auto.
      simpl. now rewrite String.eqb_refl.
    + destruct (OMap.get x adj) as [s|] eqn:Ex.
      * now rewrite (get_app_Some _ _ _ _ Ex).
      * rewrite get_app_None by auto. simpl. now rewrite E.
Qed.

Lemma graph_loop_neighbors (txs : list Transaction) (a : string) :
  neighbors_of (adjacency (graph_loop txs)) a
  = OSet.of_list (map receiver_id (sent_by a txs))
  /\ neighbors_of (reverseAdj (graph_loop txs)) a
     = OSet.of_list (map sender_id (received_by a txs)).
Proof.
  induction txs as [|t txs [IH1 IH2]] using rev_ind; [split; reflexivity|].
  rewrite graph_loop_snoc. unfold add_transaction. cbn [adjacency reverseAdj].
  rewrite !neighbors_adj_add, IH1, IH2.
  unfold sent_by, received_by. rewrite !filter_app. cbn [filter].
  rewrite (String.eqb_sym (sender_id t) a), (String.eqb_sym (receiver_id t) a).
  split.
  - destruct (String.eqb a (sender_id t)).
    + rewrite map_app. cbn [map]. now rewrite of_list_snoc.
    + now rewrite app_nil_r.
  - destruct (String.eqb a (receiver_id t)).
    + rewrite map_app. cbn [map]. now rewrite of_list_snoc.
    + now rewrite app_nil_r.
Qed.


(** ** High velocity detection *)

Lemma flagged_fold_In {V : Type} (flag : V -> bool)
  (groups : list (string * V)) (acc : list string) (a : string) :
  In a (fold_left
          (fun acc entry =>
             if flag (snd entry) then OSet.add (fst entry) acc else acc)
          groups acc)
  <-> In a acc \/ exists l, In (a, l) groups /\ flag l = true.
Proof.
  revert acc. induction groups as [|[k l0] groups IH]; simpl; intros acc.
  - split; [auto|]. intros [H|[l [[] _]]]. exact H.
  - rewrite IH. destruct (flag l0) eqn:Ef.
    + rewrite OSet_add_In. split.
      * intros [[->|H]|[l [Hin Hf]]]; eauto.
      * intros [H|[l [[Heq|Hin] Hf]]]; eauto.
        inversion Heq; subst. auto.
    + split.
      * intros [H|[l [Hin Hf]]]; eauto.
      * intros [H|[l [[Heq|Hin] Hf]]]; eauto.
        inversion Heq; subst. congruence.
Qed.








(** ** Completeness of the cycle detector *)

Lemma emit_cycle_has_key (path : list string) (st : CycleState) :
  In (cycle_key path) (seenCycles (emit_cycle path st)).
Proof.
  unfold emit_cycle.
  destruct (OSet.has (cycle_key path) (seenCycles st)) eqn:E.
  - now apply OSet_has_In.
  - simpl. apply OSet_add_In. now left.
Qed.

Lemma emit_cycle_seen_mono (k : string) (path : list string) (st : CycleState) :
  In k (seenCycles st) -> In k (seenCycles (emit_cycle path st)).
Proof.
  intros H. unfold emit_cycle.
  destruct (OSet.has (cycle_key path) (seenCycles st)); auto.
  simpl. apply OSet_add_In. now right.
Qed.

Lemma dfs_seen_mono (k : string) (adj : list (string * list string))
  (start : string) :
  forall fuel current depth path visited st,
    In k (seenCycles st) ->
    In k (seenCycles (dfs fuel adj start current depth path visited st)).
Proof.
  induction fuel as [|fuel IH]; intros current depth path visited st H;
    cbn [dfs]; auto.
  destruct (5 <? depth); auto.
  apply fold_left_invariant; auto.
  intros st' y Hst' _.
  destruct (String.eqb y start && (3 <=? depth)).
  - now apply emit_cycle_seen_mono.
  - destruct (negb (OSet.has y visited) && (depth <? 5)); auto.
Qed.

(** A loop that keeps [Q] once it holds, and establishes it at one of its
    elements, ends with [Q]. *)
Lemma fold_left_reaches {A B : Type} (Q : A -> Prop) (f : A -> B -> A)
  (l : list B) (x : B) (a : A) :
  In x l -> (forall a b, Q a -> Q (f a b)) -> (forall a, Q (f a x)) ->
  Q (fold_left f l a).
Proof.
  intros Hx Hmono Hest. revert a.
  induction l as [|y l IH]; [destruct Hx|]. intros a. simpl.
  destruct Hx as [->|Hx].
  - apply fold_left_invariant; auto.
  - now apply IH.
Qed.

Lemma chain_app_inv (adj : list (string * list string)) (p : list string)
  (v : string) (rest : list string) :
  p <> [] -> chain adj (p ++ v :: rest) ->
  In v (neighbors_of adj (last p "")).
Proof.
  induction p as [|x p IH]; [congruence|]. intros _ H.
  destruct p as [|y p].
  - simpl in *. tauto.
  - change ((x :: y :: p) ++ v :: rest) with (x :: (y :: p) ++ v :: rest) in H.
    cbn [chain app] in H. destruct H as [_ H].
    change (last (x :: y :: p) "") with (last (y :: p) "").
    apply IH; [discriminate|exact H].
Qed.

Lemma dfs_complete (adj : list (string * list string)) (start : string) :
  forall rest fuel current depth path visited st,
    6 <= fuel + depth ->
    length path = depth -> path <> [] ->
    last path "" = current -> hd "" path = start ->
    (forall x, In x visited -> In x path) ->
    cycle_ok adj (path ++ rest) ->
    In (cycle_key (path ++ rest))
       (seenCycles (dfs fuel adj start current depth path visited st)).
Proof.
  induction rest as [|v rest IH];
    intros fuel current depth path visited st Hfuel Hlen Hne Hlast Hhd Hvis Hcyc.
  - rewrite app_nil_r in *. destruct Hcyc as [[H3 H5] [Hnd [Hch Hclose]]].
    destruct fuel as [|fuel]; [lia|]. cbn [dfs].
    replace (5 <? depth) with false by (symmetry; apply Nat.ltb_ge; lia).
    apply (fold_left_reaches (fun s => In (cycle_key path) (seenCycles s))
                             _ _ start).
    + rewrite <- Hlast, <- Hhd. exact Hclose.
    + intros st' y Hst'.
      destruct (String.eqb y start && (3 <=? depth)).
      * now apply emit_cycle_seen_mono.
      * destruct (negb (OSet.has y visited) && (depth <? 5)); auto.
        now apply dfs_seen_mono.
    + intros st'. rewrite String.eqb_refl.
      replace (3 <=? depth) with true by (symmetry; apply Nat.leb_le; lia).
      apply emit_cycle_has_key.
  - assert (Hcyc' := Hcyc). destruct Hcyc as [[H3 H5] [Hnd [Hch Hclose]]].
    rewrite length_app in H5. simpl in H5.
    destruct fuel as [|fuel]; [lia|]. cbn [dfs].
    replace (5 <? depth) with false by (symmetry; apply Nat.ltb_ge; lia).
    assert (Hv : ~ In v path).
    { intros Hin. apply NoDup_remove_2 in Hnd. apply Hnd.
      apply in_app_iff. now left. }
    assert (Hvs : v <> start).
    { intros ->. apply Hv. destruct path; [congruence|]. simpl in Hhd. now left. }
    apply (fold_left_reaches
             (fun s => In (cycle_key (path ++ v :: rest)) (seenCycles s)) _ _ v).
    + rewrite <- Hlast. eapply chain_app_inv; eauto.
    + intros st' y Hst'.
      destruct (String.eqb y start && (3 <=? depth)).
      * now apply emit_cycle_seen_mono.
      * destruct (negb (OSet.has y visited) && (depth <? 5)); auto.
        now apply dfs_seen_mono.
    + intros st'.
      replace (String.eqb v start) with false
        by (symmetry; now apply String.eqb_neq).
      cbn [andb].
      replace (OSet.has v visited) with false.
      2:{ symmetry. apply OSet_has_false. intros H. apply Hv, Hvis, H. }
      replace (depth <? 5) with true by (symmetry; apply Nat.ltb_lt; lia).
      cbn [negb andb].
      replace (path ++ v :: rest) with ((path ++ [v]) ++ rest)
        by (now rewrite <- app_assoc).
      apply IH.
      * lia.
      * rewrite length_app. simpl. lia.
      * destruct path; discriminate.
      * apply last_last.
      * destruct path; [congruence|exact Hhd].
      * intros x Hx. apply OSet_add_In in Hx. apply in_app_iff.
        destruct Hx as [->|Hx]; [right; now left|left; auto].
      * now rewrite <- app_assoc.
Qed.

Lemma detectCycles_seen_key (adj : list (string * list string))
  (nodeIds : list string) (p : list string) :
  In (hd "" p) nodeIds -> cycle_ok adj p ->
  In (cycle_key p) (map cycle_key (detectCycles adj nodeIds)).
Proof.
  intros Hseed Hcyc. unfold detectCycles.
  assert (Hinv : seen_inv (fold_left (dfs_from adj) nodeIds (mkCycleState [] []))).
  { apply fold_left_invariant.
    - split; simpl; [reflexivity|constructor].
    - intros st s Hst _. now apply dfs_seen_inv. }
  destruct Hinv as [Heq _]. rewrite <- Heq.
  apply (fold_left_reaches (fun s => In (cycle_key p) (seenCycles s))
                           _ _ (hd "" p)); auto.
  - intros st s Hst. unfold dfs_from. now apply dfs_seen_mono.
  - intros st. unfold dfs_from.
    destruct p as [|x p]; [destruct Hcyc as [[H _] _]; simpl in H; lia|].
    cbn [hd]. change (x :: p) with ([x] ++ p).
    apply dfs_complete; auto; simpl; try lia; try discriminate.
Qed.

Lemma bar_free_append_bar (s r : string) :
  bar_free (String.append s (String "|" r)) = false.
Proof.
  induction s as [|c s IH]; simpl; auto.
  rewrite IH. apply andb_false_r.
Qed.

Lemma append_bar_split (s s' r r' : string) :
  bar_free s = true -> bar_free s' = true ->
  String.append s (String "|" r) = String.append s' (String "|" r') ->
  s = s' /\ r = r'.
Proof.
  revert s'. induction s as [|c s IH]; intros [|c' s'] Hs Hs' H; simpl in *.
  - inversion H. auto.
  - inversion H; subst. discriminate.
  - inversion H; subst. discriminate.
  - inversion H; subst.
    apply andb_true_iff in Hs, Hs'.
    destruct (IH s' (proj2 Hs) (proj2 Hs') H2) as [-> ->]. auto.
Qed.

(** On identifiers without ['|'] the join of the key loses nothing. *)
Lemma concat_bar_inj (l1 l2 : list string) :
  Forall (fun s => bar_free s = true) l1 ->
  Forall (fun s => bar_free s = true) l2 ->
  l1 <> [] -> l2 <> [] ->
  String.concat "|" l1 = String.concat "|" l2 -> l1 = l2.
Proof.
  intros H1. revert l2. induction H1 as [|x l1 Hx Hl1 IH]; [congruence|].
  intros l2 H2 _ Hne2 Heq.
  destruct H2 as [|y l2 Hy Hl2]; [congruence|].
  destruct l1 as [|x2 l1], l2 as [|y2 l2]; cbn [String.concat] in Heq.
  - now subst.
  - subst x. cbn [String.append] in Hx.
    rewrite bar_free_append_bar in Hx. discriminate.
  - subst y. cbn [String.append] in Hy.
    rewrite bar_free_append_bar in Hy. discriminate.
  - cbn [String.append] in Heq.
    apply append_bar_split in Heq; auto. destruct Heq as [-> Heq].
    f_equal. apply IH; auto; discriminate.
Qed.

Lemma cycle_members_are_neighbors (adj : list (string * list string))
  (c : list string) (x : string) :
  chain adj c -> In (hd "" c) (neighbors_of adj (last c "")) -> In x c ->
  exists k, In x (neighbors_of adj k).
Proof.
  intros Hch Hclose Hx. destruct c as [|h c]; [destruct Hx|].
  destruct Hx as [->|Hx]; [eauto|].
  clear Hclose. revert h Hch. induction c as [|y c IH]; [destruct Hx|].
  intros h [Hy Hch]. destruct Hx as [->|Hx]; eauto.
Qed.

(** X6: every simple directed cycle of 3 to 5 nodes that starts at one of
    the seeds is represented in the output: some reported cycle has the
    same deduplication key, and when no account id contains ['|'] it has
    the same members. *)
Theorem detectCycles_complete (adj : list (string * list string))
  (nodeIds p : list string) :
  In (hd "" p) nodeIds -> cycle_ok adj p ->
  exists c, In c (detectCycles adj nodeIds)
            /\ cycle_key c = cycle_key p
            /\ ((forall k x, In x (neighbors_of adj k) -> bar_free x = true)
                -> Permutation c p).
Proof.
  intros Hseed Hp.
  assert (H := detectCycles_seen_key adj nodeIds p Hseed Hp).
  apply in_map_iff in H. destruct H as [c [Hkey Hc]].
  exists c. split; [exact Hc|]. split; [exact Hkey|].
  intros Hbar.
  assert (Hcok : cycle_ok adj c).
  { assert (Hall := detectCycles_all_ok adj nodeIds).
    rewrite Forall_forall in Hall. now apply Hall. }
  assert (Hfree : forall q, cycle_ok adj q ->
            Forall (fun s => bar_free s = true) (sort_strings q)).
  { intros q [_ [_ [Hch Hcl]]]. apply Forall_forall. intros x Hx.
    apply (Permutation_in _ (Permutation_sym (sort_strings_perm q))) in Hx.
    destruct (cycle_members_are_neighbors adj q x Hch Hcl Hx) as [k Hk].
    eapply Hbar; eauto. }
  assert (Hnonempty : forall q, cycle_ok adj q -> sort_strings q <> []).
  { intros q [[H3 _] _] Hnil.
    assert (Hl := Permutation_length (sort_strings_perm q)).
    rewrite Hnil in Hl. simpl in Hl. lia. }
  unfold cycle_key in Hkey.
  apply concat_bar_inj in Hkey; auto.
  rewrite (sort_strings_perm c), Hkey. symmetry. apply sort_strings_perm.
Qed.

Lemma detectCycles_complete_witness :
  exists c, In c (detectCycles (adjacency (buildGraph two_way_triangle))
                               ["A"; "B"; "C"])
            /\ cycle_key c = cycle_key ["A"; "C"; "B"].
Proof.
  destruct (detectCycles_complete (adjacency (buildGraph two_way_triangle))
              ["A"; "B"; "C"] ["A"; "C"; "B"]) as [c [Hc [Hk _]]].
  - simpl. auto.
  - unfold cycle_ok. split; [simpl; lia|]. split.
    + repeat constructor; simpl; intuition discriminate.
    + vm_compute. intuition.
  - exists c. auto.
Defined.

(** ** The cycle labels and the scores *)

Lemma note_members_get (len : nat) (members : list string)
  (cn : list (string * (nat * string))) (a : string) :
  OMap.get a (fold_left (note_member len) members cn)
  = if OSet.has a members
    then match OMap.get a cn with
         | None => Some (len, "")
         | Some info => if len <? fst info then Some (len, "") else Some info
         end
    else OMap.get a cn.
Proof.
  revert cn. induction members as [|m members IH]; intros cn; [reflexivity|].
  cbn [fold_left]. rewrite IH. unfold OSet.has. cbn [existsb].
  fold (OSet.has a members).
  assert (Hstep : OMap.get a (note_member len cn m)
                  = if String.eqb a m
                    then match OMap.get a cn with
                         | None => Some (len, "")
                         | Some info =>
                             if len <? fst info then Some (len, "") else Some info
                         end
                    else OMap.get a cn).
  { unfold note_member. destruct (String.eqb a m) eqn:E.
    - apply String.eqb_eq in E. subst m.
      destruct (OMap.get a cn) as [info|] eqn:Eg.
      + destruct (len <? fst info) eqn:El; [|exact Eg].
        now rewrite OMap_get_set, String.eqb_refl.
      + now rewrite OMap_get_set, String.eqb_refl.
    - destruct (OMap.get m cn) as [info|].
      + destruct (len <? fst info); [|reflexivity]. now rewrite OMap_get_set, E.
      + now rewrite OMap_get_set, E. }
  rewrite Hstep.
  destruct (String.eqb a m) eqn:E; cbn [orb]; [|reflexivity].
  destruct (OSet.has a members); [|reflexivity].
  destruct (OMap.get a cn) as [info|]; cbn [fst].
  - destruct (len <? fst info) eqn:El; cbn [fst].
    + now rewrite Nat.ltb_irrefl.
    + now rewrite El.
  - now rewrite Nat.ltb_irrefl.
Qed.

Lemma build_cycleNodes_snoc (cs : list (list string)) (c : list string) :
  build_cycleNodes (cs ++ [c])
  = fold_left (note_member (length c)) c (build_cycleNodes cs).
Proof. unfold build_cycleNodes. now rewrite fold_left_app. Qed.

(** The entry of an account in [cycleNodes] after the loops over the
    cycles. *)
Lemma build_cycleNodes_entry (cs : list (list string)) (a : string) :
  cycleNodes_entry_ok cs a (OMap.get a (build_cycleNodes cs)).
Proof.
  unfold cycleNodes_entry_ok, shortest_cycle_length.
  induction cs as [|c cs IH] using rev_ind.
  - simpl. intros c [].
  - rewrite build_cycleNodes_snoc, note_members_get.
    destruct (OSet.has a c) eqn:Ha.
    + apply OSet_has_In in Ha.
      destruct (OMap.get a (build_cycleNodes cs)) as [info|]; cbn [fst snd] in IH |- *.
      * destruct IH as [Hr [[c0 [Hc0 [Hac0 Hlen0]]] Hmin]].
        destruct (length c <? fst info) eqn:El; cbn [fst snd].
        -- apply Nat.ltb_lt in El. split; [reflexivity|]. split.
           ++ exists c. rewrite in_app_iff. simpl. auto.
           ++ intros c' Hc' Hac'. apply in_app_iff in Hc'.
              destruct Hc' as [Hc'|[<-|[]]]; [|lia].
              specialize (Hmin c' Hc' Hac'). lia.
        -- apply Nat.ltb_ge in El. split; [exact Hr|]. split.
           ++ exists c0. rewrite in_app_iff. auto.
           ++ intros c' Hc' Hac'. apply in_app_iff in Hc'.
              destruct Hc' as [Hc'|[<-|[]]]; [auto|lia].
      * split; [reflexivity|]. split.
        -- exists c. rewrite in_app_iff. simpl. auto.
        -- intros c' Hc' Hac'. apply in_app_iff in Hc'.
           destruct Hc' as [Hc'|[<-|[]]]; [|simpl; lia].
           exfalso. exact (IH c' Hc' Hac').
    + apply OSet_has_false in Ha.
      destruct (OMap.get a (build_cycleNodes cs)) as [info|]; cbn [fst snd] in IH |- *.
      * destruct IH as [Hr [[c0 [Hc0 [Hac0 Hlen0]]] Hmin]].
        split; [exact Hr|]. split.
        -- exists c0. rewrite in_app_iff. auto.
        -- intros c' Hc' Hac'. apply in_app_iff in Hc'.
           destruct Hc' as [Hc'|[<-|[]]]; [auto|contradiction].
      * intros c' Hc'. apply in_app_iff in Hc'.
        destruct Hc' as [Hc'|[<-|[]]]; auto.
Qed.




(** ** The payroll filter, exactly *)

Lemma node_update_map (f : GraphNode -> GraphNode) (k : string) (t : NodeTable) :
  NoDup (map id t) ->
  node_update f k t = map (fun n => if String.eqb k (id n) then f n else n) t.
Proof.
  induction t as [|n t IH]; simpl; intros Hnd; auto.
  inversion Hnd as [|? ? Hn Hnd']; subst.
  destruct (String.eqb k (id n)) eqn:Ek.
  - f_equal. apply String.eqb_eq in Ek. subst k.
    clear IH Hnd Hnd'. induction t as [|m t IHt]; simpl; auto.
    simpl in Hn. destruct (String.eqb (id n) (id m)) eqn:E.
    + apply String.eqb_eq in E. exfalso. apply Hn. left. now symmetry.
    + f_equal. apply IHt. tauto.
  - f_equal. now apply IH.
Qed.

Lemma node_get_None_map (f : GraphNode -> GraphNode) (k : string) (t : NodeTable) :
  node_get k t = None ->
  map (fun n => if String.eqb k (id n) then f n else n) t = t.
Proof.
  induction t as [|n t IH]; simpl; auto.
  destruct (String.eqb k (id n)); [discriminate|].
  intros H. f_equal. now apply IH.
Qed.

Lemma node_get_unique (k : string) (t : NodeTable) (node n : GraphNode) :
  NoDup (map id t) -> node_get k t = Some node -> In n t -> id n = k ->
  n = node.
Proof.
  induction t as [|m t IH]; simpl; [tauto|].
  intros Hnd Hget Hin Hid. inversion Hnd as [|? ? Hm Hnd']; subst.
  destruct (String.eqb (id n) (id m)) eqn:Ek.
  - inversion Hget; subst. apply String.eqb_eq in Ek.
    destruct Hin as [H|H]; [now symmetry|].
    exfalso. apply Hm. rewrite <- Ek. now apply in_map.
  - destruct Hin as [H|H]; [subst; rewrite String.eqb_refl in Ek; discriminate|].
    now apply IH.
Qed.

Lemma filter_sender_map (t : NodeTable) (k : string) (l : list Q) :
  NoDup (map id t) ->
  filter_sender t (k, l)
  = map (fun n =>
           if String.eqb k (id n) && is_payroll l
              && includes fan_out (detectedPatterns n)
              && negb (existsb startsWith_cycle (detectedPatterns n))
           then drop_fan_out n else n) t.
Proof.
  intros Hnd. unfold filter_sender. cbn [fst snd].
  destruct (node_get k t) as [node|] eqn:Hget.
  - assert (Hsame : forall (b : bool) (g : GraphNode -> GraphNode),
              (forall n, In n t -> id n = k -> b = true -> g n = drop_fan_out n) ->
              (forall n, In n t -> id n = k -> b = false -> g n = n) ->
              (forall n, id n <> k -> g n = n) ->
              (if b then node_update drop_fan_out k t else t) = map g t).
    { intros b g Ht Hf Hother. destruct b.
      - rewrite node_update_map by exact Hnd. apply map_ext_in. intros n Hn.
        destruct (String.eqb k (id n)) eqn:E.
        + apply String.eqb_eq in E. symmetry. now apply Ht.
        + apply String.eqb_neq in E. symmetry. apply Hother. congruence.
      - rewrite <- (map_id t) at 1. apply map_ext_in. intros n Hn.
        destruct (String.eqb k (id n)) eqn:E.
        + apply String.eqb_eq in E. symmetry. now apply Hf.
        + apply String.eqb_neq in E. symmetry. apply Hother. congruence. }
    rewrite <- (Hsame (is_payroll l
                       && includes fan_out (detectedPatterns node)
                       && negb (existsb startsWith_cycle (detectedPatterns node)))).
    + destruct (is_payroll l); [|reflexivity]. cbn [andb].
      destruct (includes fan_out (detectedPatterns node)); cbn [negb orb andb];
        [|reflexivity].
      destruct (existsb startsWith_cycle (detectedPatterns node)); reflexivity.
    + intros n Hn Hid Hb.
      rewrite (node_get_unique k t node n Hnd Hget Hn Hid).
      assert (String.eqb k (id node) = true) as ->.
      { apply String.eqb_eq. now destruct (node_get_In _ _ _ Hget). }
      cbn [andb]. rewrite <- !andb_assoc in Hb |- *. now rewrite Hb.
    + intros n Hn Hid Hb.
      rewrite (node_get_unique k t node n Hnd Hget Hn Hid).
      assert (String.eqb k (id node) = true) as ->.
      { apply String.eqb_eq. now destruct (node_get_In _ _ _ Hget). }
      cbn [andb]. rewrite <- !andb_assoc in Hb |- *. now rewrite Hb.
    + intros n Hid.
      replace (String.eqb k (id n)) with false; [reflexivity|].
      symmetry. apply String.eqb_neq. congruence.
  - rewrite <- (map_id t) at 1. apply map_ext_in. intros n Hn.
    destruct (String.eqb k (id n)) eqn:E; [|reflexivity].
    apply String.eqb_eq in E. exfalso.
    clear - Hget Hn E. induction t as [|m t IH]; simpl in *; [tauto|].
    destruct (String.eqb k (id m)) eqn:Em; [discriminate|].
    destruct Hn as [->|Hn]; [|auto].
    subst k. rewrite String.eqb_refl in Em. discriminate.
Qed.

Lemma apply_exemption_id (es : list GraphEdge) (n : GraphNode) :
  id (apply_exemption es n) = id n.
Proof.
  unfold apply_exemption. destruct (payroll_exempt es n); [|reflexivity].
  apply drop_fan_out_frame.
Qed.

Lemma filter_entries_map (es : list GraphEdge) (t : NodeTable) :
  NoDup (map id t) ->
  forall entries,
    NoDup (map fst entries) ->
    (forall k l, In (k, l) entries -> l = amounts_of k es) ->
    fold_left filter_sender entries t
    = map (fun n => if OSet.has (id n) (map fst entries)
                    then apply_exemption es n else n) t.
Proof.
  intros Hnd entries. induction entries as [|[k l] entries IH] using rev_ind;
    intros Hkeys Hval.
  - simpl. symmetry. apply map_id.
  - rewrite fold_left_app. cbn [fold_left].
    rewrite map_app in Hkeys. cbn [map fst] in Hkeys.
    assert (Hk : ~ In k (map fst entries)).
    { apply NoDup_remove_2 in Hkeys. now rewrite app_nil_r in Hkeys. }
    apply NoDup_remove_1 in Hkeys. rewrite app_nil_r in Hkeys.
    rewrite IH; auto.
    2:{ intros k' l' H. apply Hval. apply in_app_iff. now left. }
    rewrite filter_sender_map.
    2:{ rewrite map_map. erewrite map_ext; [exact Hnd|].
        intros n. cbn beta.
        destruct (OSet.has (id n) (map fst entries)); [|reflexivity].
        apply apply_exemption_id. }
    rewrite map_map. apply map_ext. intros n.
    assert (Hl : l = amounts_of k es).
    { apply Hval. apply in_app_iff. right. now left. }
    rewrite map_app. cbn [map fst].
    assert (Hhas : OSet.has (id n) (map fst entries ++ [k])
                   = OSet.has (id n) (map fst entries) || String.eqb (id n) k).
    { unfold OSet.has. rewrite existsb_app. simpl. now rewrite orb_false_r. }
    rewrite Hhas.
    destruct (OSet.has (id n) (map fst entries)) eqn:Ein.
    + cbn [orb]. rewrite apply_exemption_id.
      replace (String.eqb k (id n)) with false; [reflexivity|].
      symmetry. apply String.eqb_neq. intros ->.
      apply OSet_has_In in Ein. contradiction.
    + cbn [orb]. rewrite (String.eqb_sym (id n) k).
      destruct (String.eqb k (id n)) eqn:E; [|reflexivity].
      apply String.eqb_eq in E. subst k l.
      unfold apply_exemption, payroll_exempt. cbn [andb]. reflexivity.
Qed.

Lemma filter_is_exemption_map (es : list GraphEdge) (t0 : NodeTable) :
  NoDup (map id t0) ->
  fst (filterFalsePositives t0 es) = map (apply_exemption es) t0.
Proof.
  intros Hnd. unfold filterFalsePositives. cbn [fst].
  rewrite (filter_entries_map es t0 Hnd).
  - apply map_ext. intros n.
    destruct (OSet.has (id n) (map fst (amounts_by_sender es))) eqn:E; auto.
    apply OSet_has_false in E.
    apply (get_None_keys (id n) (amounts_by_sender es)) in E.
    unfold amounts_by_sender in E.
    change (fold_left (fun m e => OMap.push (source e) (e_amount e) m) es [])
      with (grouped source e_amount es) in E.
    rewrite grouped_get in E.
    unfold apply_exemption, payroll_exempt, amounts_of.
    change (map e_amount (filter (fun e => String.eqb (source e) (id n)) es))
      with (members source e_amount (id n) es).
    destruct (members source e_amount (id n) es); [reflexivity|discriminate].
  - apply (grouped_keys_NoDup source e_amount es).
  - intros k l. apply amounts_by_sender_In.
Qed.



(** ** What the tags of the report mean *)

Lemma score_node_patterns (cn : list (string * (nat * string)))
  (fi fo sh hv : list string) (n : GraphNode) :
  id (score_node cn fi fo sh hv n) = id n
  /\ detectedPatterns (score_node cn fi fo sh hv n)
     = tags (option_map fst (OMap.get (id n) cn))
            (OSet.has (id n) fi) (OSet.has (id n) fo)
            (OSet.has (id n) sh) (OSet.has (id n) hv).
Proof.
  unfold score_node. split; [reflexivity|].
  destruct (OMap.get (id n) cn) as [info|];
    destruct (OSet.has (id n) fi), (OSet.has (id n) fo),
             (OSet.has (id n) sh), (OSet.has (id n) hv); reflexivity.
Qed.


Lemma cycle_entry_Some (cs : list (list string)) (a : string) (k : nat) :
  option_map fst (OMap.get a (build_cycleNodes cs)) = Some k
  <-> shortest_cycle_length cs a k.
Proof.
  assert (H := build_cycleNodes_entry cs a).
  destruct (OMap.get a (build_cycleNodes cs)) as [info|]; cbn in H |- *.
  - destruct H as [_ [[c [Hc [Hac Hlen]]] Hmin]]. split.
    + intros Heq. inversion Heq; subst. split; eauto.
    + intros [[c' [Hc' [Hac' Hlen']]] Hmin']. f_equal.
      specialize (Hmin c' Hc' Hac'). specialize (Hmin' c Hc Hac). lia.
  - split; [discriminate|]. intros [[c [Hc [Hac _]]] _].
    exfalso. exact (H c Hc Hac).
Qed.

Lemma cycle_entry_not_None (cs : list (list string)) (a : string) :
  option_map fst (OMap.get a (build_cycleNodes cs)) <> None
  <-> exists c, In c cs /\ In a c.
Proof.
  assert (H := build_cycleNodes_entry cs a).
  destruct (OMap.get a (build_cycleNodes cs)) as [info|]; cbn in H |- *.
  - destruct H as [_ [[c [Hc [Hac _]]] _]]. split; [eauto|discriminate].
  - split; [congruence|]. intros [c [Hc Hac]]. exfalso. exact (H c Hc Hac).
Qed.

(** X9: the map [cycleNodes] has an entry exactly for the accounts that lie
    on a detected cycle; the entry holds the length of a shortest detected
    cycle through the account, and the empty placeholder as ring id. *)
Theorem cycleNodes_shortest_cycle (cs : list (list string)) (a : string) :
  (OMap.get a (build_cycleNodes cs) = None <-> ~ on_cycle cs a)
  /\ (forall k, option_map fst (OMap.get a (build_cycleNodes cs)) = Some k
                <-> shortest_cycle_length cs a k)
  /\ (option_map snd (OMap.get a (build_cycleNodes cs)) = None
      \/ option_map snd (OMap.get a (build_cycleNodes cs)) = Some "").
Proof.
  split; [|split].
  - assert (H := cycle_entry_not_None cs a). unfold on_cycle.
    destruct (OMap.get a (build_cycleNodes cs)) as [info|]; cbn in H.
    + split; [discriminate|]. intros Hno. exfalso. apply Hno, H. discriminate.
    + split; [|reflexivity]. intros _ Hc. apply H in Hc. congruence.
  - intros k. apply cycle_entry_Some.
  - assert (H := build_cycleNodes_entry cs a).
    destruct (OMap.get a (build_cycleNodes cs)) as [info|]; cbn in H |- *.
    + right. f_equal. apply H.
    + now left.
Qed.

Lemma scored_nodes_ids (transactions : list Transaction) :
  map id (scored_nodes transactions) = map id (nodes (buildGraph transactions)).
Proof.
  unfold scored_nodes, scoreAccounts. rewrite map_map. apply map_ext.
  intros n. apply score_node_patterns.
Qed.

Lemma filtered_nodes_exact (transactions : list Transaction) :
  filtered_nodes transactions
  = map (apply_exemption (edges (buildGraph transactions)))
        (scored_nodes transactions).
Proof.
  unfold filtered_nodes. apply filter_is_exemption_map.
  rewrite scored_nodes_ids. unfold buildGraph. cbn [nodes].
  fold (graph_loop transactions). rewrite graph_loop_ids. apply of_list_NoDup.
Qed.


(** ** The rings and their members *)

Lemma merged_snoc (cs : list (list string)) (c : list string) :
  merged (cs ++ [c]) = merge_cycle (merged cs) c.
Proof. unfold merged. now rewrite fold_left_app. Qed.

Lemma fold_set_keys (r : string) (cycle : list string)
  (m : list (string * string)) (a : string) :
  In a (map fst (fold_left (fun m x => OMap.set x r m) cycle m))
  <-> In a cycle \/ In a (map fst m).
Proof.
  revert m. induction cycle as [|x cycle IH]; simpl; intros m; [tauto|].
  rewrite IH, OMap_set_keys. intuition.
Qed.

(** The accounts mapped to a ring are the members of the cycles merged so
    far. *)
Lemma merged_assigned (cs : list (list string)) (a : string) :
  OMap.has a (ringIdMap (merged cs)) = true <-> on_cycle cs a.
Proof.
  rewrite OMap_has_keys, OSet_has_In. unfold on_cycle.
  induction cs as [|c cs IH] using rev_ind.
  - simpl. split; [tauto|]. intros [c [[] _]].
  - rewrite merged_snoc. unfold merge_cycle. cbn [ringIdMap].
    rewrite fold_set_keys, IH. split.
    + intros [H|[c' [Hc' Ha]]].
      * exists c. rewrite in_app_iff. simpl. auto.
      * exists c'. rewrite in_app_iff. auto.
    + intros [c' [Hc' Ha]]. apply in_app_iff in Hc'.
      destruct Hc' as [Hc'|[<-|[]]]; eauto.
Qed.

Lemma merged_unassigned (cs : list (list string)) (a : string) :
  negb (OMap.has a (ringIdMap (merged cs))) = true <-> ~ on_cycle cs a.
Proof.
  rewrite negb_true_iff, <- merged_assigned.
  destruct (OMap.has a (ringIdMap (merged cs))); split; congruence.
Qed.

Lemma merged_group_members (cs : list (list string)) (k : string)
  (g : list string) (a : string) :
  In (k, g) (cycleGroups (merged cs)) -> In a g -> on_cycle cs a.
Proof.
  intros Hin Ha. unfold on_cycle. apply in_concat.
  revert k g a Hin Ha. unfold merged.
  apply (fold_left_invariant
           (fun st => forall k g a, In (k, g) (cycleGroups st) -> In a g ->
                                    In a (concat cs))).
  - simpl. intros k g a [].
  - intros st c Hst Hc. now apply merge_cycle_members.
Qed.

(** The rings in the order they are emitted: one per group, then the
    optional fan-in, fan-out and shell rings. *)
Lemma assembleFraudRings_structure (previous : nat) (cs : list (list string))
  (fi fo sh : list string) (t : NodeTable) :
  map (fun r => (pattern_type r, member_accounts r))
      (as_rings (assembleFraudRings previous cs fi fo sh t))
  = map (fun g => (ring_cycle, snd g)) (cycleGroups (merged cs))
    ++ (if 0 <? length (fanInArr cs fi) then [(ring_fan_in, fanInArr cs fi)] else [])
    ++ (if 0 <? length (fanOutArr cs fi fo)
        then [(ring_fan_out, fanOutArr cs fi fo)] else [])
    ++ (if 0 <? length (shellArr cs fi fo sh)
        then [(ring_shell_chain, shellArr cs fi fo sh)] else []).
Proof.
  assert (Hcand : forall pt arr st,
            map (fun r => (pattern_type r, member_accounts r))
                (as_rings (emit_candidate_ring pt arr st))
            = map (fun r => (pattern_type r, member_accounts r)) (as_rings st)
              ++ (if 0 <? length arr then [(pt, arr)] else [])).
  { intros pt arr st. unfold emit_candidate_ring.
    destruct (0 <? length arr); cbn [as_rings].
    - rewrite map_app. reflexivity.
    - now rewrite app_nil_r. }
  assert (Hcyc : forall groups st,
            map (fun r => (pattern_type r, member_accounts r))
                (as_rings (fold_left emit_cycle_ring groups st))
            = map (fun r => (pattern_type r, member_accounts r)) (as_rings st)
              ++ map (fun g => (ring_cycle, snd g)) groups).
  { induction groups as [|g groups IH]; intros st; simpl.
    - now rewrite app_nil_r.
    - rewrite IH. simpl. rewrite map_app, <- app_assoc. reflexivity. }
  unfold assembleFraudRings.
  fold (merged cs). fold (fanInArr cs fi). fold (fanOutArr cs fi fo).
  fold (shellArr cs fi fo sh).
  rewrite !Hcand, Hcyc. simpl. rewrite <- !app_assoc. reflexivity.
Qed.

Lemma ring_in_structure (rings : list FraudRing) (r : FraudRing)
  (l : list (RingPattern * list string)) :
  map (fun r => (pattern_type r, member_accounts r)) rings = l ->
  In r rings -> In (pattern_type r, member_accounts r) l.
Proof.
  intros <- H. now apply (in_map (fun r => (pattern_type r, member_accounts r))).
Qed.

(** A member of a cycle ring lies on a cycle; a member of the fan-in ring
    is a fan-in account on no cycle; and so on down the precedence. *)
Lemma ring_member_ok_holds (previous : nat) (cs : list (list string))
  (fi fo sh : list string) (t : NodeTable) (r : FraudRing) (a : string) :
  In r (as_rings (assembleFraudRings previous cs fi fo sh t)) ->
  In a (member_accounts r) ->
  ring_member_ok cs fi fo sh r a.
Proof.
  intros Hr Ha.
  apply (ring_in_structure _ _ _
           (assembleFraudRings_structure previous cs fi fo sh t)) in Hr.
  unfold ring_member_ok.
  rewrite !in_app_iff in Hr. destruct Hr as [Hr|[Hr|[Hr|Hr]]].
  - apply in_map_iff in Hr. destruct Hr as [[k g] [Heq Hg]].
    injection Heq as Hpt Hm. rewrite <- Hpt.
    cbn [snd] in Hm. rewrite <- Hm in Ha.
    eapply merged_group_members; eauto.
  - destruct (0 <? length (fanInArr cs fi)); [|destruct Hr].
    destruct Hr as [Heq|[]]. injection Heq as Hpt Hm. rewrite <- Hpt.
    rewrite <- Hm in Ha. unfold fanInArr in Ha. apply filter_In in Ha.
    destruct Ha as [Ha Hc]. apply merged_unassigned in Hc. auto.
  - destruct (0 <? length (fanOutArr cs fi fo)); [|destruct Hr].
    destruct Hr as [Heq|[]]. injection Heq as Hpt Hm. rewrite <- Hpt.
    rewrite <- Hm in Ha. unfold fanOutArr in Ha. apply filter_In in Ha.
    destruct Ha as [Ha Hc]. apply andb_true_iff in Hc. destruct Hc as [Hc Hfi].
    apply merged_unassigned in Hc.
    apply negb_true_iff, OSet_has_false in Hfi. auto.
  - destruct (0 <? length (shellArr cs fi fo sh)); [|destruct Hr].
    destruct Hr as [Heq|[]]. injection Heq as Hpt Hm. rewrite <- Hpt.
    rewrite <- Hm in Ha. unfold shellArr in Ha. apply filter_In in Ha.
    destruct Ha as [Ha Hc]. apply andb_true_iff in Hc. destruct Hc as [Hc Hfo].
    apply andb_true_iff in Hc. destruct Hc as [Hc Hfi].
    apply merged_unassigned in Hc.
    apply negb_true_iff, OSet_has_false in Hfi.
    apply negb_true_iff, OSet_has_false in Hfo. auto.
Qed.

Lemma NoDup_map_injective {A B : Type} (f : A -> B) (l : list A) :
  (forall x y, f x = f y -> x = y) -> NoDup l -> NoDup (map f l).
Proof.
  intros Hf. induction 1 as [|x l Hx Hl IH]; simpl; constructor; auto.
  intros H. apply in_map_iff in H. destruct H as [y [Hy Hin]].
  apply Hf in Hy. now subst.
Qed.

Lemma merged_keys_NoDup (cs : list (list string)) :
  NoDup (map fst (cycleGroups (merged cs))).
Proof.
  assert (H := merge_cycles_inv cs). unfold merge_inv in H.
  fold (merged cs) in H. rewrite H.
  apply NoDup_map_injective; [|apply seq_NoDup].
  intros x y. apply ring_name_inj.
Qed.

Lemma In_alter_iff {V : Type} (f : V -> V) (k0 k : string) (v : V)
  (m : list (string * V)) :
  NoDup (map fst m) ->
  (In (k, v) (OMap.alter f k0 m)
   <-> (k <> k0 /\ In (k, v) m) \/ (k = k0 /\ exists v0, In (k0, v0) m /\ v = f v0)).
Proof.
  induction m as [|[k' v'] m IH]; simpl; intros Hnd.
  - split; [tauto|]. intros [[_ []]|[_ [v0 [[] _]]]].
  - inversion Hnd as [|? ? Hk' Hnd']; subst.
    assert (Hnot : forall w, In (k', w) m -> False).
    { intros w Hw. apply Hk'. change k' with (fst (k', w)). now apply in_map. }
    destruct (String.eqb k0 k') eqn:E; simpl.
    + apply String.eqb_eq in E. subst k'. split.
      * intros [H|H].
        -- inversion H; subst. right. split; eauto.
        -- left. split; auto. intros ->. eapply Hnot; eauto.
      * intros [[Hne [H|H]]|[-> [v0 [[H|H] ->]]]].
        -- inversion H; subst. congruence.
        -- auto.
        -- inversion H; subst. auto.
        -- exfalso. eapply Hnot; eauto.
    + apply String.eqb_neq in E. rewrite (IH Hnd'). split.
      * intros [H|[[Hne H]|[-> [v0 [H ->]]]]].
        -- inversion H; subst. left. split; auto.
        -- left. auto.
        -- right. split; eauto.
      * intros [[Hne [H|H]]|[-> [v0 [[H|H] ->]]]].
        -- auto.
        -- right. left. auto.
        -- inversion H; subst. congruence.
        -- right. right. split; eauto.
Qed.

Lemma In_set_fresh {V : Type} (k0 k : string) (v0 v : V) (m : list (string * V)) :
  ~ In k0 (map fst m) ->
  (In (k, v) (OMap.set k0 v0 m) <-> In (k, v) m \/ (k, v) = (k0, v0)).
Proof.
  induction m as [|[k' v'] m IH]; simpl; intros Hk.
  - intuition.
  - destruct (String.eqb k0 k') eqn:E.
    + apply String.eqb_eq in E. subst. tauto.
    + simpl. rewrite IH by tauto. intuition.
Qed.

(** The groups one step later: every old group is kept or extended by the
    cycle, and the group chosen for the cycle holds the cycle. *)
Lemma merge_cycle_groups (st : CycleMerge) (cycle : list string) :
  merge_inv st -> groups_defined st ->
  forall k g,
    In (k, g) (cycleGroups (merge_cycle st cycle)) ->
    (In (k, g) (cycleGroups st))
    \/ (incl cycle g
        /\ forall a, In a g ->
             In a cycle \/ exists g0, In (k, g0) (cycleGroups st) /\ In a g0).
Proof.
  intros Hinv Hdef k g Hin. unfold merge_cycle in Hin. cbn [cycleGroups] in Hin.
  assert (Hnd : NoDup (map fst (cycleGroups st))).
  { unfold merge_inv in Hinv. rewrite Hinv.
    apply NoDup_map_injective; [|apply seq_NoDup].
    intros x y. apply ring_name_inj. }
  assert (Hfresh : ~ In (ring_name (S (ringCounter st))) (map fst (cycleGroups st))).
  { unfold merge_inv in Hinv. rewrite Hinv. apply ring_name_fresh. }
  assert (Hext : forall g0 a,
            In a (fold_left (fun g acc => OSet.add acc g) cycle g0)
            <-> In a cycle \/ In a g0)
    by (intros; apply of_list_fold_In).
  destruct (truthy (first_assigned (ringIdMap st) cycle)) eqn:Et.
  - apply In_alter_iff in Hin; [|exact Hnd].
    destruct Hin as [[_ Hin]|[-> [g0 [Hg0 ->]]]]; [now left|].
    right. split.
    + intros a Ha. apply Hext. now left.
    + intros a Ha. apply Hext in Ha. destruct Ha; eauto.
  - assert (Hid : match first_assigned (ringIdMap st) cycle with
                  | Some r => if false then r else ring_name (S (ringCounter st))
                  | None => ring_name (S (ringCounter st))
                  end = ring_name (S (ringCounter st))).
    { destruct (first_assigned (ringIdMap st) cycle); reflexivity. }
    rewrite Hid in Hin.
    apply In_alter_iff in Hin.
    2:{ rewrite set_fresh_keys by exact Hfresh.
        apply NoDup_rev in Hnd.
        rewrite <- (rev_involutive (map fst (cycleGroups st) ++ _)).
        apply NoDup_rev. rewrite rev_app_distr. simpl. constructor; auto.
        now rewrite <- in_rev. }
    destruct Hin as [[Hne Hin]|[-> [g0 [Hg0 ->]]]].
    + apply In_set_fresh in Hin; [|exact Hfresh].
      destruct Hin as [Hin|Heq]; [now left|]. inversion Heq. congruence.
    + right. split.
      * intros a Ha. apply Hext. now left.
      * intros a Ha. apply Hext in Ha. destruct Ha as [Ha|Ha]; [now left|].
        apply In_set_fresh in Hg0; [|exact Hfresh].
        destruct Hg0 as [Hg0|Heq]; [eauto|].
        inversion Heq; subst. destruct Ha.
Qed.

Lemma merged_inv (cs : list (list string)) : merge_inv (merged cs).
Proof. apply merge_cycles_inv. Qed.

Lemma merged_defined (cs : list (list string)) : groups_defined (merged cs).
Proof. apply merge_cycles_groups_defined. Qed.

(** Every group holds all the members of one of the merged cycles. *)
Lemma merged_group_holds_cycle (cs : list (list string)) (k : string)
  (g : list string) :
  In (k, g) (cycleGroups (merged cs)) -> exists c, In c cs /\ incl c g.
Proof.
  revert k g. induction cs as [|c cs IH] using rev_ind; intros k g Hin.
  - destruct Hin.
  - rewrite merged_snoc in Hin.
    apply merge_cycle_groups in Hin; [|apply merged_inv|apply merged_defined].
    destruct Hin as [Hin|[Hincl _]].
    + destruct (IH k g Hin) as [c0 [Hc0 Hsub]].
      exists c0. rewrite in_app_iff. auto.
    + exists c. rewrite in_app_iff. simpl. auto.
Qed.

Lemma rings_nonempty_of_cycles (previous : nat) (cs : list (list string))
  (fi fo sh : list string) (t : NodeTable) :
  Forall (fun c => 3 <= length c /\ NoDup c) cs ->
  Forall (fun r => member_accounts r <> []
                   /\ (pattern_type r = ring_cycle -> 3 <= length (member_accounts r)))
         (as_rings (assembleFraudRings previous cs fi fo sh t)).
Proof.
  intros Hcs. apply Forall_forall. intros r Hr.
  apply (ring_in_structure _ _ _
           (assembleFraudRings_structure previous cs fi fo sh t)) in Hr.
  assert (Hnonempty : forall pt arr,
            In (pattern_type r, member_accounts r)
               (if 0 <? length arr then [(pt, arr)] else []) ->
            pt <> ring_cycle ->
            member_accounts r <> []
            /\ (pattern_type r = ring_cycle -> 3 <= length (member_accounts r))).
  { intros pt arr H Hpt. destruct (0 <? length arr) eqn:E; [|destruct H].
    destruct H as [Heq|[]]. injection Heq as Hp Hm. rewrite <- Hm, <- Hp.
    apply Nat.ltb_lt in E. split; [|congruence].
    intros Hnil. rewrite Hnil in E. simpl in E. lia. }
  rewrite !in_app_iff in Hr. destruct Hr as [Hr|[Hr|[Hr|Hr]]].
  - apply in_map_iff in Hr. destruct Hr as [[k g] [Heq Hg]].
    injection Heq as Hpt Hm. cbn [snd] in Hm. rewrite <- Hm.
    destruct (merged_group_holds_cycle cs k g Hg) as [c [Hc Hsub]].
    rewrite Forall_forall in Hcs. destruct (Hcs c Hc) as [H3 Hnd].
    assert (Hlen : length c <= length g) by (apply NoDup_incl_length; auto).
    split; [|intros _; lia].
    intros Hnil. rewrite Hnil in Hlen. simpl in Hlen. lia.
  - eapply Hnonempty; eauto. discriminate.
  - eapply Hnonempty; eauto. discriminate.
  - eapply Hnonempty; eauto. discriminate.
Qed.

(** X11: in the report of a run no ring is empty, and every cycle ring
    has at least three members. *)
Theorem rings_are_not_empty (env : Env) (transactions : list Transaction) :
  Forall (fun r => member_accounts r <> []
                   /\ (pattern_type r = ring_cycle -> 3 <= length (member_accounts r)))
         (fraud_rings (fst (analyzeTransactions env transactions))).
Proof.
  unfold analyzeTransactions. cbn [fst fraud_rings].
  apply rings_nonempty_of_cycles. unfold detect. cbn [d_cycles].
  eapply Forall_impl; [|apply detectCycles_all_ok].
  intros c [Hlen [Hnd _]]. split; [lia|exact Hnd].
Qed.

Lemma merged_covers_cycles (cs : list (list string)) (a : string) :
  on_cycle cs a -> exists k g, In (k, g) (cycleGroups (merged cs)) /\ In a g.
Proof.
  induction cs as [|c cs IH] using rev_ind; intros [c0 [Hc0 Ha]]; [destruct Hc0|].
  rewrite merged_snoc.
  assert (Hinv := merged_inv cs). assert (Hdef := merged_defined cs).
  assert (Hnd := merged_keys_NoDup cs).
  assert (Hfresh : ~ In (ring_name (S (ringCounter (merged cs))))
                        (map fst (cycleGroups (merged cs)))).
  { unfold merge_inv in Hinv. rewrite Hinv. apply ring_name_fresh. }
  set (st := merged cs) in *.
  unfold merge_cycle. cbn [cycleGroups].
  set (fresh := ring_name (S (ringCounter st))) in *.
  set (found := first_assigned (ringIdMap st) c).
  set (groups0 := if truthy found then cycleGroups st
                  else OMap.set fresh [] (cycleGroups st)).
  set (rid := match found with
              | Some r => if truthy found then r else fresh
              | None => fresh
              end).
  assert (Hnd0 : NoDup (map fst groups0)).
  { unfold groups0. destruct (truthy found); auto.
    rewrite set_fresh_keys by exact Hfresh.
    apply NoDup_rev in Hnd.
    rewrite <- (rev_involutive (map fst (cycleGroups st) ++ _)).
    apply NoDup_rev. rewrite rev_app_distr. simpl. constructor; auto.
    now rewrite <- in_rev. }
  assert (Hold : forall k g, In (k, g) (cycleGroups st) -> In (k, g) groups0).
  { intros k g H. unfold groups0. destruct (truthy found); auto.
    apply In_set_fresh; auto. }
  assert (Hrid : exists g0, In (rid, g0) groups0).
  { unfold rid, groups0. destruct found as [r|] eqn:Ef.
    - destruct (truthy (Some r)) eqn:Et.
      + apply first_assigned_get in Ef. destruct Ef as [x Hx].
        specialize (Hdef x r Hx). apply in_map_iff in Hdef.
        destruct Hdef as [[k g] [Hk Hg]]. simpl in Hk. subst k. eauto.
      + exists []. apply In_set_fresh; auto.
    - cbn [truthy]. exists []. apply In_set_fresh; auto. }
  assert (Hext : forall g0 x,
            In x (fold_left (fun g acc => OSet.add acc g) c g0)
            <-> In x c \/ In x g0)
    by (intros; apply of_list_fold_In).
  apply in_app_iff in Hc0. destruct Hc0 as [Hc0|[<-|[]]].
  - destruct (IH (ex_intro _ c0 (conj Hc0 Ha))) as [k [g [Hg Hag]]].
    apply Hold in Hg.
    destruct (String.eqb k rid) eqn:Ek.
    + apply String.eqb_eq in Ek. subst k.
      exists rid, (fold_left (fun g acc => OSet.add acc g) c g). split.
      * apply In_alter_iff; auto. right. split; eauto.
      * apply Hext. now right.
    + apply String.eqb_neq in Ek. exists k, g. split; auto.
      apply In_alter_iff; auto.
  - destruct Hrid as [g0 Hg0].
    exists rid, (fold_left (fun g acc => OSet.add acc g) c g0). split.
    + apply In_alter_iff; auto. right. split; eauto.
    + apply Hext. now left.
Qed.

Lemma structure_ring (rings : list FraudRing) (pt : RingPattern)
  (arr : list string) (l : list (RingPattern * list string)) :
  map (fun r => (pattern_type r, member_accounts r)) rings = l ->
  In (pt, arr) l ->
  exists r, In r rings /\ pattern_type r = pt /\ member_accounts r = arr.
Proof.
  intros <- H. apply in_map_iff in H. destruct H as [r [Heq Hr]].
  injection Heq as H1 H2. eauto.
Qed.

(** Every account on a cycle, and every fan-in, fan-out or shell
    candidate, is a member of some ring. *)
Lemma flagged_account_has_ring (previous : nat)
  (cs : list (list string)) (fi fo sh : list string) (t : NodeTable)
  (a : string) :
  on_cycle cs a \/ In a fi \/ In a fo \/ In a sh ->
  exists r, In r (as_rings (assembleFraudRings previous cs fi fo sh t))
            /\ In a (member_accounts r)
            /\ ring_member_ok cs fi fo sh r a.
Proof.
  intros Hflag.
  assert (Hstruct := assembleFraudRings_structure previous cs fi fo sh t).
  assert (Hfind : forall pt arr,
            In (pt, arr)
               (map (fun g => (ring_cycle, snd g)) (cycleGroups (merged cs))
                ++ (if 0 <? length (fanInArr cs fi)
                    then [(ring_fan_in, fanInArr cs fi)] else [])
                ++ (if 0 <? length (fanOutArr cs fi fo)
                    then [(ring_fan_out, fanOutArr cs fi fo)] else [])
                ++ (if 0 <? length (shellArr cs fi fo sh)
                    then [(ring_shell_chain, shellArr cs fi fo sh)] else [])) ->
            In a arr ->
            exists r, In r (as_rings (assembleFraudRings previous cs fi fo sh t))
                      /\ In a (member_accounts r)
                      /\ ring_member_ok cs fi fo sh r a).
  { intros pt arr Hin Ha.
    destruct (structure_ring _ pt arr _ Hstruct Hin) as [r [Hr [Hpt Hm]]].
    exists r. split; [exact Hr|]. rewrite Hm. split; [exact Ha|].
    eapply ring_member_ok_holds; eauto. now rewrite Hm. }
  assert (Hsingle : forall (arr : list string),
            In a arr -> (0 <? length arr) = true).
  { intros arr Ha. apply Nat.ltb_lt. destruct arr; [destruct Ha|simpl; lia]. }
  destruct (OMap.has a (ringIdMap (merged cs))) eqn:Ec.
  { apply merged_assigned in Ec.
    destruct (merged_covers_cycles cs a Ec) as [k [g [Hg Ha]]].
    apply (Hfind ring_cycle g); auto.
    apply in_app_iff. left.
    apply in_map_iff. exists (k, g). auto. }
  assert (Hnc : negb (OMap.has a (ringIdMap (merged cs))) = true)
    by (now rewrite Ec).
  destruct (OSet.has a fi) eqn:Efi.
  { apply OSet_has_In in Efi.
    assert (Ha : In a (fanInArr cs fi)) by (apply filter_In; auto).
    apply (Hfind ring_fan_in (fanInArr cs fi)); auto.
    rewrite !in_app_iff. right. left. rewrite (Hsingle _ Ha). now left. }
  destruct (OSet.has a fo) eqn:Efo.
  { apply OSet_has_In in Efo.
    assert (Ha : In a (fanOutArr cs fi fo)).
    { apply filter_In. split; auto. now rewrite Hnc, Efi. }
    apply (Hfind ring_fan_out (fanOutArr cs fi fo)); auto.
    rewrite !in_app_iff. right. right. left. rewrite (Hsingle _ Ha). now left. }
  assert (Hsh : In a sh).
  { destruct Hflag as [H|[H|[H|H]]]; auto.
    - apply merged_assigned in H. congruence.
    - apply OSet_has_In in H. congruence.
    - apply OSet_has_In in H. congruence. }
  assert (Ha : In a (shellArr cs fi fo sh)).
  { apply filter_In. split; auto. now rewrite Hnc, Efi, Efo. }
  apply (Hfind ring_shell_chain (shellArr cs fi fo sh)); auto.
  rewrite !in_app_iff. right. right. right. rewrite (Hsingle _ Ha). now left.
Qed.

Lemma nth_error_after_repeat {A : Type} (c pt : A) (O : list A) :
  pt <> c -> NoDup O ->
  forall k i j,
    nth_error (repeat c k ++ O) i = Some pt ->
    nth_error (repeat c k ++ O) j = Some pt -> i = j.
Proof.
  intros Hne Hnd. induction k as [|k IH]; intros i j Hi Hj.
  - simpl in *. rewrite NoDup_nth_error in Hnd. apply Hnd.
    + apply nth_error_Some. congruence.
    + congruence.
  - destruct i as [|i], j as [|j]; simpl in *; try congruence.
    f_equal. now apply IH.
Qed.

Lemma one_ring_per_candidate_type (previous : nat) (cs : list (list string))
  (fi fo sh : list string) (t : NodeTable) (r r' : FraudRing) :
  In r (as_rings (assembleFraudRings previous cs fi fo sh t)) ->
  In r' (as_rings (assembleFraudRings previous cs fi fo sh t)) ->
  pattern_type r' = pattern_type r -> pattern_type r <> ring_cycle -> r' = r.
Proof.
  intros Hr Hr' Heq Hne.
  destruct (assembleFraudRings_order previous cs fi fo sh t)
    as [k [bfi [bfo [bsh Hord]]]].
  apply In_nth_error in Hr, Hr'. destruct Hr as [i Hi], Hr' as [j Hj].
  assert (Hij : j = i).
  { apply (nth_error_after_repeat ring_cycle (pattern_type r)
             (optional_ring bfi ring_fan_in ++ optional_ring bfo ring_fan_out
              ++ optional_ring bsh ring_shell_chain) Hne) with (k := k).
    - destruct bfi, bfo, bsh; simpl; repeat constructor; simpl;
        intuition discriminate.
    - rewrite <- Hord, nth_error_map, Hj. simpl. now rewrite Heq.
    - rewrite <- Hord, nth_error_map, Hi. reflexivity. }
  subst j. congruence.
Qed.

(** X12: an account of the fan-in, fan-out or shell ring is a member of no
    other ring; two different rings can share an account only when both are
    cycle rings. *)
Theorem candidate_ring_members_exclusive (previous : nat)
  (cs : list (list string)) (fi fo sh : list string) (t : NodeTable)
  (r r' : FraudRing) (a : string) :
  In r (as_rings (assembleFraudRings previous cs fi fo sh t)) ->
  In r' (as_rings (assembleFraudRings previous cs fi fo sh t)) ->
  In a (member_accounts r) -> In a (member_accounts r') ->
  pattern_type r <> ring_cycle -> r' = r.
Proof.
  intros Hr Hr' Ha Ha' Hne.
  assert (H := ring_member_ok_holds previous cs fi fo sh t r a Hr Ha).
  assert (H' := ring_member_ok_holds previous cs fi fo sh t r' a Hr' Ha').
  apply (one_ring_per_candidate_type previous cs fi fo sh t); auto.
  unfold ring_member_ok in H, H'.
  destruct (pattern_type r), (pattern_type r'); try reflexivity;
    try congruence; tauto.
Qed.

Lemma candidate_ring_members_exclusive_witness :
  In (mkRing "RING_002" ["X"] ring_fan_in 0)
     (as_rings (assembleFraudRings 0 [["A"; "B"; "C"]] ["X"] [] [] []))
  /\ mkRing "RING_002" ["X"] ring_fan_in 0 = mkRing "RING_002" ["X"] ring_fan_in 0.
Proof.
  assert (H : In (mkRing "RING_002" ["X"] ring_fan_in 0)
                 (as_rings (assembleFraudRings 0 [["A"; "B"; "C"]] ["X"] [] [] [])))
    by (vm_compute; right; left; reflexivity).
  split; [exact H|].
  apply (candidate_ring_members_exclusive 0 [["A"; "B"; "C"]] ["X"] [] [] []
           (mkRing "RING_002" ["X"] ring_fan_in 0)
           (mkRing "RING_002" ["X"] ring_fan_in 0) "X"); auto.
  - simpl. auto.
  - simpl. auto.
  - discriminate.
Defined.

(** ** Ring ids carried by the nodes *)

Lemma fold_update_map (f : GraphNode -> GraphNode) (arr : list string) :
  (forall n, id (f n) = id n) -> (forall n, f (f n) = f n) ->
  forall t, NoDup (map id t) ->
  fold_left (fun t acc => node_update f acc t) arr t
  = map (fun n => if OSet.has (id n) arr then f n else n) t.
Proof.
  intros Hid Hidem. induction arr as [|a arr IH]; intros t Hnd.
  - simpl. symmetry. apply map_id.
  - cbn [fold_left]. rewrite IH.
    + rewrite node_update_map by exact Hnd. rewrite map_map.
      apply map_ext. intros n. unfold OSet.has. cbn [existsb].
      rewrite (String.eqb_sym (id n) a).
      destruct (String.eqb a (id n)); cbn [orb].
      * rewrite Hid.
        destruct (existsb (String.eqb (id n)) arr); [apply Hidem|reflexivity].
      * reflexivity.
    + rewrite node_update_ids by exact Hid. exact Hnd.
Qed.

Lemma truthy_ring_name (n : nat) : truthy (Some (ring_name n)) = true.
Proof. reflexivity. Qed.

Lemma emit_cycle_ring_link (cs : list (list string)) (st : Assembly)
  (k : string) (g : list string) :
  truthy (Some k) = true -> NoDup (map id (as_nodes st)) ->
  Forall (ring_link_pending cs (as_rings st)) (as_nodes st) ->
  let st' := emit_cycle_ring st (k, g) in
  NoDup (map id (as_nodes st'))
  /\ Forall (ring_link_pending cs (as_rings st')) (as_nodes st').
Proof.
  intros Hk Hnd Hinv. unfold emit_cycle_ring. cbn [fst snd as_nodes as_rings].
  rewrite (fold_update_map (set_ringId (Some k)) g) by (auto; reflexivity).
  split.
  - rewrite map_map. erewrite map_ext; [exact Hnd|].
    intros n. now destruct (OSet.has (id n) g).
  - apply Forall_map. eapply Forall_impl; [|exact Hinv].
    intros n Hn. destruct (OSet.has (id n) g) eqn:Eg.
    + right. eexists. split; [apply in_app_iff; right; left; reflexivity|].
      cbn [ring_id member_accounts ringId set_ringId id].
      repeat split; auto. now apply OSet_has_In.
    + apply OSet_has_false in Eg.
      destruct Hn as [[Hf [Hc Hno]]|[r [Hr [Hid [Ht Hm]]]]].
      * left. repeat split; auto. intros r Hr. apply in_app_iff in Hr.
        destruct Hr as [Hr|[<-|[]]]; [now apply Hno|exact Eg].
      * right. exists r. rewrite in_app_iff. auto.
Qed.

Lemma emit_cycle_rings_link (cs : list (list string))
  (groups : list (string * list string)) :
  Forall (fun g => truthy (Some (fst g)) = true) groups ->
  forall st,
    NoDup (map id (as_nodes st)) ->
    Forall (ring_link_pending cs (as_rings st)) (as_nodes st) ->
    let st' := fold_left emit_cycle_ring groups st in
    NoDup (map id (as_nodes st'))
    /\ Forall (ring_link_pending cs (as_rings st')) (as_nodes st').
Proof.
  induction 1 as [|[k g] groups Hk Hgs IH]; intros st Hnd Hinv; [now split|].
  cbn [fold_left]. destruct (emit_cycle_ring_link cs st k g Hk Hnd Hinv).
  now apply IH.
Qed.

Lemma set_ringId_if_unset_idem (r : string) (n : GraphNode) :
  set_ringId_if_unset r (set_ringId_if_unset r n) = set_ringId_if_unset r n.
Proof.
  unfold set_ringId_if_unset. destruct (truthy (ringId n)) eqn:E.
  - now rewrite E.
  - cbn [ringId set_ringId].
    destruct (truthy (Some r)); reflexivity.
Qed.

Lemma set_ringId_if_unset_id (r : string) (n : GraphNode) :
  id (set_ringId_if_unset r n) = id n.
Proof. unfold set_ringId_if_unset. now destruct (truthy (ringId n)). Qed.

Lemma emit_candidate_ring_link (cs : list (list string)) (pt : RingPattern)
  (arr : list string) (st : Assembly) :
  NoDup (map id (as_nodes st)) ->
  Forall (ring_link_pending cs (as_rings st)) (as_nodes st) ->
  let st' := emit_candidate_ring pt arr st in
  NoDup (map id (as_nodes st'))
  /\ Forall (ring_link_pending cs (as_rings st')) (as_nodes st').
Proof.
  intros Hnd Hinv. unfold emit_candidate_ring.
  destruct (0 <? length arr); [|now split].
  cbn [as_nodes as_rings].
  set (k := ring_name (S (as_counter st))).
  rewrite (fold_update_map (set_ringId_if_unset k) arr)
    by (auto using set_ringId_if_unset_id, set_ringId_if_unset_idem).
  split.
  - rewrite map_map. erewrite map_ext; [exact Hnd|].
    intros n. destruct (OSet.has (id n) arr); auto using set_ringId_if_unset_id.
  - apply Forall_map. eapply Forall_impl; [|exact Hinv].
    intros n Hn.
    assert (Hkeep : ring_link_pending cs (as_rings st) n ->
                    ~ In (id n) arr \/ truthy (ringId n) = true ->
                    ring_link_pending cs
                      (as_rings st ++ [mkRing k arr pt (round1 (avgScore (as_nodes st) arr))])
                      n).
    { intros [[Hf [Hc Hno]]|[r [Hr [Hid [Ht Hm]]]]] Hside.
      - destruct Hside as [Hside|Hside]; [|congruence].
        left. repeat split; auto. intros r Hr. apply in_app_iff in Hr.
        destruct Hr as [Hr|[<-|[]]]; [now apply Hno|exact Hside].
      - right. exists r. rewrite in_app_iff. auto. }
    destruct (OSet.has (id n) arr) eqn:Ea.
    + unfold set_ringId_if_unset. destruct (truthy (ringId n)) eqn:Et.
      * apply Hkeep; auto.
      * right. eexists. split; [apply in_app_iff; right; left; reflexivity|].
        cbn [ring_id member_accounts ringId set_ringId id].
        repeat split; auto. now apply OSet_has_In.
    + apply Hkeep; auto. left. now apply OSet_has_false.
Qed.

Lemma merged_groups_truthy (cs : list (list string)) :
  Forall (fun g => truthy (Some (fst g)) = true) (cycleGroups (merged cs)).
Proof.
  apply Forall_forall. intros [k g] Hin. cbn [fst].
  assert (Hk : In k (map fst (cycleGroups (merged cs)))).
  { change k with (fst (k, g)). now apply in_map. }
  rewrite (merged_inv cs) in Hk. apply in_map_iff in Hk.
  destruct Hk as [i [<- _]]. apply truthy_ring_name.
Qed.

Lemma assembleFraudRings_pending (previous : nat) (cs : list (list string))
  (fi fo sh : list string) (t : NodeTable) :
  NoDup (map id t) ->
  Forall (fun n => ringId n = None \/ (ringId n = Some "" /\ on_cycle cs (id n))) t ->
  let a := assembleFraudRings previous cs fi fo sh t in
  Forall (ring_link_pending cs (as_rings a)) (as_nodes a).
Proof.
  intros Hnd Ht a.
  unfold a, assembleFraudRings. fold (merged cs).
  set (st0 := fold_left emit_cycle_ring (cycleGroups (merged cs))
                        (mkAssembly (ringCounter (merged cs)) [] t)).
  assert (H0 : NoDup (map id (as_nodes st0))
               /\ Forall (ring_link_pending cs (as_rings st0)) (as_nodes st0)).
  { apply (emit_cycle_rings_link cs _ (merged_groups_truthy cs)
             (mkAssembly (ringCounter (merged cs)) [] t)); auto.
    cbn [as_nodes as_rings]. eapply Forall_impl; [|exact Ht].
    intros n [Hn|[Hn Hc]]; left; rewrite Hn; repeat split; auto. }
  destruct H0 as [Hn0 Hp0].
  destruct (emit_candidate_ring_link cs ring_fan_in
              (filter (fun acc => negb (OMap.has acc (ringIdMap (merged cs)))) fi)
              st0 Hn0 Hp0) as [Hn1 Hp1].
  destruct (emit_candidate_ring_link cs ring_fan_out
              (filter (fun acc => negb (OMap.has acc (ringIdMap (merged cs)))
                                  && negb (OSet.has acc fi)) fo)
              _ Hn1 Hp1) as [Hn2 Hp2].
  destruct (emit_candidate_ring_link cs ring_shell_chain
              (filter (fun acc => negb (OMap.has acc (ringIdMap (merged cs)))
                                  && negb (OSet.has acc fi)
                                  && negb (OSet.has acc fo)) sh)
              _ Hn2 Hp2) as [_ Hp3].
  exact Hp3.
Qed.

(** A pending link is a link once every account on a cycle is in a ring. *)
Lemma ring_link_of_pending (cs : list (list string)) (rings : list FraudRing)
  (n : GraphNode) :
  (on_cycle cs (id n) -> exists r, In r rings /\ In (id n) (member_accounts r)) ->
  ring_link_pending cs rings n ->
  ring_link rings (id n) (ringId n) /\ (ringId n = None \/ truthy (ringId n) = true).
Proof.
  intros Hcov [[Hf [Hc Hno]]|[r [Hr [Hid [Htr Hm]]]]].
  - assert (Hnone : ringId n = None).
    { destruct Hc as [Hc|Hc]; [exact Hc|]. exfalso.
      destruct (Hcov Hc) as [r [Hr Hm]]. exact (Hno r Hr Hm). }
    split; [left; split; [exact Hnone|exact Hno]|now left].
  - split; [right; eauto|now right].
Qed.

(** X13: when the table has distinct ids and every [ringId] is unset (or is
    the placeholder of an account on a cycle), then after the assembly the
    [ringId] of a node is absent exactly when its account is in no ring, and
    otherwise names a ring of the result that lists the account. *)
Theorem node_ring_ids_exist (previous : nat) (cs : list (list string))
  (fi fo sh : list string) (t : NodeTable) :
  NoDup (map id t) ->
  Forall (fun n => ringId n = None \/ (ringId n = Some "" /\ on_cycle cs (id n))) t ->
  let a := assembleFraudRings previous cs fi fo sh t in
  Forall (fun n => ring_link (as_rings a) (id n) (ringId n)) (as_nodes a).
Proof.
  intros Hnd Ht a.
  assert (Hpend := assembleFraudRings_pending previous cs fi fo sh t Hnd Ht).
  eapply Forall_impl; [|exact Hpend].
  intros n Hn. apply (ring_link_of_pending cs); [|exact Hn].
  intros Hc.
  destruct (flagged_account_has_ring previous cs fi fo sh t (id n)
              (or_introl Hc)) as [r [Hr [Hm _]]].
  eauto.
Qed.

Lemma node_ring_ids_exist_witness :
  let t := [mkNode "A" 2 0 0 [] [] false 0 [] (Some "");
            mkNode "B" 2 0 0 [] [] false 0 [] (Some "");
            mkNode "C" 2 0 0 [] [] false 0 [] (Some "");
            mkNode "X" 10 0 0 [] [] false 0 [] None;
            mkNode "Y" 1 0 0 [] [] false 0 [] None] in
  let a := assembleFraudRings 0 [["A"; "B"; "C"]] ["X"] [] [] t in
  Forall (fun n => ring_link (as_rings a) (id n) (ringId n)) (as_nodes a).
Proof.
  intros t.
  apply (node_ring_ids_exist 0 [["A"; "B"; "C"]] ["X"] [] [] t).
  - unfold t. cbn [map id]. repeat constructor; simpl; intuition discriminate.
  - unfold t. repeat apply Forall_cons; try apply Forall_nil; cbn [ringId id];
      try (now left);
      right; (split; [reflexivity|]); exists ["A"; "B"; "C"]; simpl; auto.
Defined.

(** X14: which accounts each kind of ring holds.  An account is in some
    cycle ring exactly when it lies on a detected cycle; in the fan-in ring
    exactly when it is a fan-in account on no cycle; in the fan-out ring
    exactly when it is a fan-out account that is neither fan-in nor on a
    cycle; in the shell ring exactly when it is a shell account that is none
    of the others. *)
Theorem ring_membership_iff (previous : nat) (cs : list (list string))
  (fi fo sh : list string) (t : NodeTable) (a : string) :
  let rings := as_rings (assembleFraudRings previous cs fi fo sh t) in
  let member_of pt :=
    exists r, In r rings /\ pattern_type r = pt /\ In a (member_accounts r) in
  (member_of ring_cycle <-> on_cycle cs a)
  /\ (member_of ring_fan_in <-> In a fi /\ ~ on_cycle cs a)
  /\ (member_of ring_fan_out <-> In a fo /\ ~ In a fi /\ ~ on_cycle cs a)
  /\ (member_of ring_shell_chain
      <-> In a sh /\ ~ In a fi /\ ~ In a fo /\ ~ on_cycle cs a).
Proof.
  intros rings member_of.
  assert (Hsound : forall pt r, In r rings -> pattern_type r = pt ->
            In a (member_accounts r) ->
            match pt with
            | ring_cycle => on_cycle cs a
            | ring_fan_in => In a fi /\ ~ on_cycle cs a
            | ring_fan_out => In a fo /\ ~ In a fi /\ ~ on_cycle cs a
            | ring_shell_chain =>
                In a sh /\ ~ In a fi /\ ~ In a fo /\ ~ on_cycle cs a
            end).
  { intros pt r Hr Hpt Ha.
    assert (H := ring_member_ok_holds previous cs fi fo sh t r a Hr Ha).
    unfold ring_member_ok in H. rewrite Hpt in H. exact H. }
  assert (Hcomplete : on_cycle cs a \/ In a fi \/ In a fo \/ In a sh ->
            exists r, In r rings /\ In a (member_accounts r)
                      /\ ring_member_ok cs fi fo sh r a).
  { apply flagged_account_has_ring. }
  unfold member_of. split; [|split; [|split]]; split.
  - intros [r [Hr [Hpt Ha]]]. exact (Hsound ring_cycle r Hr Hpt Ha).
  - intros Hc. destruct Hcomplete as [r [Hr [Ha Hok]]]; [now left|].
    exists r. split; [exact Hr|]. split; [|exact Ha].
    unfold ring_member_ok in Hok. destruct (pattern_type r); tauto.
  - intros [r [Hr [Hpt Ha]]]. exact (Hsound ring_fan_in r Hr Hpt Ha).
  - intros [Hf Hc]. destruct Hcomplete as [r [Hr [Ha Hok]]]; [now right; left|].
    exists r. split; [exact Hr|]. split; [|exact Ha].
    unfold ring_member_ok in Hok. destruct (pattern_type r); tauto.
  - intros [r [Hr [Hpt Ha]]]. exact (Hsound ring_fan_out r Hr Hpt Ha).
  - intros [Hf Hc].
    destruct Hcomplete as [r [Hr [Ha Hok]]]; [now right; right; left|].
    exists r. split; [exact Hr|]. split; [|exact Ha].
    unfold ring_member_ok in Hok. destruct (pattern_type r); tauto.
  - intros [r [Hr [Hpt Ha]]]. exact (Hsound ring_shell_chain r Hr Hpt Ha).
  - intros [Hf Hc].
    destruct Hcomplete as [r [Hr [Ha Hok]]]; [now right; right; right|].
    exists r. split; [exact Hr|]. split; [|exact Ha].
    unfold ring_member_ok in Hok. destruct (pattern_type r); tauto.
Qed.
Lemma graph_loop_nodes_fresh (txs : list Transaction) :
  Forall (fun n => ringId n = None) (nodes (graph_loop txs)).
Proof.
  apply Forall_forall. intros n Hn.
  assert (Hnd : NoDup (map id (nodes (graph_loop txs)))).
  { rewrite graph_loop_ids. apply of_list_NoDup. }
  assert (Hget := graph_loop_node_get txs (id n)).
  destruct (OSet.has (id n) (endpoints txs)) eqn:E.
  - rewrite (node_get_unique _ _ _ n Hnd Hget Hn eq_refl). reflexivity.
  - exfalso. apply OSet_has_false in E. apply E.
    rewrite <- of_list_In, <- graph_loop_ids. now apply in_map.
Qed.

Lemma apply_exemption_frame (es : list GraphEdge) (n : GraphNode) :
  id (apply_exemption es n) = id n /\ ringId (apply_exemption es n) = ringId n.
Proof.
  unfold apply_exemption. destruct (payroll_exempt es n); [|now split].
  unfold drop_fan_out. destruct (length _ =? 0); split; reflexivity.
Qed.

Lemma score_node_ringId (cn : list (string * (nat * string)))
  (fi fo sh hv : list string) (n : GraphNode) :
  ringId (score_node cn fi fo sh hv n)
  = match OMap.get (id n) cn with
    | Some info => Some (snd info)
    | None => ringId n
    end.
Proof.
  unfold score_node. destruct (OMap.get (id n) cn); reflexivity.
Qed.

Lemma filtered_nodes_ids (transactions : list Transaction) :
  map id (filtered_nodes transactions) = OSet.of_list (endpoints transactions).
Proof.
  rewrite filtered_nodes_exact, map_map.
  rewrite (map_ext _ id) by (intros n; apply apply_exemption_frame).
  rewrite scored_nodes_ids. unfold buildGraph. cbn [nodes].
  fold (graph_loop transactions). apply graph_loop_ids.
Qed.

Lemma filtered_nodes_unset (transactions : list Transaction) :
  Forall (fun n => ringId n = None
                   \/ (ringId n = Some ""
                       /\ on_cycle (d_cycles (detect (buildGraph transactions)))
                                   (id n)))
         (filtered_nodes transactions).
Proof.
  rewrite filtered_nodes_exact. unfold scored_nodes, scoreAccounts.
  rewrite map_map. apply Forall_map.
  assert (Hfresh : Forall (fun n => ringId n = None)
                          (nodes (buildGraph transactions))).
  { unfold buildGraph. cbn [nodes]. apply graph_loop_nodes_fresh. }
  eapply Forall_impl; [|exact Hfresh]. intros n Hn.
  set (g := buildGraph transactions). set (d := detect g).
  destruct (apply_exemption_frame (edges g)
              (score_node (d_cycleNodes d) (fanInAccounts (d_smurf d))
                 (fanOutAccounts (d_smurf d)) (d_shell d) (d_velocity d) n))
    as [Hid Hring].
  rewrite Hid, Hring, score_node_ringId.
  destruct (score_node_patterns (d_cycleNodes d) (fanInAccounts (d_smurf d))
              (fanOutAccounts (d_smurf d)) (d_shell d) (d_velocity d) n)
    as [Hid' _].
  rewrite Hid'.
  assert (He := build_cycleNodes_entry (d_cycles d) (id n)).
  change (build_cycleNodes (d_cycles d)) with (d_cycleNodes d) in He.
  destruct (OMap.get (id n) (d_cycleNodes d)) as [info|]; cbn in He.
  - right. destruct He as [Hs [[c [Hc [Hac _]]] _]]. split.
    + now rewrite Hs.
    + exists c. auto.
  - now left.
Qed.

Lemma insert_by_score_perm (n : GraphNode) (l : list GraphNode) :
  Permutation (insert_by_score n l) (n :: l).
Proof.
  induction l as [|x l IH]; simpl; auto.
  destruct (suspicionScore x <=? suspicionScore n)%Z; auto.
  rewrite IH. apply perm_swap.
Qed.

Lemma sort_by_score_perm (l : list GraphNode) :
  Permutation (sort_by_score l) l.
Proof.
  induction l as [|x l IH]; simpl; auto.
  rewrite insert_by_score_perm. now constructor.
Qed.

Lemma report_nodes_linked (env : Env) (transactions : list Transaction) :
  let r := fst (analyzeTransactions env transactions) in
  Forall (fun n => ring_link (fraud_rings r) (id n) (ringId n)
                   /\ ringId n <> Some "")
         (res_nodes r).
Proof.
  intros r.
  unfold r, analyzeTransactions. cbn [fst res_nodes fraud_rings].
  set (g := buildGraph transactions). set (d := detect g).
  assert (Hnd : NoDup (map id (filtered_nodes transactions))).
  { rewrite filtered_nodes_ids. apply of_list_NoDup. }
  assert (Hpend := assembleFraudRings_pending (env_ringCounter env)
                     (d_cycles d) (fanInAccounts (d_smurf d))
                     (fanOutAccounts (d_smurf d)) (d_shell d)
                     (filtered_nodes transactions) Hnd
                     (filtered_nodes_unset transactions)).
  eapply Forall_impl; [|exact Hpend].
  intros n Hn.
  assert (Hcov : on_cycle (d_cycles d) (id n) ->
            exists r0,
              In r0 (as_rings
                       (assembleFraudRings (env_ringCounter env) (d_cycles d)
                          (fanInAccounts (d_smurf d))
                          (fanOutAccounts (d_smurf d)) (d_shell d)
                          (filtered_nodes transactions)))
              /\ In (id n) (member_accounts r0)).
  { intros Hc.
    destruct (flagged_account_has_ring (env_ringCounter env) (d_cycles d)
                (fanInAccounts (d_smurf d)) (fanOutAccounts (d_smurf d))
                (d_shell d) (filtered_nodes transactions) (id n)
                (or_introl Hc)) as [r0 [Hr [Hm _]]].
    eauto. }
  destruct (ring_link_of_pending (d_cycles d) _ n Hcov Hn) as [Hl Ht].
  split; [exact Hl|]. intros Heq. rewrite Heq in Ht.
  destruct Ht as [Ht|Ht]; discriminate.
Qed.

(** Every entry of [suspicious_accounts] is the report of a node of the
    emitted table whose score is positive. *)
Lemma report_entry_node (env : Env) (transactions : list Transaction)
  (s : SuspiciousAccount) :
  let r := fst (analyzeTransactions env transactions) in
  In s (suspicious_accounts r) ->
  exists n, In n (res_nodes r) /\ s = report_account n
            /\ isSuspicious n = true /\ (0 < suspicionScore n)%Z.
Proof.
  intros r. unfold r, analyzeTransactions.
  cbn [fst suspicious_accounts res_nodes].
  intros Hs. apply in_map_iff in Hs. destruct Hs as [n [Heq Hn]].
  apply (Permutation_in _ (sort_by_score_perm _)) in Hn.
  apply filter_In in Hn. destruct Hn as [Hn Hf].
  apply andb_true_iff in Hf. destruct Hf as [Hsus Hpos].
  apply Z.ltb_lt in Hpos. exists n. auto.
Qed.

(** X15: in the report of a run, the [ringId] of every node and the
    [ring_id] of every entry of [suspicious_accounts] is absent exactly when
    the account is in no ring of [fraud_rings], and otherwise names one of
    the rings of [fraud_rings] that list the account; the placeholder of the
    scoring step never reaches the report. *)
Theorem report_ring_ids_resolve (env : Env) (transactions : list Transaction) :
  let r := fst (analyzeTransactions env transactions) in
  Forall (fun n => ring_link (fraud_rings r) (id n) (ringId n)
                   /\ ringId n <> Some "")
         (res_nodes r)
  /\ Forall (fun s => ring_link (fraud_rings r) (account_id s) (sa_ring_id s)
                      /\ sa_ring_id s <> Some "")
            (suspicious_accounts r).
Proof.
  intros r. assert (Hnodes := report_nodes_linked env transactions).
  split; [exact Hnodes|].
  apply Forall_forall. intros s Hs.
  destruct (report_entry_node env transactions s Hs) as [n [Hn [-> _]]].
  cbv zeta in Hnodes. rewrite Forall_forall in Hnodes. exact (Hnodes n Hn).
Qed.

(** X16: the JSON export of a report copies the rings and the summary, and
    copies every entry of [suspicious_accounts] with its [ring_id]: the
    conditional that omits a falsy [ring_id] only ever omits an absent
    one. *)
Theorem export_of_report (env : Env) (transactions : list Transaction) :
  let r := fst (analyzeTransactions env transactions) in
  let p := buildExportPayload r in
  p_fraud_rings p = fraud_rings r
  /\ p_summary p = summary r
  /\ Forall2 (fun s x => x_account_id x = account_id s
                         /\ x_suspicion_score x = suspicion_score s
                         /\ x_detected_patterns x = detected_patterns s
                         /\ x_ring_id x = sa_ring_id s)
             (suspicious_accounts r) (p_suspicious_accounts p).
Proof.
  intros r p. unfold p, buildExportPayload.
  cbn [p_fraud_rings p_summary p_suspicious_accounts].
  split; [|split; [reflexivity|]].
  - rewrite <- (map_id (fraud_rings r)) at 2. apply map_ext.
    intros ring. now destruct ring.
  - assert (Hall : Forall (fun s => sa_ring_id s <> Some "")
                          (suspicious_accounts r)).
    { apply Forall_forall. intros s Hs.
      destruct (report_entry_node env transactions s Hs) as [n [Hn [-> _]]].
      assert (Hnodes := report_nodes_linked env transactions).
      cbv zeta in Hnodes. rewrite Forall_forall in Hnodes.
      exact (proj2 (Hnodes n Hn)). }
    induction Hall as [|s l Hs Hl IH]; cbn [map]; constructor; [|exact IH].
    unfold export_account. cbn.
    repeat split.
    destruct (sa_ring_id s) as [x|]; [|reflexivity].
    unfold truthy. destruct (String.eqb x "") eqn:E; [|reflexivity].
    apply String.eqb_eq in E. congruence.
Qed.
Lemma Qred_inject_Z (z : Z) : Qred (inject_Z z) = inject_Z z.
Proof.
  unfold Qred, inject_Z.
  assert (Hg := Z.ggcd_gcd z 1). assert (Hc := Z.ggcd_correct_divisors z 1).
  destruct (Z.ggcd z 1) as [g [a b]]. cbn [fst snd] in *.
  rewrite Z.gcd_1_r in Hg. subst g. destruct Hc as [Ha Hb].
  rewrite Z.mul_1_l in Ha, Hb. subst. reflexivity.
Qed.

Lemma round1_inject_Z (z : Z) : round1 (inject_Z z) = inject_Z z.
Proof.
  unfold round1. rewrite <- (Qred_inject_Z z) at 2. apply Qred_complete.
  assert (Hf : Qfloor (inject_Z z * 10 + (1 # 2)) = (z * 10)%Z).
  { unfold Qfloor, Qplus, Qmult, inject_Z. cbn [Qnum Qden Pos.mul].
    symmetry. apply (Z.div_unique _ _ _ 1); lia. }
  rewrite Hf. rewrite inject_Z_mult. field.
Qed.

Lemma insert_by_score_sorted (n : GraphNode) (l : list GraphNode) :
  StronglySorted (fun a b => (suspicionScore b <= suspicionScore a)%Z) l ->
  StronglySorted (fun a b => (suspicionScore b <= suspicionScore a)%Z)
                 (insert_by_score n l).
Proof.
  induction 1 as [|x l Hs IH Hx]; cbn [insert_by_score].
  - repeat constructor.
  - destruct (suspicionScore x <=? suspicionScore n)%Z eqn:E.
    + apply Z.leb_le in E. constructor; [now constructor|].
      constructor; [exact E|].
      eapply Forall_impl; [|exact Hx]. cbn. intros y Hy. lia.
    + apply Z.leb_gt in E. constructor; [exact IH|].
      apply Forall_forall. intros y Hy.
      apply (Permutation_in _ (insert_by_score_perm n l)) in Hy.
      destruct Hy as [<-|Hy]; [lia|].
      rewrite Forall_forall in Hx. now apply Hx.
Qed.

Lemma sort_by_score_sorted (l : list GraphNode) :
  StronglySorted (fun a b => (suspicionScore b <= suspicionScore a)%Z)
                 (sort_by_score l).
Proof.
  induction l as [|x l IH]; cbn [sort_by_score fold_right]; [constructor|].
  now apply insert_by_score_sorted.
Qed.

Lemma insert_by_score_stable (z : Z) (n : GraphNode) (l : list GraphNode) :
  filter (fun m => (suspicionScore m =? z)%Z) (insert_by_score n l)
  = filter (fun m => (suspicionScore m =? z)%Z) (n :: l).
Proof.
  induction l as [|x l IH]; cbn [insert_by_score]; [reflexivity|].
  destruct (suspicionScore x <=? suspicionScore n)%Z eqn:E; [reflexivity|].
  apply Z.leb_gt in E. cbn [filter] in IH |- *. rewrite IH.
  destruct (suspicionScore x =? z)%Z eqn:Ex,
           (suspicionScore n =? z)%Z eqn:En; try reflexivity.
  apply Z.eqb_eq in Ex, En. lia.
Qed.

Lemma sort_by_score_stable (z : Z) (l : list GraphNode) :
  filter (fun m => (suspicionScore m =? z)%Z) (sort_by_score l)
  = filter (fun m => (suspicionScore m =? z)%Z) l.
Proof.
  induction l as [|x l IH]; cbn [sort_by_score fold_right]; [reflexivity|].
  fold (sort_by_score l). rewrite insert_by_score_stable.
  cbn [filter]. now rewrite IH.
Qed.

Lemma report_nodes_shape (env : Env) (transactions : list Transaction) :
  Forall scored_shape (res_nodes (fst (analyzeTransactions env transactions))).
Proof.
  unfold analyzeTransactions. cbn [fst res_nodes].
  eapply Forall2_Forall_transfer;
    [apply same_but_ring_shape|apply assembleFraudRings_same
    |apply filtered_nodes_shape].
Qed.

(** The entries of [suspicious_accounts] are the reports of the nodes with
    a positive score, sorted. *)
Lemma report_accounts_sorted (env : Env) (transactions : list Transaction) :
  let r := fst (analyzeTransactions env transactions) in
  suspicious_accounts r
  = map report_account
        (sort_by_score
           (filter (fun n => (0 <? suspicionScore n)%Z) (res_nodes r))).
Proof.
  intros r. assert (Hshape := report_nodes_shape env transactions).
  fold r in Hshape. unfold r in *. unfold analyzeTransactions in *.
  cbn [fst suspicious_accounts res_nodes] in *.
  do 2 f_equal. apply filter_ext_in. intros n Hn.
  rewrite Forall_forall in Hshape.
  destruct (scored_shape_invariant n (Hshape n Hn)) as [Hsus _].
  destruct (0 <? suspicionScore n)%Z eqn:E.
  - apply Z.ltb_lt in E. apply Hsus in E. now rewrite E.
  - apply andb_false_r.
Qed.

(** X17: [suspicious_accounts] holds one entry for every node of the
    emitted table whose score is positive and none for the others, in
    descending order of score, nodes of equal score in the order of the
    node table; an entry copies the id, the tags and the ring id of its node,
    and its score is the node's integer score, which the rounding to one
    decimal leaves as it is. *)
Theorem suspicious_accounts_listing (env : Env)
  (transactions : list Transaction) :
  let r := fst (analyzeTransactions env transactions) in
  let flagged := filter (fun n => (0 <? suspicionScore n)%Z) (res_nodes r) in
  exists l,
    Permutation l flagged
    /\ StronglySorted (fun a b => (suspicionScore b <= suspicionScore a)%Z) l
    /\ (forall z, filter (fun n => (suspicionScore n =? z)%Z) l
                  = filter (fun n => (suspicionScore n =? z)%Z) flagged)
    /\ Forall2 (fun n s => account_id s = id n
                           /\ suspicion_score s = inject_Z (suspicionScore n)
                           /\ detected_patterns s = detectedPatterns n
                           /\ sa_ring_id s = ringId n)
               l (suspicious_accounts r).
Proof.
  intros r flagged. exists (sort_by_score flagged).
  split; [apply sort_by_score_perm|].
  split; [apply sort_by_score_sorted|].
  split; [intros z; apply sort_by_score_stable|].
  unfold r. rewrite report_accounts_sorted. fold r. fold flagged.
  induction (sort_by_score flagged) as [|n l IH]; cbn [map]; constructor; auto.
  unfold report_account.
  cbn [account_id suspicion_score detected_patterns sa_ring_id].
  rewrite round1_inject_Z. auto.
Qed.

Lemma Forall2_same_ids (t t' : NodeTable) :
  Forall2 same_but_ring t t' -> map id t' = map id t.
Proof.
  induction 1 as [|n n' t t' [r ->] _ IH]; cbn [map]; [reflexivity|].
  now rewrite IH.
Qed.

(** X18: the summary counts the distinct accounts named by the batch, the
    nodes with a positive score, and the rings; the node table of the report
    lists the accounts in order of first appearance and the edge list holds
    one edge per transaction. *)
Theorem summary_counts (env : Env) (transactions : list Transaction) :
  let r := fst (analyzeTransactions env transactions) in
  map id (res_nodes r) = OSet.of_list (endpoints transactions)
  /\ total_accounts_analyzed (summary r)
     = length (OSet.of_list (endpoints transactions))
  /\ suspicious_accounts_flagged (summary r)
     = length (filter (fun n => (0 <? suspicionScore n)%Z) (res_nodes r))
  /\ suspicious_accounts_flagged (summary r) = length (suspicious_accounts r)
  /\ fraud_rings_detected (summary r) = length (fraud_rings r)
  /\ res_edges r = map edge_of transactions.
Proof.
  intros r.
  assert (Hids : map id (res_nodes r) = OSet.of_list (endpoints transactions)).
  { unfold r, analyzeTransactions. cbn [fst res_nodes].
    rewrite (Forall2_same_ids _ _ (assembleFraudRings_same _ _ _ _ _ _)).
    apply filtered_nodes_ids. }
  assert (Hlen : suspicious_accounts_flagged (summary r)
                 = length (suspicious_accounts r)) by reflexivity.
  split; [exact Hids|]. split; [|split; [|split; [exact Hlen|split]]].
  - rewrite <- Hids, length_map. reflexivity.
  - rewrite Hlen. unfold r. rewrite report_accounts_sorted.
    rewrite length_map. apply Permutation_length, sort_by_score_perm.
  - reflexivity.
  - unfold r, analyzeTransactions. cbn [fst res_edges].
    unfold buildGraph. cbn [edges]. apply graph_loop_edges.
Qed.
Lemma score_of_same (t t' : NodeTable) (a : string) :
  Forall2 same_but_ring t t' -> score_of t' a = score_of t a.
Proof.
  unfold score_of. induction 1 as [|n n' t t' [r ->] _ IH]; cbn [node_get];
    [reflexivity|].
  cbn [set_ringId id]. destruct (String.eqb a (id n)); [reflexivity|exact IH].
Qed.

Lemma avgScore_same (t t' : NodeTable) (arr : list string) :
  Forall2 same_but_ring t t' -> avgScore t' arr = avgScore t arr.
Proof.
  intros H. unfold avgScore. do 2 f_equal.
  generalize 0%Z. induction arr as [|a arr IH]; cbn [fold_left]; intros z;
    [reflexivity|].
  now rewrite (score_of_same t t' a H), IH.
Qed.


Lemma emit_cycle_ring_risk (t0 : NodeTable) (st : Assembly)
  (g : string * list string) :
  risk_inv t0 st -> risk_inv t0 (emit_cycle_ring st g).
Proof.
  intros [Hs Hr]. unfold emit_cycle_ring. split; cbn [as_nodes as_rings].
  - eapply Forall2_same_trans; [exact Hs|].
    apply fold_update_same. intros n. now exists (Some (fst g)).
  - apply Forall_app. split; [exact Hr|]. constructor; [|constructor].
    cbn [risk_score member_accounts]. f_equal. now apply avgScore_same.
Qed.

Lemma emit_candidate_ring_risk (t0 : NodeTable) (pt : RingPattern)
  (arr : list string) (st : Assembly) :
  risk_inv t0 st -> risk_inv t0 (emit_candidate_ring pt arr st).
Proof.
  intros [Hs Hr]. unfold emit_candidate_ring.
  destruct (0 <? length arr); [|now split].
  split; cbn [as_nodes as_rings].
  - eapply Forall2_same_trans; [exact Hs|].
    apply fold_update_same. apply set_ringId_if_unset_same.
  - apply Forall_app. split; [exact Hr|]. constructor; [|constructor].
    cbn [risk_score member_accounts]. f_equal. now apply avgScore_same.
Qed.

Lemma assembleFraudRings_risk (previous : nat) (cs : list (list string))
  (fi fo sh : list string) (t : NodeTable) :
  risk_inv t (assembleFraudRings previous cs fi fo sh t).
Proof.
  unfold assembleFraudRings.
  do 3 apply emit_candidate_ring_risk.
  apply fold_left_invariant.
  - split; cbn [as_nodes as_rings]; [apply Forall2_same_refl|constructor].
  - intros st g Hst _. now apply emit_cycle_ring_risk.
Qed.

Lemma score_sum_bounds (t : NodeTable) (arr : list string) (z0 : Z) :
  Forall (fun n => (0 <= suspicionScore n <= 100)%Z) t ->
  (z0 <= fold_left (fun sum acc => (sum + score_of t acc)%Z) arr z0
      <= z0 + 100 * Z.of_nat (length arr))%Z.
Proof.
  intros Ht.
  assert (Hs : forall a, (0 <= score_of t a <= 100)%Z).
  { intros a. unfold score_of. destruct (node_get a t) as [n|] eqn:E; [|lia].
    apply node_get_In in E. rewrite Forall_forall in Ht. now apply Ht. }
  revert z0. induction arr as [|a arr IH]; intros z0; cbn [fold_left length].
  - lia.
  - specialize (IH (z0 + score_of t a)%Z). specialize (Hs a). lia.
Qed.

Lemma avgScore_bounds (t : NodeTable) (arr : list string) :
  Forall (fun n => (0 <= suspicionScore n <= 100)%Z) t ->
  (0 <= avgScore t arr <= 100)%Q.
Proof.
  intros Ht. unfold avgScore.
  assert (Hb := score_sum_bounds t arr 0 Ht).
  set (s := fold_left (fun sum acc => (sum + score_of t acc)%Z) arr 0%Z) in *.
  destruct arr as [|a arr].
  - cbn [length] in *. assert (s = 0%Z) by lia. subst s.
    rewrite H. split; discriminate.
  - set (n := Z.of_nat (length (a :: arr))) in *.
    assert (Hn : (0 < n)%Z) by (unfold n; cbn [length]; lia).
    assert (Hq : (0 < inject_Z n)%Q) by (unfold Qlt; simpl; lia).
    clearbody s n. split.
    + apply Qle_shift_div_l; [exact Hq|]. unfold Qle. simpl. lia.
    + apply Qle_shift_div_r; [exact Hq|].
      unfold Qle, Qmult, inject_Z. cbn [Qnum Qden]. lia.
Qed.

Lemma round1_bounds (x : Q) :
  (0 <= x <= 100)%Q -> (0 <= round1 x <= 100)%Q.
Proof.
  intros [H0 H1]. unfold round1. rewrite Qred_correct.
  assert (Hlo : (0 <= Qfloor (x * 10 + (1 # 2)))%Z).
  { change 0%Z with (Qfloor 0). apply Qfloor_resp_le.
    apply Qle_trans with (x * 10)%Q.
    - apply Qmult_le_0_compat; [exact H0|discriminate].
    - rewrite <- (Qplus_0_r (x * 10)) at 1. apply Qplus_le_r. discriminate. }
  assert (Hhi : (Qfloor (x * 10 + (1 # 2)) <= 1000)%Z).
  { change 1000%Z with (Qfloor (100 * 10 + (1 # 2))). apply Qfloor_resp_le.
    apply Qplus_le_l. apply Qmult_le_compat_r; [exact H1|discriminate]. }
  set (F := Qfloor (x * 10 + (1 # 2))) in *. clearbody F. split.
  - apply Qle_shift_div_l; [reflexivity|].
    unfold Qle, Qmult, inject_Z. cbn [Qnum Qden]. lia.
  - apply Qle_shift_div_r; [reflexivity|].
    unfold Qle, Qmult, inject_Z. cbn [Qnum Qden]. lia.
Qed.

(** X19: in the report of a run, the risk score of a ring is the mean of
    the final suspicion scores of its members, rounded to one decimal, and
    lies between 0 and 100; the ring has at least one member, so the mean is
    defined. *)
Theorem ring_risk_scores (env : Env) (transactions : list Transaction) :
  let r := fst (analyzeTransactions env transactions) in
  Forall (fun ring =>
            member_accounts ring <> []
            /\ risk_score ring
               = round1 (avgScore (res_nodes r) (member_accounts ring))
            /\ (0 <= risk_score ring <= 100)%Q)
         (fraud_rings r).
Proof.
  intros r.
  assert (Hshape := report_nodes_shape env transactions). fold r in Hshape.
  assert (Hne : Forall (fun ring => member_accounts ring <> []
                          /\ (pattern_type ring = ring_cycle ->
                              3 <= length (member_accounts ring)))
                       (fraud_rings r)).
  { unfold r, analyzeTransactions. cbn [fst fraud_rings].
    apply rings_nonempty_of_cycles. unfold detect. cbn [d_cycles].
    eapply Forall_impl; [|apply detectCycles_all_ok].
    intros c [Hlen [Hnd _]]. split; [lia|exact Hnd]. }
  assert (Hrisk : Forall (fun ring => risk_score ring
                    = round1 (avgScore (res_nodes r) (member_accounts ring)))
                         (fraud_rings r)).
  { unfold r, analyzeTransactions. cbn [fst fraud_rings res_nodes].
    set (a := assembleFraudRings _ _ _ _ _ _).
    destruct (assembleFraudRings_risk (env_ringCounter env)
                (d_cycles (detect (buildGraph transactions)))
                (fanInAccounts (d_smurf (detect (buildGraph transactions))))
                (fanOutAccounts (d_smurf (detect (buildGraph transactions))))
                (d_shell (detect (buildGraph transactions)))
                (filtered_nodes transactions)) as [Hs Hr].
    fold a in Hs, Hr. eapply Forall_impl; [|exact Hr].
    intros ring ->. f_equal. symmetry. now apply avgScore_same. }
  rewrite Forall_forall in *. intros ring Hring.
  split; [exact (proj1 (Hne ring Hring))|].
  split; [exact (Hrisk ring Hring)|].
  rewrite (Hrisk ring Hring). apply round1_bounds, avgScore_bounds.
  apply Forall_forall. intros n Hn.
  apply (scored_shape_invariant n (Hshape n Hn)).
Qed.
Lemma item_ok_mono (t : NodeTable) (adj : list (string * list string))
  (V V' : list string) (item : QueueItem) :
  incl V V' -> item_ok t adj V item -> item_ok t adj V' item.
Proof.
  intros Hinc [Hl [Hlen [Hd [Hnd [Hc [Hv [Hn Hi]]]]]]].
  repeat split; auto.
  eapply Forall_impl; [|exact Hv]. cbn. intros x Hx. now apply Hinc.
Qed.

(** Appending an unvisited neighbour that has a node to the chain of an
    item. *)
Lemma extend_chain (t : NodeTable) (adj : list (string * list string))
  (V : list string) (item : QueueItem) (nb : string) (n : GraphNode) :
  item_ok t adj V item -> ~ In nb V -> node_get nb t = Some n ->
  In nb (neighbors_of adj (q_id item)) ->
  let p := q_chain item ++ [nb] in
  length p = S (S (q_depth item))
  /\ NoDup p /\ chain adj p
  /\ Forall (fun x => node_has x t = true) p
  /\ tl p = tl (q_chain item) ++ [nb]
  /\ removelast (tl p) = tl (q_chain item).
Proof.
  intros [Hl [Hlen [Hd [Hnd [Hc [Hv [Hn Hi]]]]]]] Hnb Hget Hadj p.
  assert (Hne : q_chain item <> []).
  { intros H. rewrite H in Hlen. discriminate. }
  assert (Htl : tl p = tl (q_chain item) ++ [nb]).
  { unfold p. destruct (q_chain item); [congruence|reflexivity]. }
  split; [unfold p; rewrite length_app, Hlen; cbn [length]; lia|].
  split.
  { unfold p. apply (Permutation_NoDup (Permutation_cons_append _ nb)).
    constructor; [|exact Hnd]. intros Hin. apply Hnb.
    rewrite Forall_forall in Hv. now apply Hv. }
  split; [unfold p; eapply chain_snoc; eauto|].
  split.
  { unfold p. apply Forall_app. split; [exact Hn|].
    constructor; [|constructor]. unfold node_has. now rewrite Hget. }
  split; [exact Htl|].
  rewrite Htl. apply removelast_last.
Qed.

Lemma shell_visit_inv (t : NodeTable) (adj : list (string * list string))
  (item : QueueItem) (st : ShellState) (nb : string) :
  In nb (neighbors_of adj (q_id item)) ->
  shell_inv t adj st /\ item_ok t adj (sh_visited st) item ->
  shell_inv t adj (shell_visit t item st nb)
  /\ item_ok t adj (sh_visited (shell_visit t item st nb)) item.
Proof.
  intros Hadj [[Hq Ha] Hitem]. unfold shell_visit.
  destruct (OSet.has nb (sh_visited st)) eqn:Ev;
    [split; [split|]; assumption|].
  apply OSet_has_false in Ev.
  destruct (node_get nb t) as [n|] eqn:En; [|split; [split|]; assumption].
  destruct (extend_chain t adj _ item nb n Hitem Ev En Hadj)
    as [Hlen [Hnd [Hc [Hn [Htl Hrl]]]]].
  assert (Hitem' := Hitem).
  destruct Hitem' as [_ [Hlen0 [Hd [_ [_ [Hv [_ Hi]]]]]]].
  set (accounts :=
         if (SHELL_MIN_HOPS - 1 <=? q_depth item)
            && (SHELL_MIN_HOPS <=? length (q_chain item))
         then OSet.add nb
                (fold_left (fun s acc => OSet.add acc s) (q_chain item)
                           (shellAccounts st))
         else shellAccounts st).
  assert (Hacc : Forall (on_shell_path t adj) accounts).
  { unfold accounts.
    destruct ((SHELL_MIN_HOPS - 1 <=? q_depth item)
              && (SHELL_MIN_HOPS <=? length (q_chain item))) eqn:Ec;
      [|exact Ha].
    apply andb_true_iff in Ec. destruct Ec as [Ed _].
    apply Nat.leb_le in Ed. cbn in Ed.
    assert (Hp : shell_path t adj (q_chain item ++ [nb])).
    { unfold shell_path. rewrite Hrl.
      repeat split; auto; rewrite Hlen; lia. }
    apply Forall_forall. intros x Hx.
    apply OSet_add_In in Hx. rewrite of_list_fold_In in Hx.
    destruct Hx as [->|[Hx|Hx]].
    - exists (q_chain item ++ [nb]). split; [exact Hp|].
      apply in_or_app. right. now left.
    - exists (q_chain item ++ [nb]). split; [exact Hp|].
      apply in_or_app. now left.
    - rewrite Forall_forall in Ha. now apply Ha. }
  fold accounts.
  destruct ((2 <=? totalTransactions n)
            && (totalTransactions n <=? SHELL_MAX_TX)
            && (q_depth item <? 6)) eqn:Ei.
  - apply andb_true_iff in Ei. destruct Ei as [Ei Ed6].
    apply andb_true_iff in Ei. destruct Ei as [E2 E3].
    apply Nat.leb_le in E2, E3. apply Nat.ltb_lt in Ed6.
    unfold SHELL_MAX_TX in E3.
    assert (Hinc : incl (sh_visited st) (OSet.add nb (sh_visited st))).
    { intros x Hx. apply OSet_add_In. now right. }
    cbn [sh_visited]. split; [|now apply (item_ok_mono t adj _ _ item Hinc)].
    split; cbn [sh_visited sh_queue shellAccounts]; [|exact Hacc].
    apply Forall_app. split.
    + eapply Forall_impl; [|exact Hq]. intros i. now apply item_ok_mono.
    + constructor; [|constructor].
      unfold item_ok. cbn [q_id q_depth q_chain].
      split; [apply last_last|]. split; [exact Hlen|]. split; [lia|].
      split; [exact Hnd|]. split; [exact Hc|]. split; [|split; [exact Hn|]].
      * apply Forall_app. split.
        -- eapply Forall_impl; [|exact Hv]. cbn. intros x Hx. now apply Hinc.
        -- constructor; [|constructor]. apply OSet_add_In. now left.
      * rewrite Htl. apply Forall_app. split; [exact Hi|].
        constructor; [|constructor]. exists n. split; [exact En|lia].
  - cbn [sh_visited]. split; [|exact Hitem].
    split; cbn [sh_visited sh_queue shellAccounts]; auto.
Qed.

Lemma shell_bfs_inv (fuel : nat) (t : NodeTable)
  (adj : list (string * list string)) (st : ShellState) :
  shell_inv t adj st -> shell_inv t adj (shell_bfs fuel t adj st).
Proof.
  revert st. induction fuel as [|fuel IH]; intros st Hst; [exact Hst|].
  cbn [shell_bfs]. destruct (sh_queue st) as [|item rest] eqn:Eq; [exact Hst|].
  apply IH. destruct Hst as [Hq Ha]. rewrite Eq in Hq.
  inversion Hq as [|? ? Hitem Hrest]; subst.
  apply (fold_left_invariant
           (fun st' => shell_inv t adj st'
                       /\ item_ok t adj (sh_visited st') item)).
  - split; [split|]; cbn [sh_visited sh_queue shellAccounts]; auto.
  - intros st' nb Hst' Hnb. now apply shell_visit_inv.
Qed.

Lemma shell_from_sound (t : NodeTable) (adj : list (string * list string))
  (accounts : list string) (startNode : GraphNode) :
  In startNode t ->
  Forall (on_shell_path t adj) accounts ->
  Forall (on_shell_path t adj) (shell_from t adj accounts startNode).
Proof.
  intros Hin Hacc. unfold shell_from. apply shell_bfs_inv.
  split; cbn [sh_visited sh_queue shellAccounts]; [|exact Hacc].
  constructor; [|constructor].
  unfold item_ok. cbn [q_id q_depth q_chain last length tl chain].
  repeat split; try lia; auto.
  - constructor; [intros []|constructor].
  - constructor; [now left|constructor].
  - constructor; [|constructor]. rewrite node_has_ids.
    apply OSet_has_In. now apply in_map.
Qed.

(** X20: every account the shell detector flags lies on a simple path of
    the adjacency with 4 to 8 accounts, all present in the node table, whose
    inner accounts have 2 or 3 transactions each. *)
Theorem detectShellChains_sound (t : NodeTable)
  (adj : list (string * list string)) :
  Forall (on_shell_path t adj) (detectShellChains t adj).
Proof.
  unfold detectShellChains.
  apply (fold_left_invariant (Forall (on_shell_path t adj))); [constructor|].
  intros accounts startNode Hacc Hin. now apply shell_from_sound.
Qed.
Lemma edge_endpoints (txs : list Transaction) (e : GraphEdge) :
  In e (edges (buildGraph txs)) ->
  In (source e) (endpoints txs) /\ In (target e) (endpoints txs).
Proof.
  unfold buildGraph. cbn [edges]. fold (graph_loop txs).
  rewrite graph_loop_edges. intros H. apply in_map_iff in H.
  destruct H as [t [<- Ht]]. unfold endpoints. rewrite !in_flat_map.
  split; exists t; split; auto; cbn; auto.
Qed.

Lemma neighbor_endpoints (txs : list Transaction) (x y : string) :
  In y (neighbors_of (adjacency (buildGraph txs)) x) -> In x (endpoints txs).
Proof.
  unfold buildGraph. cbn [adjacency]. fold (graph_loop txs).
  rewrite (proj1 (graph_loop_neighbors txs x)), of_list_In.
  intros H. apply in_map_iff in H. destruct H as [t [_ Ht]].
  unfold sent_by in Ht. apply filter_In in Ht. destruct Ht as [Ht Hs].
  apply String.eqb_eq in Hs. unfold endpoints. rewrite in_flat_map.
  exists t. split; [exact Ht|]. left. exact Hs.
Qed.

Lemma cycle_member_has_neighbor (adj : list (string * list string))
  (c : list string) (x : string) :
  cycle_ok adj c -> In x c -> exists y, In y (neighbors_of adj x).
Proof.
  intros [_ [_ [Hc Hclose]]] Hx.
  destruct (in_split _ _ Hx) as [l1 [l2 Heq]]. subst c.
  destruct l2 as [|y l2].
  - rewrite last_last in Hclose. eauto.
  - exists y. change (l1 ++ x :: y :: l2) with (l1 ++ [x] ++ y :: l2) in Hc.
    rewrite app_assoc in Hc. apply chain_app_inv in Hc.
    + now rewrite last_last in Hc.
    + intros H. apply app_eq_nil in H. destruct H. discriminate.
Qed.

Lemma grouped_key_member {V : Type} (key : GraphEdge -> string)
  (val : GraphEdge -> V) (es : list GraphEdge) (a : string) (l : list V) :
  In (a, l) (grouped key val es) -> exists e, In e es /\ key e = a.
Proof.
  intros H. apply grouped_In in H. destruct H as [-> Hne].
  unfold members in Hne.
  destruct (filter (fun e => String.eqb (key e) a) es) as [|e l] eqn:E;
    [now contradiction Hne|].
  assert (He : In e (filter (fun e => String.eqb (key e) a) es))
    by (rewrite E; now left).
  apply filter_In in He. destruct He as [He Hk]. apply String.eqb_eq in Hk.
  eauto.
Qed.

(** X21: every account a detector flags, and every member of every ring of
    the report, is an account named by a transaction of the batch, so it
    has a node in the table. *)
Theorem flagged_accounts_are_batch_accounts (env : Env)
  (transactions : list Transaction) :
  let d := detect (buildGraph transactions) in
  let known a := In a (endpoints transactions) in
  Forall (Forall known) (d_cycles d)
  /\ Forall known (fanInAccounts (d_smurf d))
  /\ Forall known (fanOutAccounts (d_smurf d))
  /\ Forall known (d_shell d)
  /\ Forall known (d_velocity d)
  /\ Forall (fun ring => Forall known (member_accounts ring))
            (fraud_rings (fst (analyzeTransactions env transactions))).
Proof.
  intros d known.
  set (g := buildGraph transactions).
  assert (Hids : map id (nodes g) = OSet.of_list (endpoints transactions)).
  { unfold g, buildGraph. cbn [nodes]. apply graph_loop_ids. }
  assert (Hcyc : Forall (Forall known) (d_cycles d)).
  { unfold d, detect. cbn [d_cycles]. fold g.
    eapply Forall_impl; [|apply detectCycles_all_ok].
    intros c Hc. apply Forall_forall. intros x Hx.
    destruct (cycle_member_has_neighbor _ c x Hc Hx) as [y Hy].
    exact (neighbor_endpoints transactions x y Hy). }
  assert (Hfi : Forall known (fanInAccounts (d_smurf d))).
  { unfold d, detect, detectSmurfing. cbn [d_smurf fanInAccounts]. fold g.
    apply Forall_forall. intros a Ha. unfold smurf_accounts in Ha.
    apply flagged_fold_In in Ha. destruct Ha as [[]|[l [Hin _]]].
    change (group_edges target (edges g))
      with (grouped target (fun e => e) (edges g)) in Hin.
    apply grouped_key_member in Hin. destruct Hin as [e [He <-]].
    apply (edge_endpoints transactions e He). }
  assert (Hfo : Forall known (fanOutAccounts (d_smurf d))).
  { unfold d, detect, detectSmurfing. cbn [d_smurf fanOutAccounts]. fold g.
    apply Forall_forall. intros a Ha. unfold smurf_accounts in Ha.
    apply flagged_fold_In in Ha. destruct Ha as [[]|[l [Hin _]]].
    change (group_edges source (edges g))
      with (grouped source (fun e => e) (edges g)) in Hin.
    apply grouped_key_member in Hin. destruct Hin as [e [He <-]].
    apply (edge_endpoints transactions e He). }
  assert (Hsh : Forall known (d_shell d)).
  { unfold d, detect. cbn [d_shell]. fold g.
    assert (Hp : Forall (on_shell_path (nodes g) (adjacency g))
                        (detectShellChains (nodes g) (adjacency g))).
    { unfold detectShellChains.
      apply (fold_left_invariant
               (Forall (on_shell_path (nodes g) (adjacency g))));
        [constructor|].
      intros accounts startNode Hacc Hin.
      apply shell_from_sound; [exact Hin|exact Hacc]. }
    eapply Forall_impl; [|exact Hp].
    intros a [p [[_ [_ [_ [Hn _]]]] Ha]].
    rewrite Forall_forall in Hn. specialize (Hn a Ha).
    rewrite node_has_ids in Hn. apply OSet_has_In in Hn.
    rewrite Hids, of_list_In in Hn. exact Hn. }
  assert (Hhv : Forall known (d_velocity d)).
  { unfold d, detect, detectHighVelocity. cbn [d_velocity]. fold g.
    apply Forall_forall. intros a Ha.
    apply flagged_fold_In in Ha. destruct Ha as [[]|[l [Hin _]]].
    change (fold_left (fun m e => OMap.push (source e) (timestamp e) m)
                      (edges g) [])
      with (grouped source timestamp (edges g)) in Hin.
    apply grouped_key_member in Hin. destruct Hin as [e [He <-]].
    apply (edge_endpoints transactions e He). }
  repeat (split; [assumption|]).
  unfold analyzeTransactions. cbn [fst fraud_rings]. fold g. fold d.
  apply Forall_forall. intros ring Hring. apply Forall_forall. intros a Ha.
  assert (Hok := ring_member_ok_holds _ _ _ _ _ _ ring a Hring Ha).
  rewrite Forall_forall in Hcyc, Hfi, Hfo, Hsh.
  unfold ring_member_ok in Hok. destruct (pattern_type ring).
  - destruct Hok as [c [Hc Hac]]. specialize (Hcyc c Hc).
    rewrite Forall_forall in Hcyc. now apply Hcyc.
  - now apply Hfi.
  - now apply Hfo.
  - now apply Hsh.
Qed.
